(** * Yield aggregation endpoint ([src/api/yields.js]): model and properties

    The program is a single serverless handler.  It fetches pool listings
    from two upstream services with a retrying fetcher, normalises them into
    yield records, appends three hand-written records, computes summary
    statistics and answers with a JSON envelope.

    The embedding follows the JavaScript text: values parsed from JSON are
    dynamically typed ([JsVal]), numbers are IEEE-754 binary64 values
    ([spec_float] with 53 bits of precision), exceptions are the [Throw]
    branch of [Result], and the network is an oracle that tells how the
    i-th request to a URL ends.

    A string of the language is a sequence of UTF-16 code units.  It is
    kept as a [string] of bytes, each code unit written the way UTF-8
    writes a code point of that value: one byte below [U+0080], two below
    [U+0800], three from there on.  For text within the Basic Multilingual
    Plane this is its UTF-8 encoding, so the literals of the program read
    as they are written.  No code unit's bytes occur inside or across
    those of others, so joining, comparing and searching the bytes is
    joining, comparing and searching the code units.  The lower-casing of
    a string is the runtime's, by the Unicode tables: it is a parameter
    of the model, [toLowerCase]. *)

From Stdlib Require Import ZArith List String Ascii Bool Lia QArith.
From Stdlib Require Import Floats.SpecFloat DecimalString.
Import ListNotations.

Local Open Scope list_scope.
Local Open Scope string_scope.
Local Open Scope Z_scope.

(** ** Exceptions *)

(** The errors the program can raise or receive.  [HttpError s] is
    [new Error(`HTTP ${s}`)]; [SyntaxError] is a body that
    [response.json()] cannot parse; [TypeError] is what the language
    raises on [null.x], on a call of a non-function and on an object that
    has no primitive value, and also what a [fetch] that cannot reach the
    server is rejected with. *)
Inductive JsError : Type :=
| TypeError
| SyntaxError
| HttpError (status : Z).

Inductive Result (A : Type) : Type :=
| Ok (a : A)
| Throw (e : JsError).
Arguments Ok {A} a.
Arguments Throw {A} e.

Definition bind {A B : Type} (r : Result A) (k : A -> Result B) : Result B :=
  match r with
  | Ok a => k a
  | Throw e => Throw e
  end.

Declare Scope js_scope.
Delimit Scope js_scope with js.
Notation "'let*' x ':=' c 'in' k" := (bind c (fun x => k))
  (at level 61, x pattern, c at next level, right associativity) : js_scope.
Local Open Scope js_scope.

(** ** Numbers

    A JavaScript Number is an IEEE-754 binary64 value.  [spec_float] is the
    Standard Library's specification of such values (one NaN, two zeros,
    two infinities, sign/mantissa/exponent triples); its operations round
    to nearest, ties to even, as the language does. *)

Definition number : Type := spec_float.
Definition prec : Z := 53.
Definition emax : Z := 1024.

Definition NaN : number := S754_nan.
Definition Infinity : number := S754_infinity false.
Definition NegInfinity : number := S754_infinity true.
Definition PosZero : number := S754_zero false.

Definition num_add (x y : number) : number := SFadd prec emax x y.
Definition num_mul (x y : number) : number := SFmul prec emax x y.
Definition num_div (x y : number) : number := SFdiv prec emax x y.
(** [x < y] and [x <= y]; both are [false] as soon as one side is NaN. *)
Definition num_lt (x y : number) : bool := SFltb x y.
Definition num_le (x y : number) : bool := SFleb x y.

(** The Number nearest to the integer [z]. *)
Definition num_of_Z (z : Z) : number := binary_normalize prec emax z 0 false.

(** The Number nearest to the fraction [p/q], with sign bit [s]. *)
Definition num_of_ratio (s : bool) (p q : positive) : number :=
  SFdiv prec emax (S754_finite s p 0) (S754_finite false q 0).

(** The Number denoted by the decimal numeral [d * 10^k] with sign [s]:
    what the language reads for a literal such as [5.25] ([d = 525],
    [k = -2]). *)
Definition num_of_decimal (s : bool) (d : N) (k : Z) : number :=
  match d with
  | N0 => S754_zero s
  | Npos p =>
      match k with
      | Zneg k' => num_of_ratio s p (10 ^ k')
      | _ => num_of_ratio s (p * Z.to_pos (10 ^ k)) 1
      end
  end.

(** Same Number, bit for bit. *)
Definition num_same (x y : number) : bool :=
  match x, y with
  | S754_zero s, S754_zero t => Bool.eqb s t
  | S754_infinity s, S754_infinity t => Bool.eqb s t
  | S754_nan, S754_nan => true
  | S754_finite s m e, S754_finite t n f =>
      Bool.eqb s t && Pos.eqb m n && Z.eqb e f
  | _, _ => false
  end.

Definition is_nan (x : number) : bool :=
  match x with S754_nan => true | _ => false end.


(** *** Number to string

    [Number::toString]: the shortest decimal digit string [d] (of [k]
    digits) with a decimal exponent [n] such that [d * 10^(n-k)] reads back
    as the same Number, laid out in positional or exponent notation. *)

Definition N_to_string (n : N) : string := NilZero.string_of_uint (N.to_uint n).

Fixpoint zeros (n : nat) : string :=
  match n with
  | O => EmptyString
  | S k => String "0" (zeros k)
  end.

Fixpoint dec_exp_small (fuel : nat) (num den : Z) (n : Z) : Z :=
  match fuel with
  | O => n
  | S f => if den <=? num * 10 then n else dec_exp_small f (num * 10) den (n - 1)
  end.

(** The [n] with [10^(n-1) <= num/den < 10^n]. *)
Definition dec_exp (num den : Z) : Z :=
  if den <=? num
  then Z.of_nat (String.length (N_to_string (Z.to_N (num / den))))
  else dec_exp_small (S (Z.to_nat (Z.log2 den))) num den 0.

(** The [k]-digit candidates around [num/den] that read back as [x]. *)
Definition shortest_at (x : number) (num den n0 k : Z) : option (N * Z) :=
  let sh := n0 - k in
  let A := if sh <? 0 then num * 10 ^ (- sh) else num in
  let B := if sh <? 0 then den else den * 10 ^ sh in
  let lo := A / B in
  let r := A mod B in
  let hi := lo + 1 in
  let ok c := num_same (num_of_decimal false (Z.to_N c) sh) x in
  let norm c :=
    if c =? 10 ^ k then (Z.to_N (10 ^ (k - 1)), n0 + 1) else (Z.to_N c, n0) in
  match ok lo, ok hi with
  | true, true =>
      match 2 * r ?= B with
      | Lt => Some (norm lo)
      | Gt => Some (norm hi)
      | Eq => Some (norm (if Z.even lo then lo else hi))
      end
  | true, false => Some (norm lo)
  | false, true => Some (norm hi)
  | false, false => None
  end.

Fixpoint shortest_from (fuel : nat) (x : number) (num den n0 k : Z) : N * Z * Z :=
  match fuel with
  | O => (Z.to_N (num * 10 ^ (k - n0) / (den * 10 ^ (n0 - k))), n0, k)
  | S f =>
      match shortest_at x num den n0 k with
      | Some (d, n) => (d, n, k)
      | None => shortest_from f x num den n0 (k + 1)
      end
  end.

Definition format_digits (ds : string) (n k : Z) : string :=
  if (k <=? n) && (n <=? 21) then ds ++ zeros (Z.to_nat (n - k))
  else if (0 <? n) && (n <=? 21) then
    substring 0 (Z.to_nat n) ds ++ "." ++ substring (Z.to_nat n) (Z.to_nat (k - n)) ds
  else if (-6 <? n) && (n <=? 0) then "0." ++ zeros (Z.to_nat (- n)) ++ ds
  else
    let e := n - 1 in
    let es := (if e <? 0 then "-" else "+") ++ N_to_string (Z.to_N (Z.abs e)) in
    if k =? 1 then ds ++ "e" ++ es
    else substring 0 1 ds ++ "." ++ substring 1 (Z.to_nat (k - 1)) ds ++ "e" ++ es.

Definition NumberToString (x : number) : string :=
  match x with
  | S754_nan => "NaN"
  | S754_zero _ => "0"
  | S754_infinity s => if s then "-Infinity" else "Infinity"
  | S754_finite s m e =>
      let num := if e <? 0 then Zpos m else Zpos m * 2 ^ e in
      let den := if e <? 0 then 2 ^ (- e) else 1 in
      let n0 := dec_exp num den in
      let '(d, n, k) := shortest_from 17 (S754_finite false m e) num den n0 1 in
      (if s then "-" else "") ++ format_digits (N_to_string d) n k
  end.

(** *** String to number

    [StringToNumber]: surrounding white space is dropped; the empty string
    is [+0]; [0x], [0o] and [0b] introduce unsigned integers; otherwise the
    whole text must be a signed decimal literal or [Infinity]; anything else
    is NaN. *)

(** The white space and line terminators of the language, as bytes:
    [U+0009]-[U+000D] and [U+0020] on one byte, [U+00A0] on two, and on
    three [U+1680], [U+2000]-[U+200A], [U+2028], [U+2029], [U+202F],
    [U+205F], [U+3000] and [U+FEFF]. *)
Definition is_space (c : ascii) : bool :=
  let n := N_of_ascii c in
  (((9 <=? n) && (n <=? 13)) || (n =? 32))%N.

Definition is_space2 (a b : ascii) : bool :=
  ((N_of_ascii a =? 194) && (N_of_ascii b =? 160))%N.

Definition is_space3 (a b c : ascii) : bool :=
  let x := N_of_ascii a in
  let y := N_of_ascii b in
  let z := N_of_ascii c in
  (((x =? 225) && (y =? 154) && (z =? 128))
   || ((x =? 226) && (y =? 128)
       && (((128 <=? z) && (z <=? 138)) || (z =? 168) || (z =? 169) || (z =? 175)))
   || ((x =? 226) && (y =? 129) && (z =? 159))
   || ((x =? 227) && (y =? 128) && (z =? 128))
   || ((x =? 239) && (y =? 187) && (z =? 191)))%N.

Fixpoint trim_left (s : string) : string :=
  match s with
  | String a r1 =>
      if is_space a then trim_left r1
      else
        match r1 with
        | String b r2 =>
            if is_space2 a b then trim_left r2
            else
              match r2 with
              | String c r3 => if is_space3 a b c then trim_left r3 else s
              | EmptyString => s
              end
        | EmptyString => s
        end
  | EmptyString => EmptyString
  end.

(** Nothing but white space from here on. *)
Definition all_space (s : string) : bool :=
  match trim_left s with
  | EmptyString => true
  | _ => false
  end.

Fixpoint trim_right (s : string) : string :=
  match s with
  | String c r => if all_space s then EmptyString else String c (trim_right r)
  | EmptyString => EmptyString
  end.

Definition digit_val (base : N) (c : ascii) : option N :=
  let n := N_of_ascii c in
  let v := (if (48 <=? n) && (n <=? 57) then Some (n - 48)
            else if (97 <=? n) && (n <=? 102) then Some (n - 87)
            else if (65 <=? n) && (n <=? 70) then Some (n - 55)
            else None)%N in
  match v with
  | Some d => if (d <? base)%N then Some d else None
  | None => None
  end.

Fixpoint scan_digits (base : N) (s : string) (acc : N) (cnt : nat)
  : N * nat * string :=
  match s with
  | String c r =>
      match digit_val base c with
      | Some d => scan_digits base r (acc * base + d)%N (S cnt)
      | None => (acc, cnt, s)
      end
  | EmptyString => (acc, cnt, s)
  end.

Definition radix_of (c : ascii) : option N :=
  match c with
  | "x"%char | "X"%char => Some 16%N
  | "o"%char | "O"%char => Some 8%N
  | "b"%char | "B"%char => Some 2%N
  | _ => None
  end.

Definition radix_literal (s : string) : option number :=
  match s with
  | String "0" (String c r) =>
      match radix_of c with
      | Some b =>
          let '(v, cnt, rest) := scan_digits b r 0 0 in
          match cnt, rest with
          | S _, EmptyString => Some (num_of_Z (Z.of_N v))
          | _, _ => Some NaN
          end
      | None => None
      end
  | _ => None
  end.

Definition sign_part (s : string) : bool * string :=
  match s with
  | String "+" r => (false, r)
  | String "-" r => (true, r)
  | _ => (false, s)
  end.

Definition exponent_part (s : string) : Z * string :=
  match s with
  | String c r =>
      match c with
      | "e"%char | "E"%char =>
          let '(sg, r1) := sign_part r in
          let '(v, cnt, rest) := scan_digits 10 r1 0 0 in
          match cnt with
          | O => (0, s)
          | S _ => (if sg then - Z.of_N v else Z.of_N v, rest)
          end
      | _ => (0, s)
      end
  | EmptyString => (0, s)
  end.

(** Longest decimal literal at the head of [s], and what follows it. *)
Definition decimal_literal (s : string) : option (number * string) :=
  let '(sg, r) := sign_part s in
  if prefix "Infinity" r
  then Some (S754_infinity sg, substring 8 (String.length r - 8) r)
  else
    let '(ip, icnt, r1) := scan_digits 10 r 0 0 in
    let '(fp, fcnt, r2) :=
      match r1 with
      | String "." r' => scan_digits 10 r' ip 0
      | _ => (ip, O, r1)
      end in
    match (icnt + fcnt)%nat with
    | O => None
    | S _ =>
        let '(e, r3) := exponent_part r2 in
        Some (num_of_decimal sg fp (e - Z.of_nat fcnt), r3)
    end.

Definition StringToNumber (s : string) : number :=
  match trim_right (trim_left s) with
  | EmptyString => PosZero
  | t =>
      match radix_literal t with
      | Some v => v
      | None =>
          match decimal_literal t with
          | Some (v, EmptyString) => v
          | _ => NaN
          end
      end
  end.

(** *** [toFixed] and [parseFloat]

    [x.toFixed(f)] writes a decimal numeral and [parseFloat] reads it back.
    The text written is kept as the numeral it spells: ["NaN"],
    ["Infinity"] with a sign, a sign and an integer count [d] of units
    [10^-f], or, from [10^21] on, the shortest text of [x] itself in
    exponent notation, which reads back as [x]. *)

Inductive Numeral : Type :=
| NumNaN
| NumInfinity (s : bool)
| NumDecimal (s : bool) (d : N) (k : Z)
| NumShortest (x : number).

(** The integer nearest to [m * 2^e * 10^f], the larger one on a tie. *)
Definition round_half_up (m : positive) (e : Z) (f : Z) : N :=
  let a := Zpos m * 10 ^ f in
  if e <? 0 then Z.to_N ((2 * a + 2 ^ (- e)) / 2 ^ (1 - e))
  else Z.to_N (a * 2 ^ e).

Definition at_least_1e21 (m : positive) (e : Z) : bool :=
  if e <? 0 then 10 ^ 21 * 2 ^ (- e) <=? Zpos m
  else 10 ^ 21 <=? Zpos m * 2 ^ e.

Definition toFixed (x : number) (f : Z) : Numeral :=
  match x with
  | S754_nan => NumNaN
  | S754_infinity s => NumInfinity s
  | S754_zero _ => NumDecimal false 0 (- f)
  | S754_finite s m e =>
      if at_least_1e21 m e then NumShortest x
      else NumDecimal s (round_half_up m e f) (- f)
  end.

Definition parseFloat (t : Numeral) : number :=
  match t with
  | NumNaN => NaN
  | NumInfinity s => S754_infinity s
  | NumDecimal s d k => num_of_decimal s d k
  | NumShortest x => x
  end.

(** [Math.max(...l)] and [Math.min(...l)]: a scan from the infinity of the
    other side; NaN wins over everything, [+0] is above [-0]. *)
Definition max_step (highest x : number) : number :=
  match highest, x with
  | S754_nan, _ | _, S754_nan => NaN
  | S754_zero true, S754_zero false => x
  | _, _ => if num_lt highest x then x else highest
  end.

Definition min_step (lowest x : number) : number :=
  match lowest, x with
  | S754_nan, _ | _, S754_nan => NaN
  | S754_zero false, S754_zero true => x
  | _, _ => if num_lt x lowest then x else lowest
  end.

Definition Math_max (l : list number) : number := fold_left max_step l NegInfinity.
Definition Math_min (l : list number) : number := fold_left min_step l Infinity.

(** ** Strings

    [toLowerCase] on a string whose code units are all below [U+0080]:
    [A]-[Z] move 32 places up and the rest stays.  This is what the
    runtime does to such a string; what it does to the others is left to
    the parameter [toLowerCase] of the model. *)

Definition lower_char (c : ascii) : ascii :=
  let n := N_of_ascii c in
  if ((65 <=? n) && (n <=? 90))%N then ascii_of_N (n + 32) else c.

Fixpoint toLowerCase_ascii (s : string) : string :=
  match s with
  | EmptyString => EmptyString
  | String c r => String (lower_char c) (toLowerCase_ascii r)
  end.

(** Every code unit of the string is below [U+0080]. *)
Fixpoint ascii_only (s : string) : bool :=
  match s with
  | EmptyString => true
  | String c r => (N_of_ascii c <? 128)%N && ascii_only r
  end.

(** [toUpperCase] on the unaccented letters, the only ones it is applied
    to (the first letter of a category key). *)
Definition upper_char (c : ascii) : ascii :=
  let n := N_of_ascii c in
  if ((97 <=? n) && (n <=? 122))%N then ascii_of_N (n - 32) else c.

(** [s.includes(t)]: [t] occurs in [s] as a contiguous run. *)
Fixpoint includes (s t : string) : bool :=
  prefix t s ||
  match s with
  | EmptyString => false
  | String _ r => includes r t
  end.

(** ** Values

    What [JSON.parse] can return, and [undefined], which reading a missing
    property gives.  An object is its list of own properties; the first
    binding of a key is the one that counts. *)

#[local] Set Warnings "-register-all".
Inductive JsVal : Type :=
| JUndef
| JNull
| JBool (b : bool)
| JNum (x : number)
| JStr (s : string)
| JArr (items : list JsVal)
| JObj (fields : list (string * JsVal)).

Fixpoint own (k : string) (fields : list (string * JsVal)) : option JsVal :=
  match fields with
  | [] => None
  | (k', v) :: r => if String.eqb k k' then Some v else own k r
  end.

(** [v.k], for a key [k] that no prototype defines (all keys the program
    reads are such): a [TypeError] on [null] and [undefined], the own
    property of an object, [undefined] otherwise. *)
Definition get (v : JsVal) (k : string) : Result JsVal :=
  match v with
  | JUndef | JNull => Throw TypeError
  | JObj fields =>
      match own k fields with
      | Some x => Ok x
      | None => Ok JUndef
      end
  | _ => Ok JUndef
  end.

(** [ToBoolean]. *)
Definition truthy (v : JsVal) : bool :=
  match v with
  | JUndef | JNull => false
  | JBool b => b
  | JNum (S754_zero _) | JNum S754_nan => false
  | JNum _ => true
  | JStr EmptyString => false
  | JStr _ => true
  | JArr _ | JObj _ => true
  end.

(** [ToString].  An array is joined with commas, [null] and [undefined]
    items giving the empty text.  A parsed object inherits
    [Object.prototype.toString] unless it has an own property of that
    name, which cannot be called: then no conversion exists and a
    [TypeError] is raised. *)
Fixpoint ToString (v : JsVal) : Result string :=
  match v with
  | JUndef => Ok "undefined"
  | JNull => Ok "null"
  | JBool b => Ok (if b then "true" else "false")
  | JNum x => Ok (NumberToString x)
  | JStr s => Ok s
  | JArr items =>
      let item x :=
        match x with
        | JUndef | JNull => Ok EmptyString
        | _ => ToString x
        end in
      (fix join (l : list JsVal) : Result string :=
         match l with
         | [] => Ok EmptyString
         | [x] => item x
         | x :: r =>
             let* a := item x in
             let* b := join r in
             Ok (a ++ "," ++ b)
         end) items
  | JObj fields =>
      match own "toString" fields with
      | Some _ => Throw TypeError
      | None => Ok "[object Object]"
      end
  end.

(** [ToPrimitive]: arrays and objects have no primitive [valueOf], so their
    text stands for them whatever the hint. *)
Definition ToPrimitive (v : JsVal) : Result JsVal :=
  match v with
  | JArr _ | JObj _ => let* s := ToString v in Ok (JStr s)
  | _ => Ok v
  end.

Definition ToNumber (v : JsVal) : Result number :=
  let* p := ToPrimitive v in
  Ok match p with
     | JNull => PosZero
     | JBool b => if b then num_of_Z 1 else PosZero
     | JNum x => x
     | JStr s => StringToNumber s
     | _ => NaN
     end.

(** [v > c] and [v < c] against a Number [c]. *)
Definition js_gt (v : JsVal) (c : number) : Result bool :=
  let* x := ToNumber v in Ok (num_lt c x).

Definition js_lt (v : JsVal) (c : number) : Result bool :=
  let* x := ToNumber v in Ok (num_lt x c).

(** [v * c]. *)
Definition js_mul (v : JsVal) (c : number) : Result number :=
  let* x := ToNumber v in Ok (num_mul x c).

(** [a + b]: concatenation as soon as one side is a string once made
    primitive, addition of Numbers otherwise. *)
Definition js_add (a b : JsVal) : Result JsVal :=
  let* pa := ToPrimitive a in
  let* pb := ToPrimitive b in
  match pa, pb with
  | JStr _, _ | _, JStr _ =>
      let* sa := ToString pa in
      let* sb := ToString pb in
      Ok (JStr (sa ++ sb))
  | _, _ =>
      let* x := ToNumber pa in
      let* y := ToNumber pb in
      Ok (JNum (num_add x y))
  end.

(** [v === true]. *)
Definition is_true (v : JsVal) : bool :=
  match v with
  | JBool true => true
  | _ => false
  end.

(** [v || 0]. *)
Definition or_zero (v : JsVal) : JsVal :=
  if truthy v then v else JNum PosZero.

(** [v.includes(t)]: strings and arrays have the method, a string looks
    for a substring and an array for an item equal to [t]; on anything else
    the call is a [TypeError]. *)
Definition js_includes (v : JsVal) (t : string) : Result bool :=
  match v with
  | JStr s => Ok (includes s t)
  | JArr items =>
      Ok (existsb (fun x => match x with
                            | JStr s => String.eqb s t
                            | _ => false
                            end) items)
  | _ => Throw TypeError
  end.

(** [v.toFixed(f)]: only Numbers have the method. *)
Definition js_toFixed (v : JsVal) (f : Z) : Result Numeral :=
  match v with
  | JNum x => Ok (toFixed x f)
  | _ => Throw TypeError
  end.

(** [SameValueZero], the equality of a [Set]: primitives by value, NaN
    equal to itself and the two zeros equal; arrays and objects by
    identity, and two of them met in different records are never the same
    object. *)
Definition sameValueZero (a b : JsVal) : bool :=
  match a, b with
  | JUndef, JUndef | JNull, JNull => true
  | JBool x, JBool y => Bool.eqb x y
  | JNum x, JNum y => (is_nan x && is_nan y) || SFeqb x y
  | JStr x, JStr y => String.eqb x y
  | _, _ => false
  end.

(** What a [Set] stores for a value added to it: the value itself, but
    [+0] for [-0]. *)
Definition set_value (v : JsVal) : JsVal :=
  match v with
  | JNum (S754_zero true) => JNum (S754_zero false)
  | _ => v
  end.

(** [[...new Set(l)]] for values stored as they are: first occurrences,
    in order. *)
Definition set_add {A : Type} (same : A -> A -> bool) (seen : list A) (x : A)
  : list A :=
  if existsb (same x) seen then seen else seen ++ [x].

Definition distinct {A : Type} (same : A -> A -> bool) (l : list A) : list A :=
  fold_left (set_add same) l [].

(** [a.filter(f)] and [a.map(f)] on a value: only arrays have the methods;
    an exception in the callback ends the whole call. *)
Fixpoint filterM {A : Type} (f : A -> Result bool) (l : list A)
  : Result (list A) :=
  match l with
  | [] => Ok []
  | x :: r =>
      let* b := f x in
      let* r' := filterM f r in
      Ok (if b then x :: r' else r')
  end.

Fixpoint mapM {A B : Type} (f : nat -> A -> Result B) (i : nat) (l : list A)
  : Result (list B) :=
  match l with
  | [] => Ok []
  | x :: r =>
      let* y := f i x in
      let* r' := mapM f (S i) r in
      Ok (y :: r')
  end.

Definition js_filter (v : JsVal) (f : JsVal -> Result bool)
  : Result (list JsVal) :=
  match v with
  | JArr items => filterM f items
  | _ => Throw TypeError
  end.

(** ** Effects

    What a run does besides computing: requests, timer waits and console
    lines, in order.  A computation with effects yields its trace and its
    outcome. *)

Inductive Event : Type :=
| EFetch (url : string)
| ESleep (ms : Z)
| ELog (label : string) (e : JsError).

Definition Eff (A : Type) : Type := list Event * Result A.

Definition eff_bind {A B : Type} (c : Eff A) (k : A -> Eff B) : Eff B :=
  match c with
  | (t, Ok a) => let '(t', r) := k a in ((t ++ t')%list, r)
  | (t, Throw e) => (t, Throw e)
  end.

Definition pure {A : Type} (r : Result A) : Eff A := ([], r).

(** [try { c } catch (e) { h e }] *)
Definition try_catch {A : Type} (c : Eff A) (h : JsError -> Eff A) : Eff A :=
  match c with
  | (t, Throw e) => let '(t', r) := h e in ((t ++ t')%list, r)
  | ok => ok
  end.

Notation "'let!' x ':=' c 'in' k" := (eff_bind c (fun x => k))
  (at level 61, x pattern, c at next level, right associativity) : js_scope.

(** How one [fetch(url)] ends: the promise rejects, which it does with a
    [TypeError] when the request cannot be made or answered, or a response
    arrives with a status and a body that [response.json()] parses or
    not. *)
Inductive FetchOutcome : Type :=
| Rejects
| Responds (status : Z) (body : option JsVal).

(** The network: the outcome of the [i]-th request (from 0) sent to a URL
    during one invocation.  Each URL is requested by one call of
    [fetchWithRetry] only, so [i] is that call's attempt index. *)
Definition Net : Type := string -> Z -> FetchOutcome.

(** [response.ok] *)
Definition response_ok (status : Z) : bool := (200 <=? status) && (status <=? 299).

(** The body of the [try] in [fetchWithRetry]:
    [[
      const response = await fetch(url);
      if (!response.ok) throw new Error(`HTTP ${response.status}`);
      return await response.json();
    ]] *)
Definition attempt (o : FetchOutcome) : Result JsVal :=
  match o with
  | Rejects => Throw TypeError
  | Responds status body =>
      if response_ok status then
        match body with
        | Some v => Ok v
        | None => Throw SyntaxError
        end
      else Throw (HttpError status)
  end.

(** [[
      for (let i = 0; i < retries; i++) {
        try { ... return ... }
        catch (error) {
          if (i === retries - 1) throw error;
          await new Promise(resolve => setTimeout(resolve, 1000 * Math.pow(2, i)));
        }
      }
    ]]
    [todo] counts the iterations left, [Z.to_nat retries] at the start;
    leaving the loop without a [return] gives [undefined]. *)
Fixpoint retry_loop (net : Net) (url : string) (retries : Z) (todo : nat) (i : Z)
  : Eff JsVal :=
  match todo with
  | O => ([], Ok JUndef)
  | S todo' =>
      match attempt (net url i) with
      | Ok v => ([EFetch url], Ok v)
      | Throw error =>
          if i =? retries - 1 then ([EFetch url], Throw error)
          else
            let '(t, r) := retry_loop net url retries todo' (i + 1) in
            (EFetch url :: ESleep (1000 * 2 ^ i) :: t, r)
      end
  end.

(** [retries] is a count of attempts, an integer. *)
Definition fetchWithRetry (net : Net) (url : string) (retries : Z) : Eff JsVal :=
  retry_loop net url retries (Z.to_nat retries) 0.

(** The default of the [retries] parameter, which every caller relies on. *)
Definition default_retries : Z := 3.

(** ** Records *)

Record YieldRecord : Type := mkYield {
  protocol : JsVal;
  stablecoin : JsVal;
  chain : JsVal;
  apy : number;
  tvl : JsVal;
  apyBase : option JsVal;
  apyReward : option JsVal;
  type : string;
  source : string;
  maturity : option JsVal;
  description : option string;
  url : string;
  updatedAt : string
}.

(** The clock of one adapter call: what the [k]-th evaluation of
    [new Date().toISOString()] gives. *)
Definition Clock : Type := nat -> string.

(** ** Protocol categorizer *)

Section Runtime.

(** [s.toLowerCase()] as the runtime computes it, on every string. *)
Variable toLowerCase : string -> string.

(** [v.toLowerCase()]: only strings have the method. *)
Definition js_toLowerCase (v : JsVal) : Result string :=
  match v with
  | JStr s => Ok (toLowerCase s)
  | _ => Throw TypeError
  end.

Definition categories : list (string * list string) :=
  [ ("lending", ["aave"; "compound"; "morpho"; "euler"; "spark"]);
    ("dex", ["uniswap"; "curve"; "balancer"; "velodrome"]) ].

(** [category.charAt(0).toUpperCase() + category.slice(1)] *)
Definition capitalize (category : string) : string :=
  match category with
  | EmptyString => EmptyString
  | String c r => String (upper_char c) r
  end.

(** The [for] loop over [Object.entries(categories)]. *)
Fixpoint categorize_loop (entries : list (string * list string))
  (lowerName : string) : string :=
  match entries with
  | [] => "Other"
  | (category, keywords) :: rest =>
      if existsb (fun keyword => includes lowerName keyword) keywords
      then capitalize category
      else categorize_loop rest lowerName
  end.

Definition categorizeProtocol (name : JsVal) : Result string :=
  let* lowerName := js_toLowerCase name in
  Ok (categorize_loop categories lowerName).

(** ** DeFiLlama adapter *)

Definition llama_url : string := "https://yields.llama.fi/pools".

(** The filter callback:
    [pool.stablecoin === true && pool.tvlUsd > 1000000 && pool.apy < 200];
    [&&] does not evaluate its right side when the left one is false. *)
Definition llama_keep (pool : JsVal) : Result bool :=
  let* flag := get pool "stablecoin" in
  if is_true flag then
    let* tvlUsd := get pool "tvlUsd" in
    let* large := js_gt tvlUsd (num_of_Z 1000000) in
    if large then
      let* a := get pool "apy" in
      js_lt a (num_of_Z 200)
    else Ok false
  else Ok false.

(** The map callback, field by field in the order of the object literal;
    [i] is the position of the pool among those kept. *)
Definition llama_record (now : Clock) (i : nat) (pool : JsVal)
  : Result YieldRecord :=
  let* project := get pool "project" in
  let* symbol := get pool "symbol" in
  let* chain_ := get pool "chain" in
  let* a := get pool "apy" in
  let* fixed := js_toFixed a 2 in
  let* tvlUsd := get pool "tvlUsd" in
  let* base := get pool "apyBase" in
  let* reward := get pool "apyReward" in
  let* category := categorizeProtocol project in
  let* symbol_text := ToString symbol in
  let* chain_text := ToString chain_ in
  Ok {| protocol := project;
        stablecoin := symbol;
        chain := chain_;
        apy := parseFloat fixed;
        tvl := tvlUsd;
        apyBase := Some (or_zero base);
        apyReward := Some (or_zero reward);
        type := category;
        source := "defillama";
        maturity := None;
        description := None;
        url := "https://defillama.com/yields?token=" ++ symbol_text
               ++ "&chain=" ++ chain_text;
        updatedAt := now i |}.

(** The body of the [try]: what is done with the parsed response. *)
Definition llama_select (data : JsVal) : Result (list JsVal) :=
  let* pools := get data "data" in
  let* kept := js_filter pools llama_keep in
  Ok (firstn 30 kept).

(** The [try] block of the adapter. *)
Definition llama_body (net : Net) (now : Clock) : Eff (list YieldRecord) :=
  let! data := fetchWithRetry net llama_url default_retries in
  pure (let* selected := llama_select data in
        mapM (llama_record now) 0 selected).

Definition fetchDefiLlamaYields (net : Net) (now : Clock) : Eff (list YieldRecord) :=
  try_catch (llama_body net now)
    (fun error => ([ELog "DeFi Llama fetch error:" error], Ok [])).

(** ** Pendle adapter *)

Definition pendle_chains : list (Z * string) :=
  [ (1, "Ethereum"); (42161, "Arbitrum") ].

Definition pendle_url (id : Z) : string :=
  "https://api-v2.pendle.finance/core/v1/" ++ N_to_string (Z.to_N id) ++ "/markets".

(** [market.underlyingAsset.symbol.includes('USD') &&
     market.totalActiveLiquidity > 1000000] *)
Definition pendle_keep (market : JsVal) : Result bool :=
  let* asset := get market "underlyingAsset" in
  let* symbol := get asset "symbol" in
  let* usd := js_includes symbol "USD" in
  if usd then
    let* liquidity := get market "totalActiveLiquidity" in
    js_gt liquidity (num_of_Z 1000000)
  else Ok false.

(** The object pushed for one market; [k] is the number of records pushed
    before it, which is also the number of clock readings made so far. *)
Definition pendle_record (chain_name : string) (now : Clock) (k : nat)
  (market : JsVal) : Result YieldRecord :=
  let* pt := get market "pt" in
  let* pt_symbol := get pt "symbol" in
  let* pt_text := ToString pt_symbol in
  let* asset := get market "underlyingAsset" in
  let* symbol := get asset "symbol" in
  let* implied := get market "impliedApy" in
  let* percent := js_mul implied (num_of_Z 100) in
  let* liquidity := get market "totalActiveLiquidity" in
  let* expiry := get market "expiry" in
  Ok {| protocol := JStr ("Pendle " ++ pt_text);
        stablecoin := symbol;
        chain := JStr chain_name;
        apy := parseFloat (toFixed percent 2);
        tvl := liquidity;
        apyBase := None;
        apyReward := None;
        type := "Fixed Yield";
        source := "pendle";
        maturity := Some expiry;
        description := None;
        url := "https://app.pendle.finance/";
        updatedAt := now k |}.

(** [selected.forEach(market => { allYields.push({...}) })]: records pushed
    before an exception stay in [allYields]. *)
Fixpoint push_each (f : nat -> JsVal -> Result YieldRecord) (selected : list JsVal)
  (allYields : list YieldRecord) : list YieldRecord * Result unit :=
  match selected with
  | [] => (allYields, Ok tt)
  | market :: rest =>
      match f (List.length allYields) market with
      | Ok y => push_each f rest (allYields ++ [y])
      | Throw e => (allYields, Throw e)
      end
  end.

(** [if (data.results) { data.results.filter(...).slice(0, 5) ... }]:
    [None] when the condition is false. *)
Definition pendle_select (data : JsVal) : Result (option (list JsVal)) :=
  let* results := get data "results" in
  if truthy results then
    let* kept := js_filter results pendle_keep in
    Ok (Some (firstn 5 kept))
  else Ok None.

(** One turn of the loop over the chains, inner [try]/[catch] included:
    the trace, and [allYields] after the turn. *)
Definition pendle_chain (net : Net) (now : Clock) (c : Z * string)
  (allYields : list YieldRecord) : list Event * list YieldRecord :=
  let '(id, name) := c in
  let label := "Pendle " ++ name ++ " fetch error:" in
  match fetchWithRetry net (pendle_url id) default_retries with
  | (t, Throw error) => ((t ++ [ELog label error])%list, allYields)
  | (t, Ok data) =>
      match pendle_select data with
      | Throw error => ((t ++ [ELog label error])%list, allYields)
      | Ok None => (t, allYields)
      | Ok (Some selected) =>
          match push_each (pendle_record name now) selected allYields with
          | (ys, Ok _) => (t, ys)
          | (ys, Throw error) => ((t ++ [ELog label error])%list, ys)
          end
      end
  end.

Fixpoint pendle_loop (net : Net) (now : Clock) (cs : list (Z * string))
  (allYields : list YieldRecord) : list Event * list YieldRecord :=
  match cs with
  | [] => ([], allYields)
  | c :: rest =>
      let '(t, ys) := pendle_chain net now c allYields in
      let '(t', ys') := pendle_loop net now rest ys in
      ((t ++ t')%list, ys')
  end.

(** The outer [try] block of the adapter. *)
Definition pendle_body (net : Net) (now : Clock) : Eff (list YieldRecord) :=
  let '(t, allYields) := pendle_loop net now pendle_chains [] in
  (t, Ok allYields).

Definition fetchPendleYields (net : Net) (now : Clock) : Eff (list YieldRecord) :=
  try_catch (pendle_body net now)
    (fun error => ([ELog "Pendle fetch error:" error], Ok [])).

(** ** Manual adapter *)

Definition manual_record (name coin chain_name : string) (a : number) (value : Z)
  (kind src note link stamp : string) : YieldRecord :=
  {| protocol := JStr name;
     stablecoin := JStr coin;
     chain := JStr chain_name;
     apy := a;
     tvl := JNum (num_of_Z value);
     apyBase := None;
     apyReward := None;
     type := kind;
     source := src;
     maturity := None;
     description := Some note;
     url := link;
     updatedAt := stamp |}.

Definition getManualYieldData (now : Clock) : list YieldRecord :=
  [ manual_record "Midas mTBILL" "USDC" "Ethereum"
      (num_of_decimal false 525 (-2)) 45000000
      "RWA" "midas" "BlackRock Treasury Bond backed" "https://midas.app/"
      (now 0%nat);
    manual_record "Gauntlet USD Alpha" "USDC" "Multi-chain"
      (num_of_decimal false 85 (-1)) 250000000
      "Risk-Managed" "gauntlet" "Institutional-grade risk-adjusted yield"
      "https://www.gauntlet.xyz/" (now 1%nat);
    manual_record "YieldFi yUSD" "USDC/USDT" "Multi-chain"
      (num_of_decimal false 235 (-1)) 121000000
      "Multi-Strategy" "yieldfi" "Professional asset management"
      "https://yield.fi/" (now 2%nat) ].

(** ** Aggregation and request handler *)

Record Stats : Type := mkStats {
  totalOpportunities : nat;
  totalTVL : JsVal;
  avgAPY : number;
  maxAPY : number;
  minAPY : number;
  sources : list string;
  chains : list JsVal;
  statsUpdatedAt : string
}.

(** [allYields.reduce((sum, y) => sum + y.tvl, 0)] *)
Fixpoint sum_tvl (allYields : list YieldRecord) (sum : JsVal) : Result JsVal :=
  match allYields with
  | [] => Ok sum
  | y :: rest =>
      let* sum' := js_add sum (tvl y) in
      sum_tvl rest sum'
  end.

(** [allYields.reduce((sum, y) => sum + y.apy, 0)] *)
Definition sum_apy (allYields : list YieldRecord) : number :=
  fold_left (fun sum y => num_add sum (apy y)) allYields PosZero.

(** The [stats] object literal. *)
Definition stats (allYields : list YieldRecord) (stamp : string) : Result Stats :=
  let n := List.length allYields in
  let* total := sum_tvl allYields (JNum PosZero) in
  Ok {| totalOpportunities := n;
        totalTVL := total;
        avgAPY := match allYields with
                  | [] => PosZero
                  | _ => num_div (sum_apy allYields) (num_of_Z (Z.of_nat n))
                  end;
        maxAPY := match allYields with
                  | [] => PosZero
                  | _ => Math_max (map apy allYields)
                  end;
        minAPY := match allYields with
                  | [] => PosZero
                  | _ => Math_min (map apy allYields)
                  end;
        sources := distinct String.eqb (map source allYields);
        chains := distinct sameValueZero (map set_value (map chain allYields));
        statsUpdatedAt := stamp |}.

(** What [Promise.allSettled] reports for one promise. *)
Inductive Settled (A : Type) : Type :=
| Fulfilled (value : A)
| Rejected (reason : JsError).
#[global] Arguments Fulfilled {A} value.
#[global] Arguments Rejected {A} reason.

(** An [async] function's promise is fulfilled with the value returned and
    rejected with the exception thrown. *)
Definition settle {A : Type} (c : Eff A) : Settled A :=
  match snd c with
  | Ok v => Fulfilled v
  | Throw e => Rejected e
  end.

(** [s.status === 'fulfilled' ? s.value : []] *)
Definition value_or_empty {A : Type} (s : Settled (list A)) : list A :=
  match s with
  | Fulfilled v => v
  | Rejected _ => []
  end.

Inductive Body : Type :=
| NoBody
| Failure (error : string) (message : option JsError)
| Success (data : list YieldRecord) (st : Stats).

Record Response : Type := mkResponse {
  status : Z;
  headers : list (string * string);
  body : Body
}.

Definition cors_headers : list (string * string) :=
  [ ("Access-Control-Allow-Origin", "*");
    ("Access-Control-Allow-Methods", "GET, OPTIONS");
    ("Access-Control-Allow-Headers", "Content-Type");
    ("Cache-Control", "s-maxage=300, stale-while-revalidate") ].

(** Everything outside the program that one invocation depends on. *)
Record World : Type := mkWorld {
  network : Net;
  llama_clock : Clock;
  pendle_clock : Clock;
  manual_clock : Clock;
  stats_clock : string
}.

(** The three promises handed to [Promise.allSettled], settled. *)
Definition settled_llama (w : World) : Settled (list YieldRecord) :=
  settle (fetchDefiLlamaYields (network w) (llama_clock w)).
Definition settled_pendle (w : World) : Settled (list YieldRecord) :=
  settle (fetchPendleYields (network w) (pendle_clock w)).
Definition settled_manual (w : World) : Settled (list YieldRecord) :=
  Fulfilled (getManualYieldData (manual_clock w)).

(** The merge: [[...defiLlama, ...pendle, ...manual]] with the status
    tests, for any way the three promises settle. *)
Definition merge_settled (defiLlama pendle manual : Settled (list YieldRecord))
  : list YieldRecord :=
  (value_or_empty defiLlama
   ++ value_or_empty pendle
   ++ value_or_empty manual)%list.

Definition merge (w : World) : list YieldRecord :=
  merge_settled (settled_llama w) (settled_pendle w) (settled_manual w).

(** The rest of the [try] block of the handler once [allYields] is
    there, and its [catch]: the statistics and the answer. *)
Definition respond (allYields : list YieldRecord) (stamp : string) : Response :=
  match stats allYields stamp with
  | Ok st => mkResponse 200 cors_headers (Success allYields st)
  | Throw error =>
      mkResponse 500 cors_headers
        (Failure "Failed to fetch yield data" (Some error))
  end.

Definition handler (method : string) (w : World) : Response :=
  if String.eqb method "OPTIONS" then mkResponse 200 cors_headers NoBody
  else if negb (String.eqb method "GET") then
    mkResponse 405 cors_headers (Failure "Method not allowed" None)
  else respond (merge w) (stats_clock w).

(** ** Notions used in the statements *)

(** Every attempt before the [n]-th ends in an exception. *)
Definition all_fail (net : Net) (url : string) (n : Z) : Prop :=
  forall i, 0 <= i < n -> exists e, attempt (net url i) = Throw e.

(** [k] failed attempts from index [i] on, each followed by its wait. *)
Fixpoint failed_attempts (url : string) (k : nat) (i : Z) : list Event :=
  match k with
  | O => []
  | S k' => EFetch url :: ESleep (1000 * 2 ^ i) :: failed_attempts url k' (i + 1)
  end.

Definition fetch_count (t : list Event) : nat :=
  List.length (filter (fun ev => match ev with EFetch _ => true | _ => false end) t).

Fixpoint sleeps (t : list Event) : list Z :=
  match t with
  | [] => []
  | ESleep ms :: r => ms :: sleeps r
  | _ :: r => sleeps r
  end.

(** The waits [1000 * 2^i] for [i = from, from + 1, ...], [k] of them. *)
Fixpoint backoff (k : nat) (from : Z) : list Z :=
  match k with
  | O => []
  | S k' => 1000 * 2 ^ from :: backoff k' (from + 1)
  end.

(** The categorizer as the specification words it: [label] is the
    capitalized name of the first entry, in table order, one of whose
    keywords occurs in [lowerName], and ["Other"] when no entry has one. *)
Inductive first_match : list (string * list string) -> string -> string -> Prop :=
| first_match_none lowerName :
    first_match [] lowerName "Other"
| first_match_here category keywords rest lowerName keyword :
    In keyword keywords ->
    includes lowerName keyword = true ->
    first_match ((category, keywords) :: rest) lowerName (capitalize category)
| first_match_later category keywords rest lowerName label :
    (forall keyword, In keyword keywords -> includes lowerName keyword = false) ->
    first_match rest lowerName label ->
    first_match ((category, keywords) :: rest) lowerName label.

(** [l1] is [l2] with some items left out, the others in their order. *)
Inductive Subseq {A : Type} : list A -> list A -> Prop :=
| Subseq_nil : Subseq [] []
| Subseq_skip x l1 l2 : Subseq l1 l2 -> Subseq l1 (x :: l2)
| Subseq_keep x l1 l2 : Subseq l1 l2 -> Subseq (x :: l1) (x :: l2).

(** The filter callbacks as tests: an exception is not a match. *)
Definition holds {A : Type} (f : A -> Result bool) (x : A) : bool :=
  match f x with
  | Ok true => true
  | _ => false
  end.

(** A pool the DeFiLlama filter is meant to keep: flagged as a stablecoin
    pool, with [tvlUsd > 1000000] and a Number [apy < 200]. *)
Definition llama_eligible (pool : JsVal) : Prop :=
  get pool "stablecoin" = Ok (JBool true) /\
  (exists v x, get pool "tvlUsd" = Ok v /\ ToNumber v = Ok x /\
               num_lt (num_of_Z 1000000) x = true) /\
  (exists a, get pool "apy" = Ok (JNum a) /\ num_lt a (num_of_Z 200) = true).

(** The record was built from the pool: field by field. *)
Definition from_pool (pool : JsVal) (r : YieldRecord) : Prop :=
  get pool "project" = Ok (protocol r) /\
  get pool "symbol" = Ok (stablecoin r) /\
  get pool "chain" = Ok (chain r) /\
  get pool "tvlUsd" = Ok (tvl r) /\
  (exists a, get pool "apy" = Ok (JNum a) /\ apy r = parseFloat (toFixed a 2)) /\
  categorizeProtocol (protocol r) = Ok (type r) /\
  source r = "defillama".

(** A market the Pendle filter is meant to keep: the symbol of its
    underlying asset includes ["USD"] and its active liquidity is above
    1000000. *)
Definition pendle_eligible (market : JsVal) : Prop :=
  exists asset symbol liquidity x,
    get market "underlyingAsset" = Ok asset /\
    get asset "symbol" = Ok symbol /\
    js_includes symbol "USD" = Ok true /\
    get market "totalActiveLiquidity" = Ok liquidity /\
    ToNumber liquidity = Ok x /\
    num_lt (num_of_Z 1000000) x = true.

(** The record was built from the market, for the chain called [name]. *)
Definition from_market (name : string) (market : JsVal) (r : YieldRecord) : Prop :=
  (exists asset, get market "underlyingAsset" = Ok asset /\
                 get asset "symbol" = Ok (stablecoin r)) /\
  get market "totalActiveLiquidity" = Ok (tvl r) /\
  (exists implied percent,
     get market "impliedApy" = Ok implied /\
     js_mul implied (num_of_Z 100) = Ok percent /\
     apy r = parseFloat (toFixed percent 2)) /\
  chain r = JStr name /\
  type r = "Fixed Yield" /\
  source r = "pendle".

(** The clock as seen after [k] readings. *)
Definition later (now : Clock) (k : nat) : Clock := fun j => now (k + j)%nat.

(** What one chain contributes when it is the only one asked. *)
Definition chain_yields (net : Net) (now : Clock) (c : Z * string)
  : list YieldRecord :=
  snd (pendle_chain net now c []).

Definition ethereum : Z * string := (1, "Ethereum").
Definition arbitrum : Z * string := (42161, "Arbitrum").

(** The bounds on the records one chain contributes: at most five, each
    carrying the chain's name and passing the two tests of the filter on
    its own fields, and all built in order from kept upstream markets. *)
Definition chain_bounded (net : Net) (c : Z * string) (recs : list YieldRecord)
  : Prop :=
  (List.length recs <= 5)%nat /\
  Forall (fun r => chain r = JStr (snd c) /\
                   js_includes (stablecoin r) "USD" = Ok true /\
                   js_gt (tvl r) (num_of_Z 1000000) = Ok true) recs /\
  (recs = [] \/
   exists k data results markets,
     0 <= k < default_retries /\
     attempt (net (pendle_url (fst c)) k) = Ok data /\
     get data "results" = Ok (JArr results) /\
     (exists n, markets = firstn n (firstn 5 (filter (holds pendle_keep) results))) /\
     Subseq markets results /\
     Forall pendle_eligible markets /\
     Forall2 (from_market (snd c)) markets recs).

(** A value that is not an array or an object. *)
Definition is_primitive (v : JsVal) : bool :=
  match v with
  | JArr _ | JObj _ => false
  | _ => true
  end.

(** The [tvl] of the record can be added up: it has a primitive value. *)
Definition summable (r : YieldRecord) : Prop :=
  exists p, ToPrimitive (tvl r) = Ok p.

(** [y] has the sign bit [s] and is not NaN. *)
Definition sign_is (s : bool) (y : number) : Prop :=
  match y with
  | S754_zero s' | S754_infinity s' | S754_finite s' _ _ => s' = s
  | S754_nan => False
  end.

(** [0 <= x], which NaN fails. *)
Definition nonneg (x : number) : Prop := num_le PosZero x = true.




(** The [tvl] of a record whose [tvl] is a Number. *)
Definition tvl_number (r : YieldRecord) : number :=
  match tvl r with
  | JNum x => x
  | _ => NaN
  end.



(** No Number of the list is NaN. *)
Definition no_nan (l : list number) : Prop := Forall (fun x => is_nan x = false) l.


(** ** Sample inputs *)

(** A network on which every request is rejected. *)
Definition net_down : Net := fun _ _ => Rejects.

Definition clock_zero : Clock := fun _ => "2024-01-01T00:00:00.000Z".



(** A Pendle market on Ethereum, with the given liquidity and extra
    fields; DeFiLlama and Arbitrum are down. *)
Definition market_susde (liquidity : number) (extra : list (string * JsVal))
  : JsVal :=
  JObj ([ ("pt", JObj [("symbol", JStr "PT-sUSDe")]);
          ("underlyingAsset", JObj [("symbol", JStr "sUSDe")]);
          ("totalActiveLiquidity", JNum liquidity);
          ("expiry", JStr "2025-06-26T00:00:00.000Z") ] ++ extra)%list.

Definition net_ethereum (markets : list JsVal) : Net :=
  fun url _ =>
    if String.eqb url (pendle_url 1)
    then Responds 200 (Some (JObj [("results", JArr markets)]))
    else Rejects.


(** Two markets, with liquidities of 1100000.4 and 2000000.01 and an
    implied APY of 0.05. *)
Definition net_fraction : Net :=
  net_ethereum
    [ market_susde (num_of_decimal false 11000004 (-1))
        [("impliedApy", JNum (num_of_decimal false 5 (-2)))];
      market_susde (num_of_decimal false 200000001 (-2))
        [("impliedApy", JNum (num_of_decimal false 5 (-2)))] ].

Definition world_of (net : Net) : World :=
  mkWorld net clock_zero clock_zero clock_zero "2024-01-01T00:00:00.000Z".

(** DeFiLlama answers 503 once, then lists three pools: a stablecoin pool
    that passes, one that is too small, and one that is not flagged. *)
Definition pool_of (project : string) (flag : bool) (tvlUsd apy_ : number) : JsVal :=
  JObj [ ("project", JStr project); ("symbol", JStr "USDC");
         ("chain", JStr "Ethereum"); ("stablecoin", JBool flag);
         ("tvlUsd", JNum tvlUsd); ("apy", JNum apy_) ].

Definition net_retry : Net :=
  fun url i =>
    if String.eqb url llama_url then
      if i =? 0 then Responds 503 None
      else Responds 200
             (Some (JObj [("data",
                JArr [ pool_of "Curve" true (num_of_Z 5000000)
                         (num_of_decimal false 4256 (-3));
                       pool_of "Aave V3" true (num_of_Z 900000) (num_of_Z 3);
                       pool_of "Uniswap V3" false (num_of_Z 9000000)
                         (num_of_Z 12) ])]))
    else Rejects.

(** On Ethereum, Pendle lists a good market followed by one whose [pt] is
    [null]. *)
Definition net_broken_market : Net :=
  net_ethereum
    [ market_susde (num_of_Z 3000000)
        [("impliedApy", JNum (num_of_decimal false 8 (-2)))];
      JObj [ ("pt", JNull);
             ("underlyingAsset", JObj [("symbol", JStr "USDC")]);
             ("totalActiveLiquidity", JNum (num_of_Z 4000000)) ] ].



(** Total outage of both upstream services. *)
Definition world_down : World := world_of net_down.

(** ** Further notions *)

(** The time spent waiting, in milliseconds. *)
Definition total_wait (t : list Event) : Z := fold_right Z.add 0 (sleeps t).

(** The trace only asks for [url] and waits. *)
Definition only_requests (url : string) (t : list Event) : Prop :=
  Forall (fun ev => ev = EFetch url \/ exists ms, ev = ESleep ms) t.

(** What ended an attempt with the exception [e]: a request that was
    rejected, which raises a [TypeError]; a body that could not be
    parsed; or a status outside the range that [response.ok] accepts. *)
Definition raised_by (o : FetchOutcome) (e : JsError) : Prop :=
  (o = Rejects /\ e = TypeError) \/
  (exists status,
     o = Responds status None /\ 200 <= status <= 299 /\ e = SyntaxError) \/
  (exists status body,
     o = Responds status body /\ ~ (200 <= status <= 299) /\
     e = HttpError status).

(** A pool of the documented shape: an object whose [project], [symbol]
    and [chain] are strings and whose [tvlUsd] and [apy] are Numbers. *)
Definition plain_pool (pool : JsVal) : Prop :=
  exists fields project symbol chain_ tvlUsd a,
    pool = JObj fields /\
    own "project" fields = Some (JStr project) /\
    own "symbol" fields = Some (JStr symbol) /\
    own "chain" fields = Some (JStr chain_) /\
    own "tvlUsd" fields = Some (JNum tvlUsd) /\
    own "apy" fields = Some (JNum a).

(** The records of the DeFiLlama adapter. *)
Definition llama_yields (net : Net) (now : Clock) : list YieldRecord :=
  match snd (fetchDefiLlamaYields net now) with
  | Ok recs => recs
  | Throw _ => []
  end.

(** The console lines of a trace. *)
Definition logs (t : list Event) : list (string * JsError) :=
  flat_map (fun ev => match ev with
                      | ELog label e => [(label, e)]
                      | _ => []
                      end) t.

(** The URLs requested, in order. *)
Definition fetched (t : list Event) : list string :=
  flat_map (fun ev => match ev with
                      | EFetch u => [u]
                      | _ => []
                      end) t.

(** A value that [||] keeps, or the [0] it puts in its place. *)
Definition kept_or_zero (v : JsVal) : Prop :=
  truthy v = true \/ v = JNum PosZero.

(** The field holds what the pool has under [key] when that is truthy,
    and [0] otherwise. *)
Definition upstream_or_zero (pool : JsVal) (key : string) (field : option JsVal)
  : Prop :=
  exists v,
    get pool key = Ok v /\
    ((truthy v = true /\ field = Some v) \/
     (truthy v = false /\ field = Some (JNum PosZero))).

(** The fields the DeFiLlama adapter always writes the same way. *)
Definition llama_fields (r : YieldRecord) : Prop :=
  source r = "defillama" /\
  (type r = "Lending" \/ type r = "Dex" \/ type r = "Other") /\
  (exists name, protocol r = JStr name) /\
  (exists b, apyBase r = Some b /\ kept_or_zero b) /\
  (exists b, apyReward r = Some b /\ kept_or_zero b) /\
  maturity r = None /\
  description r = None /\
  (exists s c,
     ToString (stablecoin r) = Ok s /\ ToString (chain r) = Ok c /\
     url r = "https://defillama.com/yields?token=" ++ s ++ "&chain=" ++ c).

(** A market of the documented shape: an object whose [pt] and
    [underlyingAsset] are objects with a string [symbol], and whose
    [totalActiveLiquidity] and [impliedApy] are Numbers. *)
Definition plain_market (market : JsVal) : Prop :=
  exists fields ptf pt_symbol af symbol liquidity implied,
    market = JObj fields /\
    own "pt" fields = Some (JObj ptf) /\
    own "symbol" ptf = Some (JStr pt_symbol) /\
    own "underlyingAsset" fields = Some (JObj af) /\
    own "symbol" af = Some (JStr symbol) /\
    own "totalActiveLiquidity" fields = Some (JNum liquidity) /\
    own "impliedApy" fields = Some (JNum implied).

(** What one chain does when it is the only one asked, and the label of
    its console line. *)
Definition chain_trace (net : Net) (now : Clock) (c : Z * string) : list Event :=
  fst (pendle_chain net now c []).

Definition chain_label (c : Z * string) : string :=
  "Pendle " ++ snd c ++ " fetch error:".

(** The body has no [results], and Pendle lists nothing to filter. *)
Definition net_no_results : Net :=
  fun _ _ => Responds 200 (Some (JObj [("message", JStr "maintenance")])).

(** The trace of one guarded call of the fetcher with its three attempts:
    from 1 to 3 requests, all to [url], the waits of the backoff between
    them, 3000 ms of waiting at most, and at most one console line, under
    [label]. *)
Definition guarded_trace (url label : string) (t : list Event) : Prop :=
  exists n,
    (1 <= n <= 3)%nat /\
    fetched t = repeat url n /\
    sleeps t = backoff (n - 1) 0 /\
    0 <= total_wait t <= 3000 /\
    (logs t = [] \/ exists e, logs t = [(label, e)]).

(** The keywords of a category of the table. *)
Definition keywords (category : string) : list string :=
  match find (fun entry => String.eqb (fst entry) category) categories with
  | Some entry => snd entry
  | None => []
  end.

(** The name, in lower case, has a keyword of the category somewhere in
    it. *)
Definition mentions (name category : string) : Prop :=
  exists keyword before after,
    In keyword (keywords category) /\
    toLowerCase name = before ++ keyword ++ after.

(** The sources listed for the two network adapters: one name for each
    adapter that returned a record. *)
Definition network_sources (llama pendle : list YieldRecord) : list string :=
  ((match llama with [] => [] | _ => ["defillama"] end)
   ++ (match pendle with [] => [] | _ => ["pendle"] end))%list.

(** The value is, or converts to, a string: a string, an array or an
    object. *)
Definition text_value (v : JsVal) : Prop :=
  exists s, ToPrimitive v = Ok (JStr s).

Definition text_tvl (r : YieldRecord) : Prop := text_value (tvl r).

(** DeFiLlama lists one pool whose [tvlUsd] is written as a string; Pendle
    is down. *)
Definition net_text_tvl : Net :=
  fun url _ =>
    if String.eqb url llama_url
    then Responds 200
           (Some (JObj [("data",
              JArr [ JObj [ ("project", JStr "aave-v3"); ("symbol", JStr "USDC");
                            ("chain", JStr "Ethereum"); ("stablecoin", JBool true);
                            ("tvlUsd", JStr "2000000");
                            ("apy", JNum (num_of_Z 4)) ] ])]))
    else Rejects.

(** The statistics of the answer to a [GET] then. *)
Definition stats_text_tvl : Stats :=
  match stats (merge (world_of net_text_tvl)) "" with
  | Ok st => st
  | Throw _ => mkStats 0 JUndef NaN NaN NaN [] [] ""
  end.

(** The record's APY is NaN. *)
Definition nan_apy (r : YieldRecord) : Prop := is_nan (apy r) = true.

(** The record was built from a market of some Pendle chain whose
    [impliedApy] converts to NaN: a missing one, for one. *)
Definition no_implied_apy (r : YieldRecord) : Prop :=
  exists name market implied,
    from_market name market r /\
    get market "impliedApy" = Ok implied /\
    ToNumber implied = Ok NaN.

(** The records of the Pendle adapter. *)
Definition pendle_yields (net : Net) (now : Clock) : list YieldRecord :=
  match snd (fetchPendleYields net now) with
  | Ok recs => recs
  | Throw _ => []
  end.

(** The fields the Pendle adapter always writes the same way. *)
Definition pendle_fields (r : YieldRecord) : Prop :=
  source r = "pendle" /\
  type r = "Fixed Yield" /\
  (exists text, protocol r = JStr ("Pendle " ++ text)) /\
  (chain r = JStr "Ethereum" \/ chain r = JStr "Arbitrum") /\
  apyBase r = None /\
  apyReward r = None /\
  description r = None /\
  (exists expiry, maturity r = Some expiry) /\
  url r = "https://app.pendle.finance/".

(** The record at each position was built with the clock reading of that
    position, for one of the chains. *)
Definition built_in_order (now : Clock) (recs : list YieldRecord) : Prop :=
  forall j r, nth_error recs j = Some r ->
    exists c market,
      In c pendle_chains /\ pendle_record (snd c) now j market = Ok r.

(** DeFiLlama lists a pool that passes and, after it, a stablecoin pool
    whose [apy] is [null]. *)
Definition net_null_apy : Net :=
  fun url _ =>
    if String.eqb url llama_url
    then Responds 200
           (Some (JObj [("data",
              JArr [ pool_of "Curve" true (num_of_Z 5000000) (num_of_Z 3);
                     JObj [ ("project", JStr "aave-v3"); ("symbol", JStr "USDC");
                            ("chain", JStr "Ethereum"); ("stablecoin", JBool true);
                            ("tvlUsd", JNum (num_of_Z 2000000));
                            ("apy", JNull) ] ])]))
    else Rejects.

(** * Properties *)

(** ** Retrying fetcher *)

Section Fetcher.

Variable net : Net.
Variable url : string.

Lemma fetch_count_failed_attempts k i :
  fetch_count (failed_attempts url k i ++ [EFetch url]) = S k.
Proof.
  revert i. induction k as [|k IH]; intros i; [reflexivity|].
  cbn [failed_attempts app]. unfold fetch_count in *. cbn [filter List.length].
  now rewrite IH.
Qed.

Lemma sleeps_failed_attempts k i :
  sleeps (failed_attempts url k i ++ [EFetch url]) = backoff k i.
Proof.
  revert i. induction k as [|k IH]; intros i; [reflexivity|].
  cbn [failed_attempts app sleeps backoff]. now rewrite IH.
Qed.

(** The loop, started at [i] with the attempts from [i] to [k - 1] failing
    and none of them the last one allowed, reaches attempt [k]. *)
Lemma retry_loop_reaches retries todo i k :
  i <= k <= retries - 1 ->
  (Z.to_nat (k - i) <= todo)%nat ->
  (forall j, i <= j < k -> exists e, attempt (net url j) = Throw e) ->
  exists todo',
    todo = (Z.to_nat (k - i) + todo')%nat /\
    retry_loop net url retries todo i =
      let '(t, r) := retry_loop net url retries todo' k in
      ((failed_attempts url (Z.to_nat (k - i)) i ++ t)%list, r).
Proof.
  intros Hik Hfuel Hfail.
  remember (Z.to_nat (k - i)) as d eqn:Hd.
  revert todo i Hik Hfuel Hfail Hd.
  induction d as [|d IH]; intros todo i Hik Hfuel Hfail Hd.
  - assert (k = i) by lia. subst k. exists todo. split; [reflexivity|].
    cbn [failed_attempts app]. now destruct (retry_loop net url retries todo i).
  - destruct todo as [|todo]; [lia|].
    destruct (Hfail i ltac:(lia)) as [e He].
    destruct (IH todo (i + 1)) as [todo' [Htodo Hrun]]; try lia.
    { intros j Hj. apply Hfail. lia. }
    exists todo'. split; [lia|].
    cbn [retry_loop]. rewrite He.
    assert (Hne : (i =? retries - 1) = false) by (apply Z.eqb_neq; lia).
    rewrite Hne, Hrun.
    destruct (retry_loop net url retries todo' k) as [t r].
    reflexivity.
Qed.

(** The run up to attempt [k], when the attempts before it fail:
    attempt [k] ends the call if it succeeds or is the last one. *)
Lemma fetchWithRetry_at retries k :
  0 <= k < retries ->
  all_fail net url k ->
  (forall v, attempt (net url k) = Ok v ->
     fetchWithRetry net url retries =
       ((failed_attempts url (Z.to_nat k) 0 ++ [EFetch url])%list, Ok v)) /\
  (forall e, attempt (net url k) = Throw e -> k = retries - 1 ->
     fetchWithRetry net url retries =
       ((failed_attempts url (Z.to_nat k) 0 ++ [EFetch url])%list, Throw e)).
Proof.
  intros Hk Hfail. unfold fetchWithRetry.
  destruct (retry_loop_reaches retries (Z.to_nat retries) 0 k)
    as [todo' [Htodo Hrun]]; try lia.
  { intros j Hj. apply Hfail. lia. }
  rewrite Z.sub_0_r in *.
  destruct todo' as [|todo']; [lia|].
  split.
  - intros v Hat. rewrite Hrun. cbn [retry_loop]. now rewrite Hat.
  - intros e Hat Hlast. rewrite Hrun. cbn [retry_loop].
    rewrite Hat. subst k. now rewrite Z.eqb_refl.
Qed.

(** When every attempt fails the last exception is the outcome. *)
Lemma fetchWithRetry_exhausted (n : Z) :
  1 <= n -> all_fail net url n ->
  exists e,
    attempt (net url (n - 1)) = Throw e /\
    fetchWithRetry net url n =
      ((failed_attempts url (Z.to_nat (n - 1)) 0 ++ [EFetch url])%list, Throw e).
Proof.
  intros Hn Hfail.
  destruct (Hfail (n - 1) ltac:(lia)) as [e He].
  exists e. split; [exact He|].
  apply (fetchWithRetry_at n (n - 1)); try lia; try exact He.
  intros j Hj. apply Hfail. lia.
Qed.


(** Whatever the network does, a call with at least one attempt allowed
    sends a request and ends either with the body some attempt delivered
    or with an exception. *)
Lemma fetchWithRetry_contract (n : Z) :
  1 <= n ->
  exists t r,
    fetchWithRetry net url n = (EFetch url :: t, r) /\
    ((exists k v, 0 <= k < n /\ attempt (net url k) = Ok v /\ r = Ok v) \/
     (exists e, attempt (net url (n - 1)) = Throw e /\ r = Throw e)).
Proof.
  intros Hn. unfold fetchWithRetry.
  assert (Hgen : forall todo i,
             0 <= i -> i + Z.of_nat todo = n -> (0 < todo)%nat ->
             exists t r,
               retry_loop net url n todo i = (EFetch url :: t, r) /\
               ((exists k v, 0 <= k < n /\ attempt (net url k) = Ok v /\ r = Ok v) \/
                (exists e, attempt (net url (n - 1)) = Throw e /\ r = Throw e))).
  { induction todo as [|todo IH]; intros i Hi Hsum Hpos; [lia|].
    cbn [retry_loop]. destruct (attempt (net url i)) as [v|e] eqn:Hat.
    - exists [], (Ok v). split; [reflexivity|]. left. exists i, v.
      repeat split; try lia; assumption.
    - destruct (i =? n - 1) eqn:Hlast.
      + apply Z.eqb_eq in Hlast. subst i.
        exists [], (Throw e). split; [reflexivity|]. right. now exists e.
      + apply Z.eqb_neq in Hlast.
        destruct (IH (i + 1)) as [t [r [Hrun Hres]]]; try lia.
        rewrite Hrun. eexists _, r. split; [reflexivity|exact Hres]. }
  apply (Hgen (Z.to_nat n) 0); lia.
Qed.

(** C10.  With [retries <= 0] the loop body never runs: no request is
    sent, no exception is raised and the call returns [undefined].  From
    one attempt on, a request is always sent and the outcome is a delivered
    body or an exception, so the contract needs [retries >= 1]. *)
Theorem fetchWithRetry_no_attempt (retries : Z) :
  retries <= 0 ->
  fetchWithRetry net url retries = ([], Ok JUndef) /\
  (forall n, 1 <= n ->
     exists t r,
       fetchWithRetry net url n = (EFetch url :: t, r) /\
       ((exists k v, 0 <= k < n /\ attempt (net url k) = Ok v /\ r = Ok v) \/
        (exists e, attempt (net url (n - 1)) = Throw e /\ r = Throw e))).
Proof.
  intros Hle. split.
  - unfold fetchWithRetry.
    replace (Z.to_nat retries) with O by lia. reflexivity.
  - exact fetchWithRetry_contract.
Qed.

End Fetcher.


Lemma fetchWithRetry_no_attempt_witness :
  0 <= 0 /\ fetchWithRetry net_down "u" 0 = ([], Ok JUndef).
Proof.
  split; [lia|].
  apply (proj1 (fetchWithRetry_no_attempt net_down "u" 0 ltac:(lia))).
Defined.

(** ** Protocol categorizer *)

Lemma lower_char_idempotent c : lower_char (lower_char c) = lower_char c.
Proof.
  destruct c as [[] [] [] [] [] [] [] []]; vm_compute; reflexivity.
Qed.

Lemma toLowerCase_ascii_idempotent s :
  toLowerCase_ascii (toLowerCase_ascii s) = toLowerCase_ascii s.
Proof.
  induction s as [|c s IH]; [reflexivity|].
  cbn [toLowerCase_ascii]. now rewrite lower_char_idempotent, IH.
Qed.

Lemma categorize_loop_first_match entries lowerName :
  first_match entries lowerName (categorize_loop entries lowerName).
Proof.
  induction entries as [|[category keywords] rest IH]; cbn [categorize_loop].
  - constructor.
  - destruct (existsb (fun keyword => includes lowerName keyword) keywords) eqn:Hex.
    + apply existsb_exists in Hex. destruct Hex as [keyword [Hin Hinc]].
      now apply first_match_here with keyword.
    + apply first_match_later; [|exact IH].
      intros keyword Hin.
      destruct (includes lowerName keyword) eqn:Hinc; [|reflexivity].
      assert (Htrue : existsb (fun keyword => includes lowerName keyword) keywords = true)
        by (apply existsb_exists; now exists keyword).
      congruence.
Qed.

(** The relation determines the label: table order breaks ties. *)
Lemma first_match_unique entries lowerName l1 l2 :
  first_match entries lowerName l1 -> first_match entries lowerName l2 -> l1 = l2.
Proof.
  intros H1. revert l2.
  induction H1 as [ln|c ks rest ln k Hin Hinc|c ks rest ln l Hno Hrest IH];
    intros l2 H2; inversion H2; subst; try reflexivity.
  - match goal with
    | Hn : forall keyword, In keyword ks -> _ |- _ =>
        specialize (Hn k Hin); congruence
    end.
  - match goal with
    | Hi : In ?k' ks, Hc : includes ln ?k' = true |- _ =>
        specialize (Hno k' Hi); congruence
    end.
  - now apply IH.
Qed.

(** What the theorem below asks of the runtime's lower-casing: doing it
    twice is doing it once, and on a string whose code units are all
    below [U+0080] it moves [A]-[Z] to [a]-[z] and nothing else. *)
Section LowerCase.

Hypothesis toLowerCase_idempotent :
  forall s, toLowerCase (toLowerCase s) = toLowerCase s.
Hypothesis toLowerCase_of_ascii :
  forall s, ascii_only s = true -> toLowerCase s = toLowerCase_ascii s.

(** C7.  On every string the categorizer gives the same label for the
    name and for the name in lower case, and the same label for two names
    with the same lower case; the label is the capitalized name of the
    first table entry with a keyword occurring in the lower-cased name,
    ["Other"] when there is none, and nothing else satisfies that
    description; the three names of the specification get ["Lending"],
    ["Dex"] and ["Other"]. *)
Theorem categorizeProtocol_first_match (s : string) :
  categorizeProtocol (JStr s) = categorizeProtocol (JStr (toLowerCase s)) /\
  (forall t, toLowerCase s = toLowerCase t ->
     categorizeProtocol (JStr s) = categorizeProtocol (JStr t)) /\
  (exists label,
     categorizeProtocol (JStr s) = Ok label /\
     first_match categories (toLowerCase s) label /\
     (forall label', first_match categories (toLowerCase s) label' -> label' = label) /\
     (label = "Lending" \/ label = "Dex" \/ label = "Other")) /\
  categorizeProtocol (JStr "Aave V3") = Ok "Lending" /\
  categorizeProtocol (JStr "Uniswap V3") = Ok "Dex" /\
  categorizeProtocol (JStr "Random Protocol") = Ok "Other".
Proof.
  split; [|split; [|split]].
  - unfold categorizeProtocol, js_toLowerCase, bind.
    now rewrite toLowerCase_idempotent.
  - intros t Ht. unfold categorizeProtocol, js_toLowerCase, bind.
    now rewrite Ht.
  - exists (categorize_loop categories (toLowerCase s)).
    split; [reflexivity|].
    pose proof (categorize_loop_first_match categories (toLowerCase s)) as Hfm.
    split; [exact Hfm|]. split.
    + intros label' Hfm'. now apply first_match_unique with categories (toLowerCase s).
    + unfold categories, categorize_loop.
      repeat match goal with
             | |- context [if ?b then _ else _] => destruct b
             end; cbn; auto.
  - unfold categorizeProtocol, js_toLowerCase, bind.
    rewrite !toLowerCase_of_ascii by reflexivity.
    repeat split; reflexivity.
Qed.

End LowerCase.

(** ** Arrays *)

Lemma Subseq_filter {A : Type} (p : A -> bool) (l : list A) :
  Subseq (filter p l) l.
Proof.
  induction l as [|x l IH]; cbn [filter]; [apply Subseq_nil|].
  destruct (p x); [now apply Subseq_keep|now apply Subseq_skip].
Qed.

Lemma Subseq_firstn {A : Type} (n : nat) (l : list A) : Subseq (firstn n l) l.
Proof.
  revert n. induction l as [|x l IH]; intros [|n]; cbn [firstn].
  - constructor.
  - constructor.
  - apply Subseq_skip. apply (IH O).
  - apply Subseq_keep. apply IH.
Qed.

Lemma Subseq_trans {A : Type} (l1 l2 l3 : list A) :
  Subseq l1 l2 -> Subseq l2 l3 -> Subseq l1 l3.
Proof.
  intros H12 H23. revert l1 H12.
  induction H23 as [|x l2 l3 H IH|x l2 l3 H IH]; intros l1 H12.
  - assumption.
  - apply Subseq_skip. now apply IH.
  - inversion H12; subst.
    + apply Subseq_skip. now apply IH.
    + apply Subseq_keep. now apply IH.
Qed.

Lemma filterM_Ok {A : Type} (f : A -> Result bool) (l l' : list A) :
  filterM f l = Ok l' -> l' = filter (holds f) l.
Proof.
  revert l'. induction l as [|x l IH]; intros l' H; cbn in H.
  - now inversion H.
  - destruct (f x) as [b|e] eqn:Hfx; cbn in H; [|discriminate].
    destruct (filterM f l) as [r|e]; cbn in H; [|discriminate].
    inversion H; subst. cbn [filter].
    assert (Hb : holds f x = b) by (unfold holds; rewrite Hfx; now destruct b).
    rewrite Hb, (IH r eq_refl). reflexivity.
Qed.

Lemma mapM_Ok {A B : Type} (f : nat -> A -> Result B) (l : list A) :
  forall i l', mapM f i l = Ok l' ->
  Forall2 (fun x y => exists j, f j x = Ok y) l l'.
Proof.
  induction l as [|x l IH]; intros i l' H; cbn in H.
  - inversion H. constructor.
  - destruct (f i x) as [y|e] eqn:Hy; cbn in H; [|discriminate].
    destruct (mapM f (S i) l) as [r|e] eqn:Hr; cbn in H; [|discriminate].
    inversion H; subst. constructor; [now exists i|]. now apply IH with (S i).
Qed.

Lemma filter_holds_Forall {A : Type} (f : A -> Result bool) (l : list A) :
  Forall (fun x => f x = Ok true) (filter (holds f) l).
Proof.
  apply Forall_forall. intros x Hin. apply filter_In in Hin.
  destruct Hin as [_ Hh]. unfold holds in Hh.
  destruct (f x) as [[]|]; congruence.
Qed.

Lemma Forall_firstn {A : Type} (P : A -> Prop) (n : nat) (l : list A) :
  Forall P l -> Forall P (firstn n l).
Proof.
  intros H. revert n. induction H; intros [|n]; cbn [firstn]; constructor; auto.
Qed.

(** ** DeFiLlama adapter *)

Lemma is_true_inv v : is_true v = true -> v = JBool true.
Proof. destruct v as [| |[]| | | |]; cbn; congruence. Qed.

Lemma llama_keep_true pool :
  llama_keep pool = Ok true ->
  get pool "stablecoin" = Ok (JBool true) /\
  (exists v x, get pool "tvlUsd" = Ok v /\ ToNumber v = Ok x /\
               num_lt (num_of_Z 1000000) x = true) /\
  (exists a x, get pool "apy" = Ok a /\ ToNumber a = Ok x /\
               num_lt x (num_of_Z 200) = true).
Proof.
  unfold llama_keep, js_gt, js_lt.
  destruct (get pool "stablecoin") as [flag|] eqn:Hflag; cbn [bind]; [|discriminate].
  destruct (is_true flag) eqn:Hit; [|discriminate].
  apply is_true_inv in Hit. subst flag.
  destruct (get pool "tvlUsd") as [v|] eqn:Hv; cbn [bind]; [|discriminate].
  destruct (ToNumber v) as [x|] eqn:Hx; cbn [bind]; [|discriminate].
  destruct (num_lt (num_of_Z 1000000) x) eqn:Hlt; [|discriminate].
  destruct (get pool "apy") as [a|] eqn:Ha; cbn [bind]; [|discriminate].
  destruct (ToNumber a) as [y|] eqn:Hy; cbn [bind]; [|discriminate].
  intros H.
  assert (Hlt' : num_lt y (num_of_Z 200) = true) by congruence.
  split; [reflexivity|]. split.
  - exists v, x. repeat split; assumption.
  - exists a, y. repeat split; assumption.
Qed.

Lemma llama_record_from_pool now i pool r :
  llama_record now i pool = Ok r -> from_pool pool r.
Proof.
  unfold llama_record, js_toFixed.
  destruct (get pool "project") as [project|] eqn:Hp; cbn [bind]; [|discriminate].
  destruct (get pool "symbol") as [symbol|] eqn:Hs; cbn [bind]; [|discriminate].
  destruct (get pool "chain") as [ch|] eqn:Hc; cbn [bind]; [|discriminate].
  destruct (get pool "apy") as [a|] eqn:Ha; cbn [bind]; [|discriminate].
  destruct a as [| | |a| | |]; cbn [bind]; try discriminate.
  destruct (get pool "tvlUsd") as [v|] eqn:Hv; cbn [bind]; [|discriminate].
  destruct (get pool "apyBase") as [base|] eqn:Hb; cbn [bind]; [|discriminate].
  destruct (get pool "apyReward") as [reward|] eqn:Hr; cbn [bind]; [|discriminate].
  destruct (categorizeProtocol project) as [category|] eqn:Hcat; cbn [bind]; [|discriminate].
  destruct (ToString symbol) as [st|] eqn:Hst; cbn [bind]; [|discriminate].
  destruct (ToString ch) as [ct|] eqn:Hct; cbn [bind]; [|discriminate].
  intros H. inversion H; subst r. unfold from_pool. cbn.
  repeat split; try assumption. now exists a.
Qed.

Lemma llama_selected_eligible now i pool r :
  llama_keep pool = Ok true -> llama_record now i pool = Ok r ->
  llama_eligible pool.
Proof.
  intros Hk Hr. apply llama_keep_true in Hk. apply llama_record_from_pool in Hr.
  destruct Hk as [Hs [Ht [a [x [Ha [Hx Hlt]]]]]].
  destruct Hr as [_ [_ [_ [_ [[a' [Ha' _]] _]]]]].
  split; [exact Hs|]. split; [exact Ht|].
  exists a'. split; [exact Ha'|].
  rewrite Ha in Ha'. inversion Ha'; subst a. cbn in Hx. inversion Hx; subst x.
  exact Hlt.
Qed.

Lemma llama_select_Ok data selected :
  llama_select data = Ok selected ->
  exists pools,
    get data "data" = Ok (JArr pools) /\
    selected = firstn 30 (filter (holds llama_keep) pools).
Proof.
  unfold llama_select, js_filter.
  destruct (get data "data") as [pools|] eqn:Hd; cbn [bind]; [|discriminate].
  destruct pools as [| | | | |items|]; cbn [bind]; try discriminate.
  destruct (filterM llama_keep items) as [kept|] eqn:Hk; cbn [bind]; [|discriminate].
  intros H. exists items. split; [reflexivity|].
  apply filterM_Ok in Hk. congruence.
Qed.

Lemma llama_records_from_pools now selected recs :
  Forall (fun p => llama_keep p = Ok true) selected ->
  Forall2 (fun p r => exists j, llama_record now j p = Ok r) selected recs ->
  Forall llama_eligible selected /\ Forall2 from_pool selected recs.
Proof.
  intros Hkeep Hmap. induction Hmap as [|p r ps rs [j Hr] Hrest IH].
  - split; constructor.
  - inversion Hkeep as [|? ? Hp Hps]; subst.
    destruct (IH Hps) as [He Hf]. split; constructor; try assumption.
    + now apply llama_selected_eligible with now j r.
    + now apply llama_record_from_pool with now j.
Qed.

(** Every run of the adapter ends in the [catch] with no record, or maps
    the pools selected from a delivered body. *)
Lemma fetchDefiLlamaYields_cases (net : Net) (now : Clock) :
  exists t recs,
    fetchDefiLlamaYields net now = (t, Ok recs) /\
    (recs = [] \/
     exists k data selected,
       0 <= k < default_retries /\
       attempt (net llama_url k) = Ok data /\
       llama_select data = Ok selected /\
       mapM (llama_record now) 0 selected = Ok recs).
Proof.
  unfold fetchDefiLlamaYields, llama_body.
  destruct (fetchWithRetry_contract net llama_url default_retries)
    as [t [r [Hrun Hres]]]; [unfold default_retries; lia|].
  rewrite Hrun. destruct Hres as [[k [data [Hk [Hat Hr]]]]|[e [_ Hr]]]; subst r.
  - cbn [eff_bind pure try_catch].
    destruct (llama_select data) as [selected|e] eqn:Hsel; cbn [bind].
    + destruct (mapM (llama_record now) 0 selected) as [recs|e] eqn:Hmap.
      * eexists _, recs. rewrite app_nil_r. split; [reflexivity|].
        right. exists k, data, selected. auto.
      * eexists _, []. cbn. split; [reflexivity|now left].
    + eexists _, []. cbn. split; [reflexivity|now left].
  - cbn [eff_bind try_catch]. eexists _, []. split; [reflexivity|now left].
Qed.

Lemma llama_selected_records now data selected recs :
  llama_select data = Ok selected ->
  mapM (llama_record now) 0 selected = Ok recs ->
  Forall llama_eligible selected /\ Forall2 from_pool selected recs.
Proof.
  intros Hsel Hmap.
  apply llama_select_Ok in Hsel. destruct Hsel as [pools [_ Hs]].
  apply mapM_Ok in Hmap.
  apply llama_records_from_pools with now; [|exact Hmap].
  subst selected. apply Forall_firstn, filter_holds_Forall.
Qed.

(** C3.  Whatever the upstream answers, the adapter returns at most 30
    records, and unless it returns none they are built, one for one and in
    order, from the first 30 pools of the upstream array that pass the
    filter; each of these pools is flagged as a stablecoin pool, has
    [tvlUsd > 1000000] and a Number [apy < 200]. *)
Theorem fetchDefiLlamaYields_filter (net : Net) (now : Clock) :
  exists t recs,
    fetchDefiLlamaYields net now = (t, Ok recs) /\
    (List.length recs <= 30)%nat /\
    (recs = [] \/
     exists k data pools selected,
       0 <= k < default_retries /\
       attempt (net llama_url k) = Ok data /\
       get data "data" = Ok (JArr pools) /\
       selected = firstn 30 (filter (holds llama_keep) pools) /\
       Subseq selected pools /\
       Forall llama_eligible selected /\
       Forall2 from_pool selected recs).
Proof.
  destruct (fetchDefiLlamaYields_cases net now) as [t [recs [Hrun Hcases]]].
  exists t, recs. split; [exact Hrun|].
  destruct Hcases as [->|[k [data [selected [Hk [Hat [Hsel Hmap]]]]]]].
  - split; [cbn; lia|now left].
  - destruct (llama_selected_records now data selected recs Hsel Hmap)
      as [Hel Hfrom].
    apply llama_select_Ok in Hsel. destruct Hsel as [pools [Hd Hs]].
    split.
    + rewrite <- (Forall2_length Hfrom), Hs, length_firstn. lia.
    + right. exists k, data, pools, selected.
      repeat split; try assumption; try lia.
      subst selected.
      apply Subseq_trans with (filter (holds llama_keep) pools);
        [apply Subseq_firstn|apply Subseq_filter].
Qed.

(** ** Pendle adapter *)

Lemma push_each_ext f g selected allYields :
  (forall j m, f j m = g j m) ->
  push_each f selected allYields = push_each g selected allYields.
Proof.
  intros Hfg. revert allYields.
  induction selected as [|m rest IH]; intros allYields; cbn [push_each].
  - reflexivity.
  - rewrite Hfg. destruct (g (List.length allYields) m); [apply IH|reflexivity].
Qed.

(** Pushing onto [allYields] is pushing onto an empty array with the
    positions shifted, then putting [allYields] in front. *)
Lemma push_each_shift f selected allYields :
  push_each f selected allYields =
    let '(ys, r) :=
      push_each (fun j => f (List.length allYields + j)%nat) selected [] in
    ((allYields ++ ys)%list, r).
Proof.
  revert f allYields.
  induction selected as [|m rest IH]; intros f allYields; cbn [push_each].
  - now rewrite app_nil_r.
  - cbn [List.length]. rewrite Nat.add_0_r.
    destruct (f (List.length allYields) m) as [y|e].
    + rewrite (IH f (allYields ++ [y])%list).
      rewrite (IH (fun j => f (List.length allYields + j)%nat) ([] ++ [y])%list).
      cbn [app List.length].
      rewrite (push_each_ext
                 (fun j => f (List.length (allYields ++ [y]) + j)%nat)
                 (fun j => f (List.length allYields + (1 + j))%nat)).
      * destruct (push_each _ rest []) as [ys r].
        now rewrite <- app_assoc.
      * intros j m'. rewrite length_app. cbn [List.length].
        f_equal. lia.
    + now rewrite app_nil_r.
Qed.

(** The records pushed come, one for one and in order, from a prefix of
    the selected markets. *)
Lemma push_each_prefix f selected :
  forall ys r, push_each f selected [] = (ys, r) ->
  exists n, Forall2 (fun m y => exists j, f j m = Ok y) (firstn n selected) ys /\
            (r = Ok tt -> n = List.length selected).
Proof.
  revert f. induction selected as [|m rest IH]; intros f ys r H.
  - cbn in H. inversion H; subst. exists O. split; [constructor|reflexivity].
  - cbn [push_each List.length] in H.
    destruct (f 0%nat m) as [y|e] eqn:Hy.
    + rewrite push_each_shift in H. cbn [app List.length] in H.
      destruct (push_each (fun j => f (1 + j)%nat) rest [])
        as [ys' r'] eqn:Hrest.
      inversion H; subst. apply IH in Hrest. destruct Hrest as [n [Hall Hn]].
      exists (S n). split.
      * cbn [firstn app]. constructor; [now exists O|].
        eapply Forall2_impl; [|exact Hall].
        cbn. intros a b [j Hj]. eauto.
      * intros Hok. cbn [List.length]. f_equal. auto.
    + inversion H; subst. exists O. split; [constructor|discriminate].
Qed.

Lemma pendle_keep_true market :
  pendle_keep market = Ok true -> pendle_eligible market.
Proof.
  unfold pendle_keep, js_gt, pendle_eligible.
  destruct (get market "underlyingAsset") as [asset|] eqn:Ha; cbn [bind]; [|discriminate].
  destruct (get asset "symbol") as [symbol|] eqn:Hs; cbn [bind]; [|discriminate].
  destruct (js_includes symbol "USD") as [usd|] eqn:Hu; cbn [bind]; [|discriminate].
  destruct usd; [|discriminate].
  destruct (get market "totalActiveLiquidity") as [liq|] eqn:Hl; cbn [bind]; [|discriminate].
  destruct (ToNumber liq) as [x|] eqn:Hx; cbn [bind]; [|discriminate].
  intros H. exists asset, symbol, liq, x.
  repeat split; try reflexivity; try assumption. congruence.
Qed.

Lemma pendle_record_from_market name now k market r :
  pendle_record name now k market = Ok r -> from_market name market r.
Proof.
  unfold pendle_record.
  destruct (get market "pt") as [pt|] eqn:Hpt; cbn [bind]; [|discriminate].
  destruct (get pt "symbol") as [ps|] eqn:Hps; cbn [bind]; [|discriminate].
  destruct (ToString ps) as [ptext|] eqn:Hptext; cbn [bind]; [|discriminate].
  destruct (get market "underlyingAsset") as [asset|] eqn:Ha; cbn [bind]; [|discriminate].
  destruct (get asset "symbol") as [symbol|] eqn:Hs; cbn [bind]; [|discriminate].
  destruct (get market "impliedApy") as [implied|] eqn:Hi; cbn [bind]; [|discriminate].
  destruct (js_mul implied (num_of_Z 100)) as [percent|] eqn:Hm; cbn [bind]; [|discriminate].
  destruct (get market "totalActiveLiquidity") as [liq|] eqn:Hl; cbn [bind]; [|discriminate].
  destruct (get market "expiry") as [expiry|] eqn:He; cbn [bind]; [|discriminate].
  intros H. inversion H; subst r. unfold from_market. cbn.
  repeat split; try assumption; try reflexivity.
  - exists asset. rewrite Hs. auto.
  - exists implied, percent. auto.
Qed.

(** On a record built from an eligible market the two tests of the filter
    hold of the record's own fields. *)
Lemma eligible_record name market r :
  pendle_eligible market -> from_market name market r ->
  chain r = JStr name /\
  js_includes (stablecoin r) "USD" = Ok true /\
  js_gt (tvl r) (num_of_Z 1000000) = Ok true.
Proof.
  intros [asset [symbol [liq [x [Ha [Hs [Hu [Hl [Hx Hlt]]]]]]]]]
         [[asset' [Ha' Hs']] [Hl' [_ [Hc _]]]].
  rewrite Ha in Ha'. inversion Ha'; subst asset'.
  rewrite Hs in Hs'. inversion Hs'; subst symbol.
  rewrite Hl in Hl'. inversion Hl'; subst liq.
  split; [exact Hc|]. split; [exact Hu|].
  unfold js_gt. rewrite Hx. cbn [bind]. now rewrite Hlt.
Qed.

Lemma pendle_select_Some data selected :
  pendle_select data = Ok (Some selected) ->
  exists results,
    get data "results" = Ok (JArr results) /\
    selected = firstn 5 (filter (holds pendle_keep) results).
Proof.
  unfold pendle_select, js_filter.
  destruct (get data "results") as [results|] eqn:Hr; cbn [bind]; [|discriminate].
  destruct (truthy results); [|discriminate].
  destruct results as [| | | | |items|]; cbn [bind]; try discriminate.
  destruct (filterM pendle_keep items) as [kept|] eqn:Hk; cbn [bind]; [|discriminate].
  intros H. exists items. split; [reflexivity|].
  apply filterM_Ok in Hk. congruence.
Qed.

Lemma pendle_chain_shift net now c allYields :
  pendle_chain net now c allYields =
    let '(t, ys) := pendle_chain net (later now (List.length allYields)) c [] in
    (t, (allYields ++ ys)%list).
Proof.
  unfold pendle_chain. destruct c as [id name].
  destruct (fetchWithRetry net (pendle_url id) default_retries) as [t [data|e]].
  - destruct (pendle_select data) as [[selected|]|e].
    + rewrite push_each_shift.
      rewrite (push_each_ext
                 (fun j => pendle_record name now (List.length allYields + j)%nat)
                 (pendle_record name (later now (List.length allYields))))
        by reflexivity.
      destruct (push_each _ selected []) as [ys [u|e]]; reflexivity.
    + now rewrite app_nil_r.
    + now rewrite app_nil_r.
  - now rewrite app_nil_r.
Qed.

Lemma from_markets name now markets recs :
  Forall (fun m => pendle_keep m = Ok true) markets ->
  Forall2 (fun m y => exists j, pendle_record name now j m = Ok y) markets recs ->
  Forall pendle_eligible markets /\
  Forall2 (from_market name) markets recs /\
  Forall (fun r => chain r = JStr name /\
                   js_includes (stablecoin r) "USD" = Ok true /\
                   js_gt (tvl r) (num_of_Z 1000000) = Ok true) recs.
Proof.
  intros Hkeep Hmap. induction Hmap as [|m r ms rs [j Hr] Hrest IH].
  - repeat split; constructor.
  - inversion Hkeep as [|? ? Hm Hms]; subst.
    destruct (IH Hms) as [He [Hf Hb]].
    pose proof (pendle_keep_true m Hm) as Hel.
    pose proof (pendle_record_from_market name now j m r Hr) as Hfm.
    repeat split; constructor; try assumption.
    now apply eligible_record with m.
Qed.

Lemma chain_yields_bounded net now c :
  chain_bounded net c (chain_yields net now c).
Proof.
  unfold chain_yields, pendle_chain. destruct c as [id name].
  destruct (fetchWithRetry_contract net (pendle_url id) default_retries)
    as [t [r [Hrun Hres]]]; [unfold default_retries; lia|].
  rewrite Hrun.
  assert (Hnil : chain_bounded net (id, name) []).
  { split; [cbn; lia|]. split; [constructor|now left]. }
  destruct Hres as [[k [data [Hk [Hat Hr]]]]|[e [_ Hr]]]; subst r; [|exact Hnil].
  destruct (pendle_select data) as [[selected|]|e] eqn:Hsel; try exact Hnil.
  apply pendle_select_Some in Hsel. destruct Hsel as [results [Hres Hs]].
  destruct (push_each (pendle_record name now) selected []) as [ys r] eqn:Hpush.
  assert (Hys : chain_bounded net (id, name) ys).
  { apply push_each_prefix in Hpush. destruct Hpush as [n [Hall _]].
    assert (Hkeep : Forall (fun m => pendle_keep m = Ok true) (firstn n selected)).
    { subst selected. apply Forall_firstn, Forall_firstn, filter_holds_Forall. }
    destruct (from_markets name now _ _ Hkeep Hall) as [He [Hf Hb]].
    split; [|split; [exact Hb|]].
    - rewrite <- (Forall2_length Hall), length_firstn, Hs, length_firstn. lia.
    - right. exists k, data, results, (firstn n selected). cbn [fst snd].
      repeat split; try assumption; try lia.
      + exists n. now rewrite Hs.
      + apply Subseq_trans with selected; [apply Subseq_firstn|].
        subst selected.
        apply Subseq_trans with (filter (holds pendle_keep) results);
          [apply Subseq_firstn|apply Subseq_filter]. }
  destruct r; exact Hys.
Qed.

(** A chain whose three attempts all fail contributes nothing. *)
Lemma chain_yields_down net now c :
  all_fail net (pendle_url (fst c)) default_retries ->
  chain_yields net now c = [].
Proof.
  intros Hfail. unfold chain_yields, pendle_chain. destruct c as [id name].
  cbn [fst] in Hfail.
  destruct (fetchWithRetry_exhausted net (pendle_url id) default_retries)
    as [e [_ Hrun]]; [unfold default_retries; lia|exact Hfail|].
  now rewrite Hrun.
Qed.

Lemma fetchPendleYields_chains net now :
  exists t,
    fetchPendleYields net now =
      (t, Ok (chain_yields net now ethereum
              ++ chain_yields net
                   (later now (List.length (chain_yields net now ethereum)))
                   arbitrum)%list).
Proof.
  unfold fetchPendleYields, pendle_body, pendle_chains. cbn [pendle_loop].
  unfold chain_yields, ethereum, arbitrum.
  destruct (pendle_chain net now (1, "Ethereum") []) as [t1 ys1] eqn:H1.
  rewrite (pendle_chain_shift net now (42161, "Arbitrum") ys1).
  cbn [snd].
  destruct (pendle_chain net (later now (List.length ys1)) (42161, "Arbitrum") [])
    as [t2 ys2].
  cbn [try_catch]. eexists. rewrite app_nil_r. reflexivity.
Qed.

(** C4.  The records returned are those of Ethereum followed by those of
    Arbitrum, each part being what its chain yields when asked alone (with
    the clock where the first part left it).  Each part has at most 5
    records; every record carries its chain's name, its symbol includes
    ["USD"] and its liquidity is above 1000000, and it is built from an
    upstream market of that chain that passes the filter.  When all
    attempts for one chain fail, that part is empty and the result is the
    other chain's part, unchanged. *)
Theorem fetchPendleYields_per_chain (net : Net) (now : Clock) :
  exists t eth arb,
    fetchPendleYields net now = (t, Ok (eth ++ arb)%list) /\
    eth = chain_yields net now ethereum /\
    arb = chain_yields net (later now (List.length eth)) arbitrum /\
    chain_bounded net ethereum eth /\
    chain_bounded net arbitrum arb /\
    (all_fail net (pendle_url 1) default_retries ->
     eth = [] /\ (eth ++ arb)%list = chain_yields net now arbitrum) /\
    (all_fail net (pendle_url 42161) default_retries ->
     arb = [] /\ (eth ++ arb)%list = chain_yields net now ethereum).
Proof.
  destruct (fetchPendleYields_chains net now) as [t Hrun].
  exists t, (chain_yields net now ethereum),
    (chain_yields net
       (later now (List.length (chain_yields net now ethereum))) arbitrum).
  split; [exact Hrun|]. split; [reflexivity|]. split; [reflexivity|].
  split; [apply chain_yields_bounded|]. split; [apply chain_yields_bounded|].
  split.
  - intros Hfail.
    rewrite (chain_yields_down net now ethereum Hfail). split; reflexivity.
  - intros Hfail.
    rewrite (chain_yields_down net _ arbitrum Hfail).
    split; [reflexivity|apply app_nil_r].
Qed.

(** ** Sums over records *)

Lemma ToPrimitive_primitive v p : ToPrimitive v = Ok p -> is_primitive p = true.
Proof.
  destruct v; cbn; try (intros H; inversion H; reflexivity).
  - destruct ((fix join (l : list JsVal) : Result string := _) items);
      cbn; intros H; inversion H; reflexivity.
  - destruct (own "toString" fields); cbn; intros H; inversion H; reflexivity.
Qed.

Lemma primitive_ToPrimitive p : is_primitive p = true -> ToPrimitive p = Ok p.
Proof. destruct p; cbn; congruence. Qed.

Lemma primitive_ToString p : is_primitive p = true -> exists s, ToString p = Ok s.
Proof. destruct p; cbn; try discriminate; eauto. Qed.

Lemma primitive_ToNumber p : is_primitive p = true -> exists x, ToNumber p = Ok x.
Proof. destruct p; cbn; try discriminate; eauto. Qed.

Lemma ToNumber_summable v x : ToNumber v = Ok x -> exists p, ToPrimitive v = Ok p.
Proof.
  unfold ToNumber. destruct (ToPrimitive v) as [p|e]; [eauto|discriminate].
Qed.

Lemma js_add_defined a b pb :
  is_primitive a = true -> ToPrimitive b = Ok pb ->
  exists c, js_add a b = Ok c /\ is_primitive c = true.
Proof.
  intros Ha Hb. unfold js_add.
  rewrite (primitive_ToPrimitive a Ha), Hb. cbn [bind].
  pose proof (ToPrimitive_primitive b pb Hb) as Hpb.
  destruct (primitive_ToString a Ha) as [sa Hsa].
  destruct (primitive_ToString pb Hpb) as [sb Hsb].
  destruct (primitive_ToNumber a Ha) as [x Hx].
  destruct (primitive_ToNumber pb Hpb) as [y Hy].
  rewrite Hsa, Hsb, Hx, Hy. cbn [bind].
  destruct a; try discriminate; destruct pb; try discriminate; eauto.
Qed.

Lemma sum_tvl_defined allYields :
  Forall summable allYields ->
  forall sum, is_primitive sum = true ->
  exists total, sum_tvl allYields sum = Ok total /\ is_primitive total = true.
Proof.
  induction 1 as [|y rest [p Hp] Hrest IH]; intros sum Hsum; cbn [sum_tvl].
  - eauto.
  - destruct (js_add_defined sum (tvl y) p Hsum Hp) as [c [Hc Hprim]].
    rewrite Hc. cbn [bind]. now apply IH.
Qed.

Lemma stats_defined allYields stamp :
  Forall summable allYields -> exists st, stats allYields stamp = Ok st.
Proof.
  intros Hall. unfold stats.
  destruct (sum_tvl_defined allYields Hall (JNum PosZero) eq_refl) as [total [Ht _]].
  rewrite Ht. cbn [bind]. eauto.
Qed.

(** ** What the adapters hand to the aggregator *)

Lemma llama_summable net now :
  exists t recs,
    fetchDefiLlamaYields net now = (t, Ok recs) /\ Forall summable recs.
Proof.
  destruct (fetchDefiLlamaYields_cases net now) as [t [recs [Hrun Hcases]]].
  exists t, recs. split; [exact Hrun|].
  destruct Hcases as [->|[k [data [selected [_ [_ [Hsel Hmap]]]]]]].
  - constructor.
  - destruct (llama_selected_records now data selected recs Hsel Hmap)
      as [Hel Hfrom].
    clear Hrun Hsel Hmap.
    induction Hfrom as [|pool r ps rs Hpr Hrest IH]; [constructor|].
    inversion Hel as [|? ? Hp Hps]; subst. constructor; [|now apply IH].
    destruct Hp as [_ [[v [x [Hv [Hx _]]]] _]].
    destruct Hpr as [_ [_ [_ [Htvl _]]]].
    rewrite Hv in Htvl. inversion Htvl as [Hvr].
    unfold summable. rewrite <- Hvr. now apply ToNumber_summable with x.
Qed.

Lemma chain_yields_summable net now c : Forall summable (chain_yields net now c).
Proof.
  destruct (chain_yields_bounded net now c) as [_ [Hall _]].
  eapply Forall_impl; [|exact Hall].
  intros r [_ [_ Hgt]]. unfold js_gt in Hgt.
  destruct (ToNumber (tvl r)) as [x|e] eqn:Hx; [|discriminate].
  now apply ToNumber_summable with x.
Qed.

Lemma manual_summable now : Forall summable (getManualYieldData now).
Proof.
  unfold getManualYieldData, manual_record, summable.
  repeat constructor; cbn; eauto.
Qed.

(** The two network adapters always return: their promises are fulfilled. *)
Lemma adapters_fulfilled w :
  exists l p,
    settled_llama w = Fulfilled l /\
    settled_pendle w = Fulfilled p /\
    merge w = (l ++ p ++ getManualYieldData (manual_clock w))%list /\
    Forall summable (l ++ p ++ getManualYieldData (manual_clock w))%list.
Proof.
  destruct (llama_summable (network w) (llama_clock w)) as [t1 [l [Hl Hsl]]].
  destruct (fetchPendleYields_chains (network w) (pendle_clock w)) as [t2 Hp].
  eexists l, _. unfold merge, merge_settled, settled_llama, settled_pendle, settled_manual, settle.
  rewrite Hl, Hp. cbn [snd value_or_empty].
  repeat split; try reflexivity.
  apply Forall_app. split; [exact Hsl|].
  apply Forall_app. split; [|apply manual_summable].
  apply Forall_app. split; apply chain_yields_summable.
Qed.

(** A [GET] is always answered with status 200 and the success envelope. *)
Lemma handler_get w :
  exists l p st,
    settled_llama w = Fulfilled l /\
    settled_pendle w = Fulfilled p /\
    stats (l ++ p ++ getManualYieldData (manual_clock w)) (stats_clock w) = Ok st /\
    handler "GET" w =
      mkResponse 200 cors_headers
        (Success (l ++ p ++ getManualYieldData (manual_clock w)) st).
Proof.
  destruct (adapters_fulfilled w) as [l [p [Hl [Hp [Hm Hsum]]]]].
  destruct (stats_defined _ (stats_clock w) Hsum) as [st Hst].
  exists l, p, st. repeat split; try assumption.
  unfold handler, respond. cbn [String.eqb Ascii.eqb Bool.eqb negb].
  now rewrite Hm, Hst.
Qed.

Lemma stats_count allYields stamp st :
  stats allYields stamp = Ok st ->
  totalOpportunities st = List.length allYields.
Proof.
  unfold stats. destruct (sum_tvl allYields (JNum PosZero)); cbn [bind];
    [|discriminate].
  intros H. inversion H. reflexivity.
Qed.

(** ** Request handler *)

(** C8.  [OPTIONS] is answered 200 with no body; a method that is neither
    [GET] nor [OPTIONS] is answered 405 with
    [{success: false, error: "Method not allowed"}]; [GET] is answered 200
    with [{success: true, data, stats}], [data] being the records of the
    DeFiLlama adapter, then those of the Pendle adapter, then the Manual
    ones, and [stats] the statistics of that list. *)
Theorem handler_dispatch (w : World) :
  handler "OPTIONS" w = mkResponse 200 cors_headers NoBody /\
  (forall method, method <> "GET" -> method <> "OPTIONS" ->
     handler method w =
       mkResponse 405 cors_headers (Failure "Method not allowed" None)) /\
  (exists llama pendle st,
     snd (fetchDefiLlamaYields (network w) (llama_clock w)) = Ok llama /\
     snd (fetchPendleYields (network w) (pendle_clock w)) = Ok pendle /\
     stats (llama ++ pendle ++ getManualYieldData (manual_clock w))
       (stats_clock w) = Ok st /\
     handler "GET" w =
       mkResponse 200 cors_headers
         (Success (llama ++ pendle ++ getManualYieldData (manual_clock w)) st)).
Proof.
  split; [reflexivity|]. split.
  - intros method Hget Hopt. unfold handler, respond.
    destruct (String.eqb_spec method "OPTIONS") as [->|_]; [contradiction|].
    destruct (String.eqb_spec method "GET") as [->|_]; [contradiction|].
    reflexivity.
  - destruct (handler_get w) as [l [p [st [Hl [Hp [Hst Hrun]]]]]].
    exists l, p, st. unfold settled_llama, settled_pendle, settle in Hl, Hp.
    destruct (snd (fetchDefiLlamaYields (network w) (llama_clock w)));
      [|discriminate].
    destruct (snd (fetchPendleYields (network w) (pendle_clock w)));
      [|discriminate].
    inversion Hl; inversion Hp; subst. auto.
Qed.

(** The outer [try] block of the Pendle adapter always returns: every
    exception is caught inside the turn of a chain. *)
Lemma pendle_body_returns net now :
  exists t recs,
    pendle_body net now = (t, Ok recs) /\
    fetchPendleYields net now = (t, Ok recs).
Proof.
  unfold fetchPendleYields, pendle_body.
  destruct (pendle_loop net now pendle_chains []) as [t ys].
  exists t, ys. split; reflexivity.
Qed.

(** The turn of a chain only appends to [allYields]. *)
Lemma pendle_chain_appends net now c allYields :
  snd (pendle_chain net now c allYields) =
    (allYields ++ chain_yields net (later now (List.length allYields)) c)%list.
Proof.
  rewrite pendle_chain_shift. unfold chain_yields.
  now destruct (pendle_chain net (later now (List.length allYields)) c []).
Qed.

(** C9, amended.  The promises of the two network adapters are never
    rejected, so all three statuses seen by the merge are ['fulfilled']
    and the merge is the plain concatenation of the three values.  In the
    DeFiLlama adapter an exception leaving the [try] block is answered by
    the [catch] with an empty array.  In the Pendle adapter every
    exception is caught inside the turn of a chain, which only appends to
    the records pushed so far: the outer [try] block always returns, its
    [catch] is never reached, and what was pushed stays in the result. *)
Theorem adapters_never_reject (w : World) :
  (exists llama pendle,
     settled_llama w = Fulfilled llama /\
     settled_pendle w = Fulfilled pendle /\
     settled_manual w = Fulfilled (getManualYieldData (manual_clock w)) /\
     merge w = (llama ++ pendle ++ getManualYieldData (manual_clock w))%list) /\
  (forall e, settled_llama w <> Rejected e /\
             settled_pendle w <> Rejected e /\
             settled_manual w <> Rejected e) /\
  (forall net now t e,
     llama_body net now = (t, Throw e) ->
     snd (fetchDefiLlamaYields net now) = Ok []) /\
  (forall net now,
     (forall t e, pendle_body net now <> (t, Throw e)) /\
     exists t recs,
       pendle_body net now = (t, Ok recs) /\
       fetchPendleYields net now = (t, Ok recs)) /\
  (forall net now c allYields,
     snd (pendle_chain net now c allYields) =
       (allYields ++ chain_yields net (later now (List.length allYields)) c)%list).
Proof.
  destruct (adapters_fulfilled w) as [l [p [Hl [Hp [Hm _]]]]].
  split; [|split; [|split; [|split]]].
  - exists l, p. auto.
  - intros e. rewrite Hl, Hp. repeat split; discriminate.
  - intros net now t e H. unfold fetchDefiLlamaYields. now rewrite H.
  - intros net now. destruct (pendle_body_returns net now) as [t [recs [Hb Hf]]].
    split; [|now exists t, recs].
    intros t' e H. rewrite Hb in H. discriminate H.
  - intros net now c allYields. apply pendle_chain_appends.
Qed.





(** ** Rounding keeps the sign *)

Lemma shr_1_nonneg mrs : 0 <= shr_m mrs -> 0 <= shr_m (shr_1 mrs).
Proof.
  destruct mrs as [m r t]. cbn [shr_m shr_1].
  destruct m as [|[p|p|]|[p|p|]]; cbn [shr_m]; lia.
Qed.

Lemma iter_shr_1_nonneg p :
  forall mrs, 0 <= shr_m mrs -> 0 <= shr_m (iter_pos shr_1 p mrs).
Proof.
  induction p as [p IH|p IH|]; intros mrs H; cbn [iter_pos].
  - apply IH, IH, shr_1_nonneg, H.
  - apply IH, IH, H.
  - apply shr_1_nonneg, H.
Qed.

Lemma shr_fexp_nonneg m e l :
  0 <= m -> 0 <= shr_m (fst (shr_fexp prec emax m e l)).
Proof.
  intros H. unfold shr_fexp, shr.
  assert (H0 : 0 <= shr_m (shr_record_of_loc m l))
    by (destruct l as [|[]]; exact H).
  destruct (fexp prec emax (Zdigits2 m + e) - e); cbn [fst]; try exact H0.
  apply iter_shr_1_nonneg, H0.
Qed.

Lemma round_nearest_even_nonneg m l : 0 <= m -> 0 <= round_nearest_even m l.
Proof.
  intros H. unfold round_nearest_even.
  destruct l as [|[]]; try lia. destruct (Z.even m); lia.
Qed.

Lemma binary_round_aux_sign s m e l :
  0 <= m -> sign_is s (binary_round_aux prec emax s m e l).
Proof.
  intros H. unfold binary_round_aux.
  pose proof (shr_fexp_nonneg m e l H) as H1.
  destruct (shr_fexp prec emax m e l) as [mrs' e'].
  cbn [fst] in H1.
  pose proof (shr_fexp_nonneg
                (round_nearest_even (shr_m mrs') (loc_of_shr_record mrs'))
                e' loc_Exact
                (round_nearest_even_nonneg _ _ H1)) as H2.
  destruct (shr_fexp prec emax _ e' loc_Exact) as [mrs'' e''].
  cbn [fst] in H2.
  destruct (shr_m mrs'') as [|q|q]; [reflexivity| |lia].
  destruct (e'' <=? emax - prec); reflexivity.
Qed.

Lemma num_of_ratio_sign s p q : sign_is s (num_of_ratio s p q).
Proof.
  unfold num_of_ratio, SFdiv, SFdiv_core_binary.
  set (m' := match _ - _ with Z0 => _ | Zpos _ => _ | Zneg _ => _ end).
  assert (Hm : 0 <= m').
  { subst m'. destruct (_ - _); try lia. apply Z.shiftl_nonneg. lia. }
  pose proof (Z_div_mod m' (Zpos q) ltac:(lia)) as Hdiv.
  destruct (Z.div_eucl m' (Zpos q)) as [d r].
  rewrite xorb_false_r.
  apply binary_round_aux_sign. nia.
Qed.

Lemma num_of_decimal_sign s d k : sign_is s (num_of_decimal s d k).
Proof.
  unfold num_of_decimal. destruct d; [reflexivity|].
  destruct k; apply num_of_ratio_sign.
Qed.


Lemma nonneg_cases x :
  nonneg x ->
  (exists s, x = S754_zero s) \/ x = Infinity \/ exists m e, x = S754_finite false m e.
Proof.
  destruct x as [s|[]| |[] m e]; cbn; intros H; try discriminate; eauto.
Qed.





(** ** Every record's APY *)

Lemma Forall2_right {A B : Type} (R : A -> B -> Prop) (P : B -> Prop) l l' :
  Forall2 R l l' -> (forall a b, R a b -> P b) -> Forall P l'.
Proof.
  intros H HP. induction H; constructor; eauto.
Qed.








(** With the sign bit and not NaN: below zero, or [-0]. *)
Lemma sign_is_negative y :
  sign_is true y -> y = S754_zero true \/ num_lt y PosZero = true.
Proof.
  destruct y as [[]|[]| |[] m e]; cbn; intros H;
    try discriminate; try contradiction; auto.
Qed.



Lemma sign_is_below_zero y :
  sign_is true y -> y <> S754_zero true -> num_lt y PosZero = true.
Proof.
  intros H Hne. destruct (sign_is_negative y H) as [->|Hlt]; [congruence|exact Hlt].
Qed.


(** ** The order on Numbers *)

Ltac order_cases :=
  repeat match goal with
         | |- context [Z.compare ?a ?b] => destruct (Z.compare_spec a b)
         | |- context [Pos.compare_cont Eq ?a ?b] =>
             change (Pos.compare_cont Eq a b) with (Pos.compare a b);
             destruct (Pos.compare_spec a b)
         end;
  subst; cbn; try congruence; try lia.

Lemma num_le_refl a : is_nan a = false -> num_le a a = true.
Proof.
  unfold num_le, SFleb, SFcompare.
  destruct a as [[]|[]| |[] m e]; cbn; try congruence; order_cases.
Qed.

Lemma num_lt_le a b : num_lt a b = true -> num_le a b = true.
Proof.
  unfold num_lt, num_le, SFltb, SFleb.
  destruct (SFcompare a b) as [[]|]; congruence.
Qed.

Lemma num_le_total a b :
  is_nan a = false -> is_nan b = false -> num_lt a b = false -> num_le b a = true.
Proof.
  unfold num_lt, num_le, SFltb, SFleb, SFcompare.
  destruct a as [[]|[]| |[] m1 e1], b as [[]|[]| |[] m2 e2];
    cbn; try congruence; order_cases.
Qed.

Lemma num_le_trans a b c :
  num_le a b = true -> num_le b c = true -> num_le a c = true.
Proof.
  unfold num_le, SFleb, SFcompare.
  destruct a as [[]|[]| |[] m1 e1], b as [[]|[]| |[] m2 e2],
           c as [[]|[]| |[] m3 e3];
    cbn; try congruence; order_cases.
Qed.

(** ** Extrema *)

Lemma max_step_spec hi x :
  is_nan hi = false -> is_nan x = false ->
  (max_step hi x = hi \/ max_step hi x = x) /\
  num_le hi (max_step hi x) = true /\
  num_le x (max_step hi x) = true.
Proof.
  intros Hh Hx.
  assert (Hgen : (if num_lt hi x then x else hi) = hi \/
                 (if num_lt hi x then x else hi) = x).
  { destruct (num_lt hi x); auto. }
  assert (Hle : num_le hi (if num_lt hi x then x else hi) = true /\
                num_le x (if num_lt hi x then x else hi) = true).
  { destruct (num_lt hi x) eqn:Hlt.
    - split; [now apply num_lt_le|now apply num_le_refl].
    - split; [now apply num_le_refl|now apply num_le_total]. }
  destruct hi as [[]|[]| |[] m1 e1]; try discriminate;
    destruct x as [[]|[]| |[] m2 e2]; try discriminate;
    cbn [max_step]; try (split; [exact Hgen|exact Hle]).
  split; [now right|]. split; reflexivity.
Qed.

Lemma min_step_spec lo x :
  is_nan lo = false -> is_nan x = false ->
  (min_step lo x = lo \/ min_step lo x = x) /\
  num_le (min_step lo x) lo = true /\
  num_le (min_step lo x) x = true.
Proof.
  intros Hl Hx.
  assert (Hgen : (if num_lt x lo then x else lo) = lo \/
                 (if num_lt x lo then x else lo) = x).
  { destruct (num_lt x lo); auto. }
  assert (Hle : num_le (if num_lt x lo then x else lo) lo = true /\
                num_le (if num_lt x lo then x else lo) x = true).
  { destruct (num_lt x lo) eqn:Hlt.
    - split; [now apply num_lt_le|now apply num_le_refl].
    - split; [now apply num_le_refl|now apply num_le_total]. }
  destruct lo as [[]|[]| |[] m1 e1]; try discriminate;
    destruct x as [[]|[]| |[] m2 e2]; try discriminate;
    cbn [min_step]; try (split; [exact Hgen|exact Hle]).
  split; [now right|]. split; reflexivity.
Qed.

Lemma fold_max_spec l :
  forall hi, is_nan hi = false -> no_nan l ->
  let r := fold_left max_step l hi in
  is_nan r = false /\ num_le hi r = true /\
  Forall (fun x => num_le x r = true) l /\ (r = hi \/ In r l).
Proof.
  induction l as [|x l IH]; intros hi Hh Hl; cbn [fold_left].
  - repeat split; [exact Hh|now apply num_le_refl|constructor|now left].
  - inversion Hl as [|? ? Hx Hl']; subst.
    destruct (max_step_spec hi x Hh Hx) as [Hsel [Hhi Hxr]].
    assert (Hn : is_nan (max_step hi x) = false)
      by (destruct Hsel as [-> | ->]; assumption).
    destruct (IH (max_step hi x) Hn Hl') as [Hr [Hle [Hall Hin]]].
    split; [exact Hr|]. split; [now apply num_le_trans with (max_step hi x)|].
    split.
    + constructor; [now apply num_le_trans with (max_step hi x)|exact Hall].
    + destruct Hin as [Heq|Hin]; [|right; now right].
      rewrite Heq. destruct Hsel as [-> | ->]; [now left|right; now left].
Qed.

Lemma fold_min_spec l :
  forall lo, is_nan lo = false -> no_nan l ->
  let r := fold_left min_step l lo in
  is_nan r = false /\ num_le r lo = true /\
  Forall (fun x => num_le r x = true) l /\ (r = lo \/ In r l).
Proof.
  induction l as [|x l IH]; intros lo Hh Hl; cbn [fold_left].
  - repeat split; [exact Hh|now apply num_le_refl|constructor|now left].
  - inversion Hl as [|? ? Hx Hl']; subst.
    destruct (min_step_spec lo x Hh Hx) as [Hsel [Hlo Hxr]].
    assert (Hn : is_nan (min_step lo x) = false)
      by (destruct Hsel as [-> | ->]; assumption).
    destruct (IH (min_step lo x) Hn Hl') as [Hr [Hle [Hall Hin]]].
    split; [exact Hr|]. split; [now apply num_le_trans with (min_step lo x)|].
    split.
    + constructor; [now apply num_le_trans with (min_step lo x)|exact Hall].
    + destruct Hin as [Heq|Hin]; [|right; now right].
      rewrite Heq. destruct Hsel as [-> | ->]; [now left|right; now left].
Qed.

Lemma max_step_first x : is_nan x = false -> max_step NegInfinity x = x.
Proof.
  destruct x as [[]|[]| |[] m e]; intros H; try discriminate H; reflexivity.
Qed.

Lemma min_step_first x : is_nan x = false -> min_step Infinity x = x.
Proof.
  destruct x as [[]|[]| |[] m e]; intros H; try discriminate H; reflexivity.
Qed.

(** Without NaN, [Math.max] and [Math.min] of a non-empty list are items
    of the list that bound all the others. *)
Lemma Math_max_spec l :
  l <> [] -> no_nan l ->
  In (Math_max l) l /\ Forall (fun x => num_le x (Math_max l) = true) l.
Proof.
  destruct l as [|x l]; [congruence|]. intros _ Hl.
  inversion Hl as [|? ? Hx Hl']; subst.
  unfold Math_max. cbn [fold_left]. rewrite (max_step_first x Hx).
  destruct (fold_max_spec l x Hx Hl') as [_ [Hle [Hall Hin]]].
  split.
  - destruct Hin as [-> |Hin]; [now left|now right].
  - constructor; assumption.
Qed.

Lemma Math_min_spec l :
  l <> [] -> no_nan l ->
  In (Math_min l) l /\ Forall (fun x => num_le (Math_min l) x = true) l.
Proof.
  destruct l as [|x l]; [congruence|]. intros _ Hl.
  inversion Hl as [|? ? Hx Hl']; subst.
  unfold Math_min. cbn [fold_left]. rewrite (min_step_first x Hx).
  destruct (fold_min_spec l x Hx Hl') as [_ [Hle [Hall Hin]]].
  split.
  - destruct Hin as [-> |Hin]; [now left|now right].
  - constructor; assumption.
Qed.

(** One NaN among the values makes the extrema and the sum NaN. *)
Lemma fold_max_nan l : fold_left max_step l NaN = NaN.
Proof. induction l as [|x l IH]; [reflexivity|exact IH]. Qed.

Lemma fold_min_nan l : fold_left min_step l NaN = NaN.
Proof. induction l as [|x l IH]; [reflexivity|exact IH]. Qed.

Lemma Math_max_nan l : In NaN l -> Math_max l = NaN.
Proof.
  unfold Math_max. generalize NegInfinity.
  induction l as [|x l IH]; intros hi H; [contradiction|].
  cbn [fold_left]. destruct H as [->|H]; [|now apply IH].
  replace (max_step hi NaN) with NaN by (now destruct hi as [[]|[]| |[] m e]).
  apply fold_max_nan.
Qed.

Lemma Math_min_nan l : In NaN l -> Math_min l = NaN.
Proof.
  unfold Math_min. generalize Infinity.
  induction l as [|x l IH]; intros lo H; [contradiction|].
  cbn [fold_left]. destruct H as [->|H]; [|now apply IH].
  replace (min_step lo NaN) with NaN by (now destruct lo as [[]|[]| |[] m e]).
  apply fold_min_nan.
Qed.



(** ** Sets of values *)











(** ** Statistics *)

Lemma sum_tvl_numbers allYields :
  Forall (fun r => exists x, tvl r = JNum x) allYields ->
  forall sum,
    sum_tvl allYields (JNum sum) =
      Ok (JNum (fold_left (fun acc y => num_add acc (tvl_number y)) allYields sum)).
Proof.
  induction 1 as [|y rest [x Hx] Hrest IH]; intros sum; cbn [sum_tvl fold_left].
  - reflexivity.
  - assert (Hn : tvl_number y = x) by (unfold tvl_number; now rewrite Hx).
    rewrite Hx, Hn. cbn [js_add ToPrimitive bind ToNumber].
    apply IH.
Qed.









(** ** Sample runs *)

(** Conversions between text and Numbers on familiar values. *)
Example conversions_run :
  NumberToString (num_add (num_of_decimal false 1 (-1)) (num_of_decimal false 2 (-1)))
    = "0.30000000000000004" /\
  NumberToString (num_of_decimal false 1 21) = "1e+21" /\
  NumberToString (num_of_decimal true 525 (-2)) = "-5.25" /\
  StringToNumber " 2000000 " = num_of_Z 2000000 /\
  StringToNumber "0x10" = num_of_Z 16 /\
  StringToNumber "12px" = NaN /\
  ToNumber (JArr [JNum (num_of_Z 2000000)]) = Ok (num_of_Z 2000000) /\
  ToNumber (JObj [("toString", JNull)]) = Throw TypeError.
Proof. repeat split; vm_compute; reflexivity. Qed.

(** * Further properties *)

(** ** The retrying fetcher on any network *)

Section FetcherRuns.

Variable net : Net.
Variable url : string.

(** Every run with at least one attempt allowed stops at some attempt [k]:
    the attempts before it failed, each followed by its wait, and attempt
    [k] either succeeded or was the last one allowed. *)
Lemma fetchWithRetry_stops (n : Z) :
  1 <= n ->
  exists k,
    0 <= k < n /\
    all_fail net url k /\
    fetchWithRetry net url n =
      ((failed_attempts url (Z.to_nat k) 0 ++ [EFetch url])%list,
       attempt (net url k)) /\
    ((exists v, attempt (net url k) = Ok v) \/ k = n - 1).
Proof.
  intros Hn.
  assert (Hgen : forall d k, d = Z.to_nat (n - 1 - k) -> 0 <= k < n ->
                   all_fail net url k ->
                   exists k', 0 <= k' < n /\ all_fail net url k' /\
                     fetchWithRetry net url n =
                       ((failed_attempts url (Z.to_nat k') 0 ++ [EFetch url])%list,
                        attempt (net url k')) /\
                     ((exists v, attempt (net url k') = Ok v) \/ k' = n - 1)).
  { induction d as [|d IH]; intros k Hd Hk Hfail.
    - assert (k = n - 1) by lia. subst k.
      exists (n - 1). split; [lia|]. split; [exact Hfail|].
      destruct (fetchWithRetry_at net url n (n - 1) ltac:(lia) Hfail) as [Hok Hlast].
      destruct (attempt (net url (n - 1))) as [v|e] eqn:Hat.
      + split; [now apply Hok|]. left. now exists v.
      + split; [now apply Hlast|]. now right.
    - destruct (fetchWithRetry_at net url n k Hk Hfail) as [Hok _].
      destruct (attempt (net url k)) as [v|e] eqn:Hat.
      + exists k. split; [exact Hk|]. split; [exact Hfail|].
        rewrite Hat. split; [now apply Hok|]. left. now exists v.
      + apply (IH (k + 1)); try lia.
        intros j Hj. destruct (Z.eq_dec j k) as [->|Hne]; [now exists e|].
        apply Hfail. lia. }
  apply (Hgen (Z.to_nat (n - 1)) 0); try lia.
  intros j Hj. lia.
Qed.

Lemma attempt_Ok o v :
  attempt o = Ok v ->
  exists status, o = Responds status (Some v) /\ 200 <= status <= 299.
Proof.
  destruct o as [|status [body|]]; cbn [attempt]; try discriminate.
  - destruct (response_ok status) eqn:Hok; [|discriminate].
    intros H. inversion H; subst. exists status. split; [reflexivity|].
    unfold response_ok in Hok. apply andb_true_iff in Hok. lia.
  - destruct (response_ok status); discriminate.
Qed.

Lemma attempt_Throw o e : attempt o = Throw e -> raised_by o e.
Proof.
  unfold raised_by. destruct o as [|status [body|]]; cbn [attempt].
  - intros H. inversion H. now left.
  - destruct (response_ok status) eqn:Hok; [discriminate|].
    intros H. inversion H. right. right. exists status, (Some body).
    repeat split. unfold response_ok in Hok. apply andb_false_iff in Hok.
    destruct Hok as [Hok|Hok]; lia.
  - destruct (response_ok status) eqn:Hok; intros H; inversion H.
    + right. left. exists status. repeat split;
        unfold response_ok in Hok; apply andb_true_iff in Hok; lia.
    + right. right. exists status, None.
      repeat split. unfold response_ok in Hok. apply andb_false_iff in Hok.
      destruct Hok as [Hok|Hok]; lia.
Qed.

(** X1.  What a call with [n >= 1] attempts returns is decided by the
    first attempt that succeeds.  A value returned is the parsed body of
    a response whose status is between 200 and 299, all earlier attempts
    having failed; an exception raised means that all [n] attempts failed
    and is the one of the last attempt, rethrown as it is: the
    [TypeError] of a rejected request, the [SyntaxError] of an unreadable
    body, or the error that carries a status outside 200-299. *)
Theorem fetchWithRetry_outcome (n : Z) :
  1 <= n ->
  (forall v, snd (fetchWithRetry net url n) = Ok v ->
     exists k status,
       0 <= k < n /\ all_fail net url k /\
       net url k = Responds status (Some v) /\ 200 <= status <= 299) /\
  (forall e, snd (fetchWithRetry net url n) = Throw e ->
     all_fail net url n /\
     attempt (net url (n - 1)) = Throw e /\
     raised_by (net url (n - 1)) e).
Proof.
  intros Hn.
  destruct (fetchWithRetry_stops n Hn) as [k [Hk [Hfail [Hrun Hend]]]].
  rewrite Hrun. cbn [snd]. split.
  - intros v Hv. destruct (attempt_Ok _ _ Hv) as [status [Hresp Hst]].
    exists k, status. auto.
  - intros e He. destruct Hend as [[v Hv]|Hlast]; [congruence|].
    subst k. split; [|split; [exact He|now apply attempt_Throw]].
    intros j Hj. destruct (Z.eq_dec j (n - 1)) as [->|Hne]; [now exists e|].
    apply Hfail. lia.
Qed.

Lemma total_wait_failed_attempts k i :
  0 <= i ->
  total_wait (failed_attempts url k i ++ [EFetch url]) =
    1000 * 2 ^ i * (2 ^ Z.of_nat k - 1).
Proof.
  unfold total_wait. rewrite sleeps_failed_attempts.
  revert i. induction k as [|k IH]; intros i Hi; cbn [backoff fold_right].
  - cbn. lia.
  - rewrite IH by lia.
    replace (Z.of_nat (S k)) with (Z.succ (Z.of_nat k)) by lia.
    rewrite Z.pow_succ_r by lia.
    replace (i + 1) with (Z.succ i) by lia.
    rewrite Z.pow_succ_r by lia. ring.
Qed.

Lemma only_requests_failed_attempts k i :
  only_requests url (failed_attempts url k i ++ [EFetch url]).
Proof.
  unfold only_requests. revert i.
  induction k as [|k IH]; intros i; cbn [failed_attempts app].
  - constructor; [now left|constructor].
  - constructor; [now left|]. constructor; [right; eauto|apply IH].
Qed.

(** X2.  Whatever the network does, a call with [n >= 1] attempts sends
    between 1 and [n] requests, all to the URL given; it waits only
    between two requests, [1000 * 2^i] ms after the [i]-th one, so one
    wait fewer than requests and at most [1000 * (2^(n-1) - 1)] ms in
    all; and its last action is a request, not a wait. *)
Theorem fetchWithRetry_effort (n : Z) :
  1 <= n ->
  let t := fst (fetchWithRetry net url n) in
  (1 <= fetch_count t <= Z.to_nat n)%nat /\
  only_requests url t /\
  sleeps t = backoff (fetch_count t - 1) 0 /\
  0 <= total_wait t <= 1000 * (2 ^ (n - 1) - 1) /\
  last t (ESleep 0) = EFetch url.
Proof.
  intros Hn.
  destruct (fetchWithRetry_stops n Hn) as [k [Hk [_ [Hrun _]]]].
  rewrite Hrun. cbn [fst].
  rewrite fetch_count_failed_attempts.
  split; [lia|]. split; [apply only_requests_failed_attempts|]. split.
  - rewrite sleeps_failed_attempts. f_equal. lia.
  - split.
    + rewrite total_wait_failed_attempts by lia.
      rewrite Z2Nat.id by lia. rewrite Z.pow_0_r.
      assert (1 <= 2 ^ k) by (apply Z.pow_le_mono_r with (b := 0) (c := k); lia).
      assert (2 ^ k <= 2 ^ (n - 1)) by (apply Z.pow_le_mono_r; lia).
      lia.
    + apply last_last.
Qed.

End FetcherRuns.

(** ** The DeFiLlama adapter on a delivered body *)

Lemma filterM_total {A : Type} (f : A -> Result bool) (l : list A) :
  Forall (fun x => exists b, f x = Ok b) l ->
  filterM f l = Ok (filter (holds f) l).
Proof.
  induction 1 as [|x l [b Hb] Hl IH]; [reflexivity|].
  cbn [filterM filter]. unfold holds at 1. rewrite Hb, IH. cbn [bind].
  now destruct b.
Qed.

Lemma filterM_throws {A : Type} (f : A -> Result bool) (l : list A) x e :
  In x l -> f x = Throw e -> exists e', filterM f l = Throw e'.
Proof.
  induction l as [|y l IH]; intros Hin Hx; [contradiction|].
  cbn [filterM]. destruct Hin as [->|Hin].
  - rewrite Hx. cbn [bind]. eauto.
  - destruct (f y) as [b|e0]; cbn [bind]; [|eauto].
    destruct (IH Hin Hx) as [e' He']. rewrite He'. cbn [bind]. eauto.
Qed.

Lemma mapM_total {A B : Type} (f : nat -> A -> Result B) (l : list A) :
  Forall (fun x => forall i, exists y, f i x = Ok y) l ->
  forall i, exists l', mapM f i l = Ok l'.
Proof.
  induction 1 as [|x l Hx Hl IH]; intros i; cbn [mapM]; [eauto|].
  destruct (Hx i) as [y Hy]. destruct (IH (S i)) as [l' Hl'].
  rewrite Hy, Hl'. cbn [bind]. eauto.
Qed.

Lemma mapM_throws {A B : Type} (f : nat -> A -> Result B) (l : list A) x :
  In x l -> (forall i, exists e, f i x = Throw e) ->
  forall i, exists e', mapM f i l = Throw e'.
Proof.
  induction l as [|y l IH]; intros Hin Hx i; [contradiction|].
  cbn [mapM]. destruct Hin as [->|Hin].
  - destruct (Hx i) as [e He]. rewrite He. cbn [bind]. eauto.
  - destruct (f i y) as [b|e0]; cbn [bind]; [|eauto].
    destruct (IH Hin Hx (S i)) as [e' He']. rewrite He'. cbn [bind]. eauto.
Qed.

(** Once the body that the fetcher returns is known, the adapter returns
    the records mapped from it, or none when selecting or mapping raises. *)
Lemma llama_yields_run net now k data :
  0 <= k < default_retries ->
  all_fail net llama_url k ->
  attempt (net llama_url k) = Ok data ->
  llama_yields net now =
    match (let* selected := llama_select data in
           mapM (llama_record now) 0 selected) with
    | Ok recs => recs
    | Throw _ => []
    end /\
  snd (fetchDefiLlamaYields net now) = Ok (llama_yields net now).
Proof.
  intros Hk Hfail Hat.
  destruct (fetchWithRetry_at net llama_url default_retries k Hk Hfail) as [Hok _].
  specialize (Hok data Hat).
  unfold llama_yields, fetchDefiLlamaYields, llama_body. rewrite Hok.
  cbn [eff_bind pure try_catch].
  destruct (let* selected := llama_select data in
            mapM (llama_record now) 0 selected) as [recs|e];
    cbn [snd]; auto.
Qed.

Lemma plain_pool_keep pool : plain_pool pool -> exists b, llama_keep pool = Ok b.
Proof.
  intros [fields [project [symbol [ch [t [a [-> [_ [_ [_ [Ht Ha]]]]]]]]]]].
  unfold llama_keep, get. rewrite Ht, Ha.
  destruct (own "stablecoin" fields) as [flag|]; cbn [bind].
  - destruct (is_true flag); [|eauto].
    cbn [js_gt ToNumber ToPrimitive bind].
    destruct (num_lt (num_of_Z 1000000) t); [|eauto].
    cbn [js_lt ToNumber ToPrimitive bind]. eauto.
  - cbn [is_true]. eauto.
Qed.

Lemma plain_pool_record now pool i :
  plain_pool pool -> exists r, llama_record now i pool = Ok r.
Proof.
  intros [fields [project [symbol [ch [t [a [-> [Hp [Hs [Hc [Ht Ha]]]]]]]]]]].
  unfold llama_record, get. rewrite Hp, Hs, Hc, Ht, Ha. cbn [bind js_toFixed].
  destruct (own "apyBase" fields), (own "apyReward" fields);
    cbn [bind categorizeProtocol js_toLowerCase ToString]; eauto.
Qed.

(** X3.  When the body delivered is of the documented shape, a [data]
    array of pools whose [project], [symbol] and [chain] are strings and
    whose [tvlUsd] and [apy] are Numbers, nothing is lost: the adapter
    returns one record for each of the first 30 pools that pass the
    filter, in their order, so their number is the smaller of 30 and the
    number of passing pools. *)
Theorem llama_yields_complete net now k data pools :
  0 <= k < default_retries ->
  all_fail net llama_url k ->
  attempt (net llama_url k) = Ok data ->
  get data "data" = Ok (JArr pools) ->
  Forall plain_pool pools ->
  snd (fetchDefiLlamaYields net now) = Ok (llama_yields net now) /\
  List.length (llama_yields net now) =
    Nat.min 30 (List.length (filter (holds llama_keep) pools)) /\
  Forall2 from_pool (firstn 30 (filter (holds llama_keep) pools))
    (llama_yields net now).
Proof.
  intros Hk Hfail Hat Hdata Hplain.
  destruct (llama_yields_run net now k data Hk Hfail Hat) as [Hrun Hsnd].
  split; [exact Hsnd|].
  assert (Hsel : llama_select data =
                   Ok (firstn 30 (filter (holds llama_keep) pools))).
  { unfold llama_select. rewrite Hdata. cbn [bind js_filter].
    rewrite filterM_total; [reflexivity|].
    eapply Forall_impl; [|exact Hplain]. intros p. apply plain_pool_keep. }
  rewrite Hsel in Hrun. cbn [bind] in Hrun.
  destruct (mapM_total (llama_record now)
              (firstn 30 (filter (holds llama_keep) pools))) with (i := O)
    as [recs Hmap].
  { apply Forall_firstn. apply Forall_forall. intros p Hp i.
    apply plain_pool_record. apply filter_In in Hp.
    rewrite Forall_forall in Hplain. now apply Hplain. }
  rewrite Hmap in Hrun. rewrite Hrun.
  destruct (llama_selected_records now data _ recs Hsel Hmap) as [_ Hfrom].
  split; [|exact Hfrom].
  rewrite <- (Forall2_length Hfrom). apply length_firstn.
Qed.

(** X4.  The adapter is all or nothing.  If the value under [data] is not
    an array, or the filter raises on some element of the array (on a
    [null] element, for one), or the mapping raises on one of the first
    30 passing pools (on a [project] that is not a string, for one), no
    record at all is returned, whatever the other pools are. *)
Theorem llama_yields_all_or_nothing net now k data :
  0 <= k < default_retries ->
  all_fail net llama_url k ->
  attempt (net llama_url k) = Ok data ->
  ((forall pools, get data "data" <> Ok (JArr pools)) ->
   llama_yields net now = []) /\
  (forall pools pool e,
     get data "data" = Ok (JArr pools) ->
     In pool pools -> llama_keep pool = Throw e ->
     llama_yields net now = []) /\
  (forall pools, get data "data" = Ok (JArr pools) -> In JNull pools ->
     llama_yields net now = []) /\
  (forall pools pool,
     get data "data" = Ok (JArr pools) ->
     In pool (firstn 30 (filter (holds llama_keep) pools)) ->
     (forall i, exists e, llama_record now i pool = Throw e) ->
     llama_yields net now = []) /\
  (forall pools pool project,
     get data "data" = Ok (JArr pools) ->
     In pool (firstn 30 (filter (holds llama_keep) pools)) ->
     get pool "project" = Ok project ->
     (forall name, project <> JStr name) ->
     llama_yields net now = []).
Proof.
  intros Hk Hfail Hat.
  destruct (llama_yields_run net now k data Hk Hfail Hat) as [Hrun _].
  assert (Hfilter : forall pools pool e,
             get data "data" = Ok (JArr pools) ->
             In pool pools -> llama_keep pool = Throw e ->
             llama_yields net now = []).
  { intros pools pool e Hdata Hin Hthrow. rewrite Hrun.
    unfold llama_select. rewrite Hdata. cbn [bind js_filter].
    destruct (filterM_throws llama_keep pools pool e Hin Hthrow) as [e' ->].
    reflexivity. }
  assert (Hmapping : forall pools pool,
             get data "data" = Ok (JArr pools) ->
             In pool (firstn 30 (filter (holds llama_keep) pools)) ->
             (forall i, exists e, llama_record now i pool = Throw e) ->
             llama_yields net now = []).
  { intros pools pool Hdata Hin Hthrow. rewrite Hrun.
    destruct (llama_select data) as [selected|e] eqn:Hsel; [|reflexivity].
    cbn [bind].
    destruct (llama_select_Ok data selected Hsel) as [pools' [Hdata' Hs]].
    rewrite Hdata in Hdata'. inversion Hdata'; subst pools'. subst selected.
    destruct (mapM_throws (llama_record now) _ pool Hin Hthrow O) as [e' ->].
    reflexivity. }
  split; [|split; [exact Hfilter|split; [|split; [exact Hmapping|]]]].
  - intros Hnot. rewrite Hrun.
    destruct (llama_select data) as [selected|e] eqn:Hsel; [|reflexivity].
    destruct (llama_select_Ok data selected Hsel) as [pools [Hdata _]].
    now destruct (Hnot pools).
  - intros pools Hdata Hin.
    now apply (Hfilter pools JNull TypeError Hdata Hin).
  - intros pools pool project Hdata Hin Hproj Hnot.
    apply (Hmapping pools pool Hdata Hin). intros i.
    unfold llama_record. rewrite Hproj. cbn [bind].
    destruct (get pool "symbol"); cbn [bind]; [|eauto].
    destruct (get pool "chain"); cbn [bind]; [|eauto].
    destruct (get pool "apy") as [apy0|]; cbn [bind]; [|eauto].
    destruct (js_toFixed apy0 2); cbn [bind]; [|eauto].
    destruct (get pool "tvlUsd"); cbn [bind]; [|eauto].
    destruct (get pool "apyBase"); cbn [bind]; [|eauto].
    destruct (get pool "apyReward"); cbn [bind]; [|eauto].
    destruct project; cbn [categorizeProtocol js_toLowerCase bind]; eauto.
    now destruct (Hnot s).
Qed.

(** ** The records of the DeFiLlama adapter *)

Lemma mapM_nth {A B : Type} (f : nat -> A -> Result B) (l : list A) :
  forall i l', mapM f i l = Ok l' ->
  forall j y, nth_error l' j = Some y ->
  exists x, nth_error l j = Some x /\ f (i + j)%nat x = Ok y.
Proof.
  induction l as [|x l IH]; intros i l' H j y Hj; cbn [mapM] in H.
  - inversion H; subst. destruct j; discriminate.
  - destruct (f i x) as [y0|e] eqn:Hy; cbn [bind] in H; [|discriminate].
    destruct (mapM f (S i) l) as [r|e] eqn:Hr; cbn [bind] in H; [|discriminate].
    inversion H; subst. destruct j as [|j]; cbn [nth_error] in *.
    + inversion Hj; subst. exists x. rewrite Nat.add_0_r. auto.
    + destruct (IH (S i) r Hr j y Hj) as [x' [Hx' Hfx]].
      exists x'. split; [exact Hx'|].
      now replace (i + S j)%nat with (S i + j)%nat by lia.
Qed.

Lemma categorize_loop_labels lowerName :
  categorize_loop categories lowerName = "Lending" \/
  categorize_loop categories lowerName = "Dex" \/
  categorize_loop categories lowerName = "Other".
Proof.
  unfold categories, categorize_loop.
  repeat match goal with
         | |- context [if ?b then _ else _] => destruct b
         end; cbn; auto.
Qed.

Lemma or_zero_kept v : kept_or_zero (or_zero v).
Proof.
  unfold kept_or_zero, or_zero. destruct (truthy v) eqn:Hv; auto.
Qed.

Lemma llama_record_fields now i pool r :
  llama_record now i pool = Ok r -> llama_fields r /\ updatedAt r = now i.
Proof.
  unfold llama_record, js_toFixed.
  destruct (get pool "project") as [project|] eqn:Hp; cbn [bind]; [|discriminate].
  destruct (get pool "symbol") as [symbol|] eqn:Hs; cbn [bind]; [|discriminate].
  destruct (get pool "chain") as [ch|] eqn:Hc; cbn [bind]; [|discriminate].
  destruct (get pool "apy") as [a|] eqn:Ha; cbn [bind]; [|discriminate].
  destruct a as [| | |a| | |]; cbn [bind]; try discriminate.
  destruct (get pool "tvlUsd") as [v|] eqn:Hv; cbn [bind]; [|discriminate].
  destruct (get pool "apyBase") as [base|] eqn:Hb; cbn [bind]; [|discriminate].
  destruct (get pool "apyReward") as [reward|] eqn:Hr; cbn [bind]; [|discriminate].
  destruct (categorizeProtocol project) as [category|] eqn:Hcat; cbn [bind]; [|discriminate].
  destruct (ToString symbol) as [st|] eqn:Hst; cbn [bind]; [|discriminate].
  destruct (ToString ch) as [ct|] eqn:Hct; cbn [bind]; [|discriminate].
  intros H. inversion H; subst r. unfold llama_fields. cbn.
  split; [|reflexivity].
  split; [reflexivity|]. split.
  { unfold categorizeProtocol in Hcat.
    destruct (js_toLowerCase project) as [lowerName|]; cbn [bind] in Hcat;
      [|discriminate].
    inversion Hcat. apply categorize_loop_labels. }
  split.
  { destruct project; try discriminate. eauto. }
  split; [eexists; split; [reflexivity|apply or_zero_kept]|].
  split; [eexists; split; [reflexivity|apply or_zero_kept]|].
  split; [reflexivity|]. split; [reflexivity|].
  exists st, ct. auto.
Qed.

Lemma llama_record_upstream now i pool r :
  llama_record now i pool = Ok r ->
  upstream_or_zero pool "apyBase" (apyBase r) /\
  upstream_or_zero pool "apyReward" (apyReward r).
Proof.
  unfold llama_record, js_toFixed, upstream_or_zero.
  destruct (get pool "project") as [project|]; cbn [bind]; [|discriminate].
  destruct (get pool "symbol") as [symbol|]; cbn [bind]; [|discriminate].
  destruct (get pool "chain") as [ch|]; cbn [bind]; [|discriminate].
  destruct (get pool "apy") as [a|]; cbn [bind]; [|discriminate].
  destruct a as [| | |a| | |]; cbn [bind]; try discriminate.
  destruct (get pool "tvlUsd") as [v|]; cbn [bind]; [|discriminate].
  destruct (get pool "apyBase") as [base|]; cbn [bind]; [|discriminate].
  destruct (get pool "apyReward") as [reward|]; cbn [bind]; [|discriminate].
  destruct (categorizeProtocol project) as [category|]; cbn [bind]; [|discriminate].
  destruct (ToString symbol) as [st|]; cbn [bind]; [|discriminate].
  destruct (ToString ch) as [ct|]; cbn [bind]; [|discriminate].
  intros H. inversion H; subst r. cbn [apyBase apyReward]. unfold or_zero.
  split; [exists base|exists reward]; (split; [reflexivity|]).
  - destruct (truthy base); auto.
  - destruct (truthy reward); auto.
Qed.

(** X5.  Every record of the adapter, whatever the upstream sends, has
    source ["defillama"], a type among Lending, Dex and Other, a string as
    protocol, no maturity and no description, and a URL made of the fixed
    prefix and the texts of its symbol and chain.  The record at position
    [j] is built from the [j]-th of the first 30 upstream pools that pass
    the filter: its [apyBase] and [apyReward] are that pool's values when
    they are truthy and 0 otherwise (so never [null], [undefined], NaN or
    an empty string), and its time stamp is the clock reading of its
    position. *)
Theorem llama_yields_fields net now :
  Forall llama_fields (llama_yields net now) /\
  (forall j r, nth_error (llama_yields net now) j = Some r ->
     updatedAt r = now j /\
     exists k data pools pool,
       0 <= k < default_retries /\
       attempt (net llama_url k) = Ok data /\
       get data "data" = Ok (JArr pools) /\
       nth_error (firstn 30 (filter (holds llama_keep) pools)) j = Some pool /\
       from_pool pool r /\
       upstream_or_zero pool "apyBase" (apyBase r) /\
       upstream_or_zero pool "apyReward" (apyReward r)).
Proof.
  unfold llama_yields.
  destruct (fetchDefiLlamaYields_cases net now) as [t [recs [Hrun Hcases]]].
  rewrite Hrun. cbn [snd].
  destruct Hcases as [->|[k [data [selected [Hk [Hat [Hsel Hmap]]]]]]].
  - split; [constructor|]. intros [|j] r H; discriminate H.
  - split.
    + apply Forall_forall. intros r Hin.
      destruct (In_nth_error _ _ Hin) as [j Hj].
      destruct (mapM_nth _ _ _ _ Hmap j r Hj) as [pool [_ Hrec]].
      now destruct (llama_record_fields now _ pool r Hrec).
    + intros j r Hj.
      destruct (mapM_nth _ _ _ _ Hmap j r Hj) as [pool [Hpool Hrec]].
      split; [now destruct (llama_record_fields now _ pool r Hrec)|].
      destruct (llama_select_Ok data selected Hsel) as [pools [Hdata Hs]].
      exists k, data, pools, pool. rewrite <- Hs.
      destruct (llama_record_upstream now _ pool r Hrec) as [Hb Hw].
      split; [exact Hk|]. split; [exact Hat|]. split; [exact Hdata|].
      split; [exact Hpool|].
      split; [now apply llama_record_from_pool with now (0 + j)%nat|].
      split; assumption.
Qed.

(** ** Rounding near the ceiling of the filter *)

Lemma digits2_pos_above m : Zpos m < 2 ^ Zpos (digits2_pos m).
Proof.
  induction m as [m IH|m IH|]; cbn [digits2_pos].
  - rewrite Pos2Z.inj_succ, Z.pow_succ_r by lia. lia.
  - rewrite Pos2Z.inj_succ, Z.pow_succ_r by lia. lia.
  - reflexivity.
Qed.

(** The mantissa of a binary64 value has at most 53 bits. *)
Lemma valid_mantissa m e : bounded prec emax m e = true -> Zpos m < 2 ^ 53.
Proof.
  unfold bounded, canonical_mantissa, fexp, emin, prec, emax.
  intros H. apply andb_true_iff in H. destruct H as [H _].
  apply Z.eqb_eq in H.
  pose proof (digits2_pos_above m) as Hd.
  assert (Hle : Zpos (digits2_pos m) <= 53) by lia.
  apply Z.lt_le_trans with (2 ^ Zpos (digits2_pos m)); [exact Hd|].
  apply Z.pow_le_mono_r; lia.
Qed.

(** Comparison of two positive finite values, read on their fields. *)
Lemma below_finite m e M E :
  num_lt (S754_finite false m e) (S754_finite false M E) = true ->
  e < E \/ (e = E /\ Zpos m < Zpos M).
Proof.
  unfold num_lt, SFltb, SFcompare. intros Hlt.
  destruct (Z.compare_spec e E) as [Heq|Hl|Hg].
  - right. split; [exact Heq|].
    fold (Pos.compare m M) in Hlt.
    destruct (Pos.compare_spec m M) as [?|?|?]; [discriminate Hlt|lia|discriminate Hlt].
  - now left.
  - discriminate Hlt.
Qed.
(** A positive binary64 value below 200 counts at most 20000 hundredths. *)
Lemma below_200_hundredths m e :
  bounded prec emax m e = true ->
  num_lt (S754_finite false m e) (num_of_Z 200) = true ->
  at_least_1e21 m e = false /\ (round_half_up m e 2 <= 20000)%N.
Proof.
  intros Hvalid Hlt. pose proof (valid_mantissa m e Hvalid) as Hm.
  clear Hvalid.
  change (num_of_Z 200) with (S754_finite false 7036874417766400 (-45)) in Hlt.
  apply below_finite in Hlt. rename Hlt into He.
  assert (Hneg : e < 0) by lia.
  assert (Hd : 2 ^ 45 <= 2 ^ (- e)) by (apply Z.pow_le_mono_r; lia).
  assert (H53 : 2 ^ 53 = 9007199254740992) by reflexivity.
  assert (H45 : 2 ^ 45 = 35184372088832) by reflexivity.
  assert (H46 : 2 ^ 46 = 70368744177664) by reflexivity.
  rewrite H53 in Hm. rewrite H45 in Hd.
  assert (Hbound : 200 * Zpos m < 40001 * 2 ^ (- e)).
  { destruct He as [Hl|[-> Hl]].
    - assert (2 ^ 46 <= 2 ^ (- e)) by (apply Z.pow_le_mono_r; lia).
      rewrite H46 in H. lia.
    - change (- -45) with 45. rewrite H45. lia. }
  split.
  - unfold at_least_1e21. destruct (Z.ltb_spec e 0) as [_|?]; [|lia].
    apply Z.leb_gt.
    assert (H21 : 10 ^ 21 = 1000000000000000000000) by reflexivity.
    rewrite H21. lia.
  - unfold round_half_up. destruct (Z.ltb_spec e 0) as [_|?]; [|lia].
    replace (2 ^ (1 - e)) with (2 * 2 ^ (- e))
      by (replace (1 - e) with (Z.succ (- e)) by lia; rewrite Z.pow_succ_r; lia).
    change (10 ^ 2) with 100.
    assert (Hq : (2 * (Zpos m * 100) + 2 ^ (- e)) / (2 * 2 ^ (- e)) < 20001).
    { apply Z.div_lt_upper_bound; lia. }
    assert (Hq0 : 0 <= (2 * (Zpos m * 100) + 2 ^ (- e)) / (2 * 2 ^ (- e))).
    { apply Z.div_pos; lia. }
    lia.
Qed.

(** X6.  A record built from a pool whose [apy] is a binary64 Number
    from 0 up to, but not including, 200 has as [apy] the Number nearest
    to a count of at most 20000 hundredths, and the count 20000 is
    reached: 199.996 passes the filter and is written as 200.  So the
    strict bound of the filter is not strict on the records. *)
Theorem llama_apy_at_most_200 pool r a :
  from_pool pool r ->
  get pool "apy" = Ok (JNum a) ->
  valid_binary prec emax a = true ->
  nonneg a ->
  num_lt a (num_of_Z 200) = true ->
  (exists n, (n <= 20000)%N /\ apy r = num_of_decimal false n (-2)) /\
  (exists b,
     valid_binary prec emax b = true /\ nonneg b /\
     num_lt b (num_of_Z 200) = true /\
     parseFloat (toFixed b 2) = num_of_decimal false 20000 (-2) /\
     parseFloat (toFixed b 2) = num_of_Z 200).
Proof.
  intros [_ [_ [_ [_ [[a' [Ha' Hr]] _]]]]] Ha Hvalid Hpos Hlt.
  rewrite Ha in Ha'. inversion Ha'; subst a'. split.
  - rewrite Hr. destruct (nonneg_cases a Hpos) as [[s ->]|[->|[m [e ->]]]].
    + exists 0%N. split; [lia|reflexivity].
    + discriminate Hlt.
    + cbn [valid_binary] in Hvalid.
      destruct (below_200_hundredths m e Hvalid Hlt) as [Hsmall Hn].
      exists (round_half_up m e 2). split; [exact Hn|].
      cbn [toFixed]. now rewrite Hsmall.
  - exists (num_of_decimal false 199996 (-3)).
    repeat split; vm_compute; reflexivity.
Qed.

(** ** The fetcher and the DeFiLlama adapter on sample networks *)

Lemma fetchWithRetry_outcome_witness :
  1 <= 3 /\
  (forall v, snd (fetchWithRetry net_retry llama_url 3) = Ok v ->
     exists k status,
       0 <= k < 3 /\ all_fail net_retry llama_url k /\
       net_retry llama_url k = Responds status (Some v) /\
       200 <= status <= 299).
Proof.
  split; [lia|].
  exact (proj1 (fetchWithRetry_outcome net_retry llama_url 3 ltac:(lia))).
Defined.

Lemma fetchWithRetry_effort_witness :
  1 <= 3 /\
  total_wait (fst (fetchWithRetry net_down llama_url 3)) <= 1000 * (2 ^ (3 - 1) - 1).
Proof.
  split; [lia|].
  exact (proj2 (proj1 (proj2 (proj2 (proj2
           (fetchWithRetry_effort net_down llama_url 3 ltac:(lia))))))).
Defined.

Lemma net_retry_first_failure : all_fail net_retry llama_url 1.
Proof.
  intros i Hi. assert (i = 0) as -> by lia.
  exists (HttpError 503). reflexivity.
Qed.

Lemma pool_of_plain project flag tvlUsd a : plain_pool (pool_of project flag tvlUsd a).
Proof.
  exists [ ("project", JStr project); ("symbol", JStr "USDC");
           ("chain", JStr "Ethereum"); ("stablecoin", JBool flag);
           ("tvlUsd", JNum tvlUsd); ("apy", JNum a) ],
    project, "USDC", "Ethereum", tvlUsd, a.
  repeat split.
Qed.

(** ** One chain of the Pendle adapter on a delivered body *)

Lemma logs_failed_attempts url n i tail :
  (logs (failed_attempts url n i) ++ logs tail)%list = logs tail.
Proof.
  revert i. induction n as [|n IH]; intros i; [reflexivity|].
  cbn [failed_attempts]. unfold logs at 1. cbn [flat_map app]. apply IH.
Qed.

(** Once the body that the fetcher returns for a chain is known, the turn
    of the loop for that chain is decided by the body alone. *)
Lemma pendle_chain_run net now c k data :
  0 <= k < default_retries ->
  all_fail net (pendle_url (fst c)) k ->
  attempt (net (pendle_url (fst c)) k) = Ok data ->
  exists t,
    fetchWithRetry net (pendle_url (fst c)) default_retries = (t, Ok data) /\
    logs t = [] /\
    pendle_chain net now c [] =
      match pendle_select data with
      | Throw error => ((t ++ [ELog (chain_label c) error])%list, [])
      | Ok None => (t, [])
      | Ok (Some selected) =>
          match push_each (pendle_record (snd c) now) selected [] with
          | (ys, Ok _) => (t, ys)
          | (ys, Throw error) => ((t ++ [ELog (chain_label c) error])%list, ys)
          end
      end.
Proof.
  intros Hk Hfail Hat. destruct c as [id name]. cbn [fst snd] in *.
  destruct (fetchWithRetry_at net (pendle_url id) default_retries k Hk Hfail)
    as [Hok _].
  specialize (Hok data Hat). eexists. split; [exact Hok|]. split.
  - unfold logs. rewrite flat_map_app. apply logs_failed_attempts.
  - unfold pendle_chain, chain_label. rewrite Hok. cbn [snd]. reflexivity.
Qed.

Lemma logs_app t1 t2 : logs (t1 ++ t2) = (logs t1 ++ logs t2)%list.
Proof. apply flat_map_app. Qed.

Lemma plain_market_keep market :
  plain_market market -> exists b, pendle_keep market = Ok b.
Proof.
  intros [fields [ptf [ps [af [symbol [liq [implied
            [-> [_ [_ [Ha [Hs [Hl _]]]]]]]]]]]]].
  unfold pendle_keep, get. rewrite Ha. cbn [bind]. rewrite Hs. cbn [bind js_includes].
  destruct (includes symbol "USD"); [|eauto].
  rewrite Hl. cbn [bind js_gt ToNumber ToPrimitive]. eauto.
Qed.

Lemma plain_market_record name now j market :
  plain_market market -> exists r, pendle_record name now j market = Ok r.
Proof.
  intros [fields [ptf [ps [af [symbol [liq [implied
            [-> [Hpt [Hps [Ha [Hs [Hl Hi]]]]]]]]]]]]].
  unfold pendle_record, get. rewrite Hpt. cbn [bind]. rewrite Hps.
  cbn [bind ToString]. rewrite Ha. cbn [bind]. rewrite Hs. cbn [bind].
  rewrite Hi. cbn [bind js_mul ToNumber ToPrimitive]. rewrite Hl. cbn [bind].
  destruct (own "expiry" fields); cbn [bind]; eauto.
Qed.

(** The clock reading is the last thing a record needs: whether building
    it raises, and what, does not depend on the position. *)
Lemma pendle_record_throws name now j j' market e :
  pendle_record name now j market = Throw e ->
  pendle_record name now j' market = Throw e.
Proof.
  unfold pendle_record.
  destruct (get market "pt") as [pt|]; cbn [bind]; [|auto].
  destruct (get pt "symbol") as [ps|]; cbn [bind]; [|auto].
  destruct (ToString ps) as [ptext|]; cbn [bind]; [|auto].
  destruct (get market "underlyingAsset") as [asset|]; cbn [bind]; [|auto].
  destruct (get asset "symbol") as [symbol|]; cbn [bind]; [|auto].
  destruct (get market "impliedApy") as [implied|]; cbn [bind]; [|auto].
  destruct (js_mul implied (num_of_Z 100)) as [percent|]; cbn [bind]; [|auto].
  destruct (get market "totalActiveLiquidity") as [liq|]; cbn [bind]; [|auto].
  destruct (get market "expiry") as [expiry|]; cbn [bind]; [|auto].
  discriminate.
Qed.

(** Pushing goes through the markets that can be turned into records, and
    stops at the first one that cannot, keeping what was pushed. *)
Lemma push_each_good f selected :
  Forall (fun m => forall j, exists y, f j m = Ok y) selected ->
  forall allYields,
  exists ys,
    push_each f selected allYields = ((allYields ++ ys)%list, Ok tt) /\
    Forall2 (fun m y => exists j, f j m = Ok y) selected ys.
Proof.
  induction 1 as [|m rest Hm Hrest IH]; intros allYields; cbn [push_each].
  - exists []. rewrite app_nil_r. split; [reflexivity|constructor].
  - destruct (Hm (List.length allYields)) as [y Hy]. rewrite Hy.
    destruct (IH (allYields ++ [y])%list) as [ys [Hrun Hall]].
    exists (y :: ys). rewrite Hrun, <- app_assoc. split; [reflexivity|].
    constructor; eauto.
Qed.

Lemma push_each_stops f before bad rest e :
  Forall (fun m => forall j, exists y, f j m = Ok y) before ->
  (forall j, f j bad = Throw e) ->
  forall allYields,
  exists ys,
    push_each f (before ++ bad :: rest) allYields
      = ((allYields ++ ys)%list, Throw e) /\
    Forall2 (fun m y => exists j, f j m = Ok y) before ys.
Proof.
  intros Hgood Hbad.
  induction Hgood as [|m ms Hm Hms IH]; intros allYields; cbn [app push_each].
  - rewrite Hbad. exists []. rewrite app_nil_r. split; [reflexivity|constructor].
  - destruct (Hm (List.length allYields)) as [y Hy]. rewrite Hy.
    destruct (IH (allYields ++ [y])%list) as [ys [Hrun Hall]].
    exists (y :: ys). rewrite Hrun, <- app_assoc. split; [reflexivity|].
    constructor; eauto.
Qed.

(** X7.  When the body delivered for a chain is of the documented shape,
    a [results] array of markets whose [pt] and [underlyingAsset] carry a
    string [symbol] and whose [totalActiveLiquidity] and [impliedApy] are
    Numbers, the chain contributes one record for each of the first 5
    markets that pass the filter, in their order, and nothing is written
    to the console. *)
Theorem chain_yields_complete net now c k data markets :
  0 <= k < default_retries ->
  all_fail net (pendle_url (fst c)) k ->
  attempt (net (pendle_url (fst c)) k) = Ok data ->
  get data "results" = Ok (JArr markets) ->
  Forall plain_market markets ->
  List.length (chain_yields net now c) =
    Nat.min 5 (List.length (filter (holds pendle_keep) markets)) /\
  Forall2 (from_market (snd c)) (firstn 5 (filter (holds pendle_keep) markets))
    (chain_yields net now c) /\
  logs (chain_trace net now c) = [].
Proof.
  intros Hk Hfail Hat Hres Hplain.
  destruct (pendle_chain_run net now c k data Hk Hfail Hat) as [t [_ [Hlog Hrun]]].
  unfold chain_yields, chain_trace. rewrite Hrun.
  unfold pendle_select. rewrite Hres. cbn [bind truthy js_filter].
  rewrite filterM_total
    by (eapply Forall_impl; [|exact Hplain]; intros m; apply plain_market_keep).
  cbn [bind].
  destruct (push_each_good (pendle_record (snd c) now)
              (firstn 5 (filter (holds pendle_keep) markets))) with (allYields := @nil YieldRecord)
    as [ys [Hpush Hall]].
  { apply Forall_firstn. apply Forall_forall. intros m Hm j.
    apply plain_market_record. apply filter_In in Hm.
    rewrite Forall_forall in Hplain. now apply Hplain. }
  rewrite Hpush. cbn [app fst snd].
  destruct (from_markets (snd c) now
              (firstn 5 (filter (holds pendle_keep) markets)) ys)
    as [_ [Hfrom _]]; [apply Forall_firstn, filter_holds_Forall|exact Hall|].
  split; [|split; [exact Hfrom|exact Hlog]].
  rewrite <- (Forall2_length Hfrom). apply length_firstn.
Qed.

(** X8.  Unlike the DeFiLlama adapter, a chain keeps what it has pushed:
    when building the record of one of the selected markets raises (its
    [pt] is [null], for one), the records of the selected markets before
    it are returned, those after it are lost, and the exception is
    written once to the console under the chain's label. *)
Theorem chain_yields_keeps_prefix net now c k data markets before bad rest e :
  0 <= k < default_retries ->
  all_fail net (pendle_url (fst c)) k ->
  attempt (net (pendle_url (fst c)) k) = Ok data ->
  get data "results" = Ok (JArr markets) ->
  Forall (fun m => exists b, pendle_keep m = Ok b) markets ->
  firstn 5 (filter (holds pendle_keep) markets) = (before ++ bad :: rest)%list ->
  Forall plain_market before ->
  pendle_record (snd c) now 0 bad = Throw e ->
  List.length (chain_yields net now c) = List.length before /\
  Forall2 (from_market (snd c)) before (chain_yields net now c) /\
  logs (chain_trace net now c) = [(chain_label c, e)].
Proof.
  intros Hk Hfail Hat Hres Hkeep Hsel Hplain Hbad.
  destruct (pendle_chain_run net now c k data Hk Hfail Hat) as [t [_ [Hlog Hrun]]].
  unfold chain_yields, chain_trace. rewrite Hrun.
  unfold pendle_select. rewrite Hres. cbn [bind truthy js_filter].
  rewrite filterM_total by exact Hkeep. cbn [bind]. rewrite Hsel.
  destruct (push_each_stops (pendle_record (snd c) now) before bad rest e)
    with (allYields := @nil YieldRecord) as [ys [Hpush Hall]].
  { eapply Forall_impl; [|exact Hplain]. intros m Hm j.
    now apply plain_market_record. }
  { intros j. now apply pendle_record_throws with 0%nat. }
  rewrite Hpush. cbn [app fst snd].
  assert (Htrue : Forall (fun m => pendle_keep m = Ok true) before).
  { assert (H : Forall (fun m => pendle_keep m = Ok true)
                  (before ++ bad :: rest)%list)
      by (rewrite <- Hsel; apply Forall_firstn, filter_holds_Forall).
    apply Forall_app in H. tauto. }
  destruct (from_markets (snd c) now before ys Htrue Hall) as [_ [Hfrom _]].
  split; [now rewrite <- (Forall2_length Hfrom)|]. split; [exact Hfrom|].
  rewrite logs_app, Hlog. reflexivity.
Qed.

(** X9.  A chain contributes nothing when its body has nothing to filter.
    A missing or falsy [results] is passed over in silence; a body that
    is [null], a [results] that is truthy but not an array, and a filter
    that raises on some element of [results] (on a market without
    [underlyingAsset], for one) each end the chain's turn with a single
    console line under the chain's label, a [TypeError] in the first two
    cases. *)
Theorem chain_yields_nothing_to_filter net now c k data :
  0 <= k < default_retries ->
  all_fail net (pendle_url (fst c)) k ->
  attempt (net (pendle_url (fst c)) k) = Ok data ->
  (forall results,
     get data "results" = Ok results -> truthy results = false ->
     chain_yields net now c = [] /\ logs (chain_trace net now c) = []) /\
  (data = JNull ->
     chain_yields net now c = [] /\
     logs (chain_trace net now c) = [(chain_label c, TypeError)]) /\
  (forall results,
     get data "results" = Ok results -> truthy results = true ->
     (forall markets, results <> JArr markets) ->
     chain_yields net now c = [] /\
     logs (chain_trace net now c) = [(chain_label c, TypeError)]) /\
  (forall markets market e,
     get data "results" = Ok (JArr markets) ->
     In market markets -> pendle_keep market = Throw e ->
     chain_yields net now c = [] /\
     exists e', logs (chain_trace net now c) = [(chain_label c, e')]) /\
  (forall markets market,
     get data "results" = Ok (JArr markets) ->
     In market markets -> get market "underlyingAsset" = Ok JUndef ->
     chain_yields net now c = [] /\
     exists e', logs (chain_trace net now c) = [(chain_label c, e')]).
Proof.
  intros Hk Hfail Hat.
  destruct (pendle_chain_run net now c k data Hk Hfail Hat) as [t [_ [Hlog Hrun]]].
  unfold chain_yields, chain_trace. rewrite Hrun. clear Hrun.
  assert (Hfilter : forall markets market e,
     get data "results" = Ok (JArr markets) ->
     In market markets -> pendle_keep market = Throw e ->
     snd match pendle_select data with
         | Throw error => ((t ++ [ELog (chain_label c) error])%list, [])
         | Ok None => (t, [])
         | Ok (Some selected) =>
             match push_each (pendle_record (snd c) now) selected [] with
             | (ys, Ok _) => (t, ys)
             | (ys, Throw error) => ((t ++ [ELog (chain_label c) error])%list, ys)
             end
         end = [] /\
     exists e',
       logs (fst match pendle_select data with
         | Throw error => ((t ++ [ELog (chain_label c) error])%list, [])
         | Ok None => (t, [])
         | Ok (Some selected) =>
             match push_each (pendle_record (snd c) now) selected [] with
             | (ys, Ok _) => (t, ys)
             | (ys, Throw error) => ((t ++ [ELog (chain_label c) error])%list, ys)
             end
         end) = [(chain_label c, e')]).
  { intros markets market e Hres Hin Hthrow.
    unfold pendle_select. rewrite Hres. cbn [bind truthy js_filter].
    destruct (filterM_throws pendle_keep markets market e Hin Hthrow) as [e' ->].
    cbn [bind fst snd]. split; [reflexivity|].
    exists e'. rewrite logs_app, Hlog. reflexivity. }
  split; [|split; [|split; [|split]]].
  - intros results Hres Hfalsy. unfold pendle_select.
    rewrite Hres. cbn [bind]. rewrite Hfalsy. cbn [fst snd]. auto.
  - intros ->. cbn [pendle_select get bind fst snd].
    rewrite logs_app, Hlog. auto.
  - intros results Hres Htruthy Hnot. unfold pendle_select.
    rewrite Hres. cbn [bind]. rewrite Htruthy.
    destruct results as [| | | | |markets|]; cbn [js_filter bind fst snd];
      try (rewrite logs_app, Hlog; auto).
    now destruct (Hnot markets).
  - exact Hfilter.
  - intros markets market Hres Hin Hasset.
    apply (Hfilter markets market TypeError Hres Hin).
    unfold pendle_keep. rewrite Hasset. reflexivity.
Qed.

Lemma net_ethereum_delivers markets :
  all_fail (net_ethereum markets) (pendle_url (fst ethereum)) 0 /\
  attempt (net_ethereum markets (pendle_url (fst ethereum)) 0)
    = Ok (JObj [("results", JArr markets)]).
Proof.
  split; [intros i Hi; lia|reflexivity].
Qed.

Lemma market_susde_plain liquidity implied :
  plain_market (market_susde liquidity [("impliedApy", JNum implied)]).
Proof.
  exists [ ("pt", JObj [("symbol", JStr "PT-sUSDe")]);
           ("underlyingAsset", JObj [("symbol", JStr "sUSDe")]);
           ("totalActiveLiquidity", JNum liquidity);
           ("expiry", JStr "2025-06-26T00:00:00.000Z");
           ("impliedApy", JNum implied) ],
    [("symbol", JStr "PT-sUSDe")], "PT-sUSDe", [("symbol", JStr "sUSDe")],
    "sUSDe", liquidity, implied.
  repeat split.
Qed.

Lemma chain_yields_complete_witness :
  List.length (chain_yields net_fraction clock_zero ethereum) = 2%nat /\
  logs (chain_trace net_fraction clock_zero ethereum) = [].
Proof.
  pose proof
    (chain_yields_complete net_fraction clock_zero ethereum 0
       (JObj [("results",
          JArr [ market_susde (num_of_decimal false 11000004 (-1))
                   [("impliedApy", JNum (num_of_decimal false 5 (-2)))];
                 market_susde (num_of_decimal false 200000001 (-2))
                   [("impliedApy", JNum (num_of_decimal false 5 (-2)))] ])])
       [ market_susde (num_of_decimal false 11000004 (-1))
           [("impliedApy", JNum (num_of_decimal false 5 (-2)))];
         market_susde (num_of_decimal false 200000001 (-2))
           [("impliedApy", JNum (num_of_decimal false 5 (-2)))] ]
       ltac:(unfold default_retries; lia)
       (proj1 (net_ethereum_delivers _)) eq_refl eq_refl
       ltac:(repeat constructor; apply market_susde_plain)) as [H1 [_ H3]].
  split; [|exact H3]. rewrite H1. vm_compute. reflexivity.
Defined.

Lemma chain_yields_keeps_prefix_witness :
  List.length (chain_yields net_broken_market clock_zero ethereum) = 1%nat /\
  logs (chain_trace net_broken_market clock_zero ethereum)
    = [("Pendle Ethereum fetch error:", TypeError)].
Proof.
  pose proof
    (chain_yields_keeps_prefix net_broken_market clock_zero ethereum 0
       (JObj [("results",
          JArr [ market_susde (num_of_Z 3000000)
                   [("impliedApy", JNum (num_of_decimal false 8 (-2)))];
                 JObj [ ("pt", JNull);
                        ("underlyingAsset", JObj [("symbol", JStr "USDC")]);
                        ("totalActiveLiquidity", JNum (num_of_Z 4000000)) ] ])])
       [ market_susde (num_of_Z 3000000)
           [("impliedApy", JNum (num_of_decimal false 8 (-2)))];
         JObj [ ("pt", JNull);
                ("underlyingAsset", JObj [("symbol", JStr "USDC")]);
                ("totalActiveLiquidity", JNum (num_of_Z 4000000)) ] ]
       [ market_susde (num_of_Z 3000000)
           [("impliedApy", JNum (num_of_decimal false 8 (-2)))] ]
       (JObj [ ("pt", JNull);
               ("underlyingAsset", JObj [("symbol", JStr "USDC")]);
               ("totalActiveLiquidity", JNum (num_of_Z 4000000)) ])
       [] TypeError
       ltac:(unfold default_retries; lia)
       (proj1 (net_ethereum_delivers _)) eq_refl eq_refl
       ltac:(repeat constructor; eexists; vm_compute; reflexivity)
       ltac:(vm_compute; reflexivity)
       ltac:(repeat constructor; apply market_susde_plain)
       eq_refl) as [H1 [_ H3]].
  split; [exact H1|exact H3].
Defined.

Lemma chain_yields_nothing_to_filter_witness :
  chain_yields net_no_results clock_zero arbitrum = [] /\
  logs (chain_trace net_no_results clock_zero arbitrum) = [].
Proof.
  apply (proj1 (chain_yields_nothing_to_filter net_no_results clock_zero arbitrum 0
                  (JObj [("message", JStr "maintenance")])
                  ltac:(unfold default_retries; lia)
                  ltac:(intros i Hi; lia) eq_refl) JUndef);
    reflexivity.
Defined.

(** ** What the adapters do on the network and on the console *)

Lemma sleeps_app t1 t2 : sleeps (t1 ++ t2) = (sleeps t1 ++ sleeps t2)%list.
Proof.
  induction t1 as [|ev t1 IH]; [reflexivity|].
  destruct ev; cbn [app sleeps]; now rewrite IH.
Qed.

Lemma fetched_app t1 t2 : fetched (t1 ++ t2) = (fetched t1 ++ fetched t2)%list.
Proof. apply flat_map_app. Qed.

Lemma total_wait_app t1 t2 : total_wait (t1 ++ t2) = total_wait t1 + total_wait t2.
Proof.
  unfold total_wait. rewrite sleeps_app.
  induction (sleeps t1) as [|ms l IH]; cbn [app fold_right]; lia.
Qed.

Lemma fetched_failed_attempts url n i :
  fetched (failed_attempts url n i ++ [EFetch url]) = repeat url (S n).
Proof.
  revert i. induction n as [|n IH]; intros i; [reflexivity|].
  cbn [failed_attempts app]. unfold fetched in *. cbn [flat_map app].
  rewrite IH. reflexivity.
Qed.

(** The attempts up to the one that ends the call, followed by the console
    line of the [catch], if any. *)
Lemma guarded_shape url label k tail :
  0 <= k < default_retries ->
  tail = [] \/ (exists e, tail = [ELog label e]) ->
  guarded_trace url label
    ((failed_attempts url (Z.to_nat k) 0 ++ [EFetch url]) ++ tail).
Proof.
  unfold default_retries. intros Hk Htail. exists (S (Z.to_nat k)).
  assert (Hquiet : fetched tail = [] /\ sleeps tail = [] /\ total_wait tail = 0).
  { destruct Htail as [->|[e ->]]; repeat split. }
  destruct Hquiet as [Hf [Hs Hw]].
  split; [lia|]. split.
  { rewrite fetched_app, Hf, app_nil_r. apply fetched_failed_attempts. }
  split.
  { rewrite sleeps_app, Hs, app_nil_r, sleeps_failed_attempts. f_equal. lia. }
  split.
  { rewrite total_wait_app, Hw, total_wait_failed_attempts by lia.
    rewrite Z2Nat.id by lia.
    assert (Hcases : k = 0 \/ k = 1 \/ k = 2) by lia.
    destruct Hcases as [-> | [-> | ->]]; cbn; lia. }
  rewrite logs_app, logs_app, logs_failed_attempts.
  destruct Htail as [->|[e ->]]; [now left|right; now exists e].
Qed.

Lemma chain_trace_guarded net now c :
  guarded_trace (pendle_url (fst c)) (chain_label c) (chain_trace net now c).
Proof.
  unfold chain_trace, pendle_chain, chain_label. destruct c as [id name].
  cbn [fst snd].
  destruct (fetchWithRetry_stops net (pendle_url id) default_retries)
    as [k [Hk [_ [Hrun _]]]]; [unfold default_retries; lia|].
  rewrite Hrun.
  assert (Hquiet : guarded_trace (pendle_url id) ("Pendle " ++ name ++ " fetch error:")
                     (failed_attempts (pendle_url id) (Z.to_nat k) 0
                      ++ [EFetch (pendle_url id)])).
  { rewrite <- (app_nil_r (_ ++ [EFetch _])). apply guarded_shape; auto. }
  assert (Hloud : forall e,
            guarded_trace (pendle_url id) ("Pendle " ++ name ++ " fetch error:")
              ((failed_attempts (pendle_url id) (Z.to_nat k) 0
                ++ [EFetch (pendle_url id)]) ++ [ELog ("Pendle " ++ name ++ " fetch error:") e])).
  { intros e. apply guarded_shape; eauto. }
  destruct (attempt (net (pendle_url id) k)) as [data|e]; [|apply Hloud].
  destruct (pendle_select data) as [[selected|]|e]; [|exact Hquiet|apply Hloud].
  destruct (push_each (pendle_record name now) selected []) as [ys [u|e]];
    [exact Hquiet|apply Hloud].
Qed.

Lemma pendle_trace_split net now :
  fst (fetchPendleYields net now) =
    (chain_trace net now ethereum
     ++ chain_trace net
          (later now (List.length (chain_yields net now ethereum))) arbitrum)%list.
Proof.
  unfold fetchPendleYields, pendle_body, pendle_chains. cbn [pendle_loop].
  unfold chain_trace, chain_yields, ethereum, arbitrum.
  destruct (pendle_chain net now (1, "Ethereum") []) as [t1 ys1].
  rewrite (pendle_chain_shift net now (42161, "Arbitrum") ys1).
  cbn [fst snd].
  destruct (pendle_chain net (later now (List.length ys1)) (42161, "Arbitrum") [])
    as [t2 ys2].
  cbn [try_catch fst]. now rewrite app_nil_r.
Qed.

(** X10.  Whatever the network does, the DeFiLlama adapter sends from 1
    to 3 requests, all to the pools URL, waits 1000 ms after the first
    failure and 2000 ms after the second, so 3000 ms at most, and writes
    at most one console line, under its own label; a line written means
    that no record is returned, and when all three attempts fail the line
    carries the exception of the third. *)
Theorem llama_trace net now :
  guarded_trace llama_url "DeFi Llama fetch error:"
    (fst (fetchDefiLlamaYields net now)) /\
  (logs (fst (fetchDefiLlamaYields net now)) <> [] -> llama_yields net now = []) /\
  (all_fail net llama_url default_retries ->
   exists e,
     attempt (net llama_url (default_retries - 1)) = Throw e /\
     logs (fst (fetchDefiLlamaYields net now)) = [("DeFi Llama fetch error:", e)]).
Proof.
  unfold llama_yields, fetchDefiLlamaYields, llama_body.
  destruct (fetchWithRetry_stops net llama_url default_retries)
    as [k [Hk [_ [Hrun Hend]]]]; [unfold default_retries; lia|].
  rewrite Hrun.
  assert (Hlogs : forall tail,
            logs ((failed_attempts llama_url (Z.to_nat k) 0 ++ [EFetch llama_url])
                  ++ tail) = logs tail).
  { intros tail. now rewrite logs_app, logs_app, logs_failed_attempts. }
  destruct (attempt (net llama_url k)) as [data|e] eqn:Hat;
    cbn [eff_bind pure try_catch].
  - destruct (let* selected := llama_select data in
              mapM (llama_record now) 0 selected) as [recs|e];
      cbn [fst snd].
    + split; [apply guarded_shape; auto|]. split.
      * rewrite Hlogs. intros H. now destruct H.
      * intros Hfail. destruct (Hfail k Hk) as [e He]. congruence.
    + rewrite (app_nil_r (_ ++ [EFetch llama_url])).
      split; [apply guarded_shape; eauto|]. split; [reflexivity|].
      intros Hfail. destruct (Hfail k Hk) as [e' He']. congruence.
  - cbn [fst snd]. split; [apply guarded_shape; eauto|]. split; [reflexivity|].
    intros _. exists e. destruct Hend as [[v Hv]|Hlast]; [congruence|].
    subst k. split; [exact Hat|]. now rewrite Hlogs.
Qed.

(** X11.  Whatever the network does, the Pendle adapter asks both chains,
    Ethereum first: from 1 to 3 requests to the markets URL of chain 1,
    then from 1 to 3 to that of chain 42161, also when the first chain
    failed.  It waits at most 6000 ms in all and writes at most two
    console lines, each under the label of a chain: the line of the outer
    [catch] is never written. *)
Theorem pendle_trace net now :
  exists a b,
    (1 <= a <= 3)%nat /\ (1 <= b <= 3)%nat /\
    fetched (fst (fetchPendleYields net now)) =
      (repeat (pendle_url 1) a ++ repeat (pendle_url 42161) b)%list /\
    0 <= total_wait (fst (fetchPendleYields net now)) <= 6000 /\
    (List.length (logs (fst (fetchPendleYields net now))) <= 2)%nat /\
    Forall (fun line => fst line = "Pendle Ethereum fetch error:" \/
                        fst line = "Pendle Arbitrum fetch error:")
      (logs (fst (fetchPendleYields net now))) /\
    ~ In "Pendle fetch error:" (map fst (logs (fst (fetchPendleYields net now)))).
Proof.
  rewrite pendle_trace_split.
  destruct (chain_trace_guarded net now ethereum)
    as [a [Ha [Hfa [_ [Hwa Hla]]]]].
  destruct (chain_trace_guarded net
              (later now (List.length (chain_yields net now ethereum))) arbitrum)
    as [b [Hb [Hfb [_ [Hwb Hlb]]]]].
  exists a, b. split; [exact Ha|]. split; [exact Hb|]. split.
  { rewrite fetched_app, Hfa, Hfb. reflexivity. }
  split; [rewrite total_wait_app; lia|].
  rewrite logs_app.
  destruct Hla as [->|[e1 ->]]; destruct Hlb as [->|[e2 ->]];
    cbn [app List.length map fst]; (split; [lia|]);
    (split; [repeat constructor; cbn; auto|]);
    cbn; intros H; repeat (destruct H as [H|H]; [discriminate H|]); exact H.
Qed.

(** ** The categorizer reads substrings *)

Lemma prefix_spec t s : prefix t s = true <-> exists after, s = t ++ after.
Proof.
  revert s. induction t as [|c t IH]; intros s.
  - split; [intros _; now exists s|intros _; destruct s; reflexivity].
  - destruct s as [|d s]; cbn [prefix].
    + split; [discriminate|]. intros [after H]. discriminate H.
    + destruct (ascii_dec c d) as [->|Hne].
      * rewrite IH. split; intros [after H]; exists after.
        -- cbn. now rewrite H.
        -- cbn in H. now inversion H.
      * split; [discriminate|]. intros [after H]. cbn in H.
        assert (c = d) by congruence. contradiction.
Qed.

(** [s.includes(t)] holds exactly when [t] occurs in [s]. *)
Lemma includes_spec s t :
  includes s t = true <-> exists before after, s = before ++ t ++ after.
Proof.
  split.
  - induction s as [|c s IH]; cbn [includes]; intros H;
      apply orb_true_iff in H; destruct H as [H|H]; try discriminate.
    + apply prefix_spec in H. destruct H as [after H]. now exists "", after.
    + apply prefix_spec in H. destruct H as [after H]. now exists "", after.
    + destruct (IH H) as [before [after ->]].
      now exists (String c before), after.
  - intros [before [after ->]].
    induction before as [|c before IH].
    + cbn [append]. destruct (t ++ after) eqn:Heq; cbn [includes];
        apply orb_true_iff; left; apply prefix_spec; exists after; auto.
    + cbn [append includes]. rewrite IH. apply orb_true_r.
Qed.

Lemma toLowerCase_ascii_app a b :
  toLowerCase_ascii (a ++ b) = toLowerCase_ascii a ++ toLowerCase_ascii b.
Proof.
  induction a as [|c a IH]; [reflexivity|]. cbn. now rewrite IH.
Qed.

Lemma mentions_test name category :
  existsb (fun keyword => includes (toLowerCase name) keyword) (keywords category)
    = true <-> mentions name category.
Proof.
  unfold mentions. rewrite existsb_exists. split.
  - intros [keyword [Hin Hinc]]. apply includes_spec in Hinc.
    destruct Hinc as [before [after H]]. now exists keyword, before, after.
  - intros [keyword [before [after [Hin H]]]]. exists keyword.
    split; [exact Hin|]. apply includes_spec. now exists before, after.
Qed.

Lemma categorizeProtocol_tests name :
  categorizeProtocol (JStr name) =
    Ok (if existsb (fun keyword => includes (toLowerCase name) keyword)
             (keywords "lending")
        then "Lending"
        else if existsb (fun keyword => includes (toLowerCase name) keyword)
                  (keywords "dex")
             then "Dex" else "Other").
Proof. reflexivity. Qed.

Section AsciiNames.

Hypothesis toLowerCase_of_ascii :
  forall s, ascii_only s = true -> toLowerCase s = toLowerCase_ascii s.

(** X12.  The label depends on the lower-cased name only through the
    keywords that occur in it as substrings: it is ["Lending"] exactly
    when a lending keyword occurs, ["Dex"] exactly when a dex keyword
    occurs and no lending keyword does, ["Other"] exactly when none
    occurs.  So in a name whose code units are all below [U+0080], a
    lending keyword written in any case, with anything before and after
    it, makes the label ["Lending"], also beside a dex keyword; and a
    name that is not a string raises a [TypeError]. *)
Theorem categorizeProtocol_substring (name : string) :
  (categorizeProtocol (JStr name) = Ok "Lending" <-> mentions name "lending") /\
  (categorizeProtocol (JStr name) = Ok "Dex" <->
     ~ mentions name "lending" /\ mentions name "dex") /\
  (categorizeProtocol (JStr name) = Ok "Other" <->
     ~ mentions name "lending" /\ ~ mentions name "dex") /\
  (forall before keyword after,
     ascii_only (before ++ keyword ++ after) = true ->
     In (toLowerCase_ascii keyword) (keywords "lending") ->
     categorizeProtocol (JStr (before ++ keyword ++ after)) = Ok "Lending") /\
  (forall v, (forall s, v <> JStr s) -> categorizeProtocol v = Throw TypeError).
Proof.
  assert (Hany : forall n,
            mentions n "lending" -> categorizeProtocol (JStr n) = Ok "Lending").
  { intros n H. rewrite categorizeProtocol_tests.
    apply mentions_test in H. now rewrite H. }
  split; [|split; [|split; [|split]]].
  - split; [|apply Hany]. rewrite categorizeProtocol_tests.
    destruct (existsb _ (keywords "lending")) eqn:Hl.
    + intros _. now apply mentions_test.
    + destruct (existsb _ (keywords "dex")); discriminate.
  - rewrite categorizeProtocol_tests.
    pose proof (mentions_test name "lending") as Hl.
    pose proof (mentions_test name "dex") as Hd.
    destruct (existsb _ (keywords "lending")), (existsb _ (keywords "dex")).
    + split; [discriminate|]. intros [Hno _]. destruct Hno. now apply Hl.
    + split; [discriminate|]. intros [Hno _]. destruct Hno. now apply Hl.
    + split; [|reflexivity]. intros _. split; [|now apply Hd].
      intros H. apply Hl in H. discriminate H.
    + split; [discriminate|]. intros [_ H]. apply Hd in H. discriminate H.
  - rewrite categorizeProtocol_tests.
    pose proof (mentions_test name "lending") as Hl.
    pose proof (mentions_test name "dex") as Hd.
    destruct (existsb _ (keywords "lending")), (existsb _ (keywords "dex")).
    + split; [discriminate|]. intros [Hno _]. destruct Hno. now apply Hl.
    + split; [discriminate|]. intros [Hno _]. destruct Hno. now apply Hl.
    + split; [discriminate|]. intros [_ Hno]. destruct Hno. now apply Hd.
    + split; [|reflexivity]. intros _.
      split; intros H; [apply Hl in H|apply Hd in H]; discriminate H.
  - intros before keyword after Hascii Hin. apply Hany.
    exists (toLowerCase_ascii keyword), (toLowerCase_ascii before),
      (toLowerCase_ascii after).
    split; [exact Hin|].
    rewrite (toLowerCase_of_ascii _ Hascii). now rewrite !toLowerCase_ascii_app.
  - intros v Hv. destruct v; try reflexivity. now destruct (Hv s).
Qed.

End AsciiNames.

(** ** The answer to a [GET] *)

Lemma llama_bounded net now :
  exists t recs,
    fetchDefiLlamaYields net now = (t, Ok recs) /\
    (List.length recs <= 30)%nat /\
    Forall (fun r => source r = "defillama") recs.
Proof.
  destruct (fetchDefiLlamaYields_cases net now) as [t [recs [Hrun Hcases]]].
  exists t, recs. split; [exact Hrun|].
  destruct Hcases as [->|[k [data [selected [_ [_ [Hsel Hmap]]]]]]].
  - split; [cbn; lia|constructor].
  - destruct (llama_selected_records now data selected recs Hsel Hmap)
      as [_ Hfrom].
    apply llama_select_Ok in Hsel. destruct Hsel as [pools [_ Hs]].
    split.
    + rewrite <- (Forall2_length Hfrom), Hs, length_firstn. lia.
    + apply (Forall2_right _ _ _ _ Hfrom).
      intros pool r [_ [_ [_ [_ [_ [_ H]]]]]]. exact H.
Qed.

Lemma chain_yields_source net now c :
  (List.length (chain_yields net now c) <= 5)%nat /\
  Forall (fun r => source r = "pendle") (chain_yields net now c).
Proof.
  destruct (chain_yields_bounded net now c) as [Hlen [_ Hfrom]].
  split; [exact Hlen|].
  destruct Hfrom as [->|[k [data [results [markets [_ [_ [_ [_ [_ [_ H]]]]]]]]]]];
    [constructor|].
  apply (Forall2_right _ _ _ _ H).
  intros market r [_ [_ [_ [_ [_ Hr]]]]]. exact Hr.
Qed.

(** Records of one source add its name to the set once. *)
Lemma fold_set_add_same s l :
  Forall (fun x => x = s) l ->
  forall seen,
    fold_left (set_add String.eqb) l seen =
      match l with
      | [] => seen
      | _ => set_add String.eqb seen s
      end.
Proof.
  induction 1 as [|x l -> Hl IH]; intros seen; [reflexivity|].
  cbn [fold_left]. rewrite IH. destruct l; [reflexivity|].
  unfold set_add.
  destruct (existsb (String.eqb s) seen) eqn:Hseen.
  - now rewrite Hseen.
  - rewrite existsb_app. cbn [existsb]. rewrite String.eqb_refl.
    now rewrite orb_true_r.
Qed.

Lemma sources_of_adapters llama pendle now :
  Forall (fun r => source r = "defillama") llama ->
  Forall (fun r => source r = "pendle") pendle ->
  distinct String.eqb (map source (llama ++ pendle ++ getManualYieldData now)) =
    (network_sources llama pendle ++ ["midas"; "gauntlet"; "yieldfi"])%list.
Proof.
  intros Hl Hp. unfold distinct, network_sources.
  rewrite !map_app, !fold_left_app.
  rewrite (fold_set_add_same "defillama" (map source llama))
    by (apply Forall_map; exact Hl).
  rewrite (fold_set_add_same "pendle" (map source pendle))
    by (apply Forall_map; exact Hp).
  destruct llama, pendle; reflexivity.
Qed.

Lemma manual_no_nan now : no_nan (map apy (getManualYieldData now)).
Proof. repeat constructor. Qed.

(** X13.  A [GET] is answered with the records that the DeFiLlama
    adapter returned, at most 30, then those that the Pendle adapter
    returned, at most 10, then the three Manual records, so
    with 3 to 43 records in all, as [totalOpportunities] says.  [sources]
    lists ["defillama"] if its adapter returned a record, then ["pendle"]
    likewise, then the three Manual sources, in this order.  When no APY
    of the network records is NaN, [minAPY] is at most 5.25 and [maxAPY]
    at least 23.5, the extremes of the Manual records. *)
Theorem handler_get_shape (w : World) :
  exists llama pendle st,
    snd (fetchDefiLlamaYields (network w) (llama_clock w)) = Ok llama /\
    snd (fetchPendleYields (network w) (pendle_clock w)) = Ok pendle /\
    handler "GET" w =
      mkResponse 200 cors_headers
        (Success (llama ++ pendle ++ getManualYieldData (manual_clock w)) st) /\
    (List.length llama <= 30)%nat /\
    (List.length pendle <= 10)%nat /\
    totalOpportunities st = (List.length llama + List.length pendle + 3)%nat /\
    (3 <= totalOpportunities st <= 43)%nat /\
    sources st =
      (network_sources llama pendle ++ ["midas"; "gauntlet"; "yieldfi"])%list /\
    (no_nan (map apy (llama ++ pendle)) ->
     num_le (minAPY st) (num_of_decimal false 525 (-2)) = true /\
     num_le (num_of_decimal false 235 (-1)) (maxAPY st) = true).
Proof.
  destruct (handler_get w) as [l [p [st [Hl [Hp [Hst Hrun]]]]]].
  exists l, p, st.
  destruct (llama_bounded (network w) (llama_clock w))
    as [t1 [l' [Hl' [Hlen1 Hsrc1]]]].
  unfold settled_llama, settle in Hl. rewrite Hl' in Hl. cbn [snd] in Hl.
  assert (l' = l) by congruence. subst l'.
  destruct (fetchPendleYields_chains (network w) (pendle_clock w)) as [t2 Hp'].
  unfold settled_pendle, settle in Hp. rewrite Hp' in Hp. cbn [snd] in Hp.
  set (eth := chain_yields (network w) (pendle_clock w) ethereum) in *.
  set (arb := chain_yields (network w)
                (later (pendle_clock w) (List.length eth)) arbitrum) in *.
  assert (Hpe : p = (eth ++ arb)%list) by congruence.
  split; [now rewrite Hl'|]. split; [now rewrite Hp', Hpe|].
  split; [exact Hrun|].
  destruct (chain_yields_source (network w) (pendle_clock w) ethereum)
    as [Hlen2 Hsrc2].
  destruct (chain_yields_source (network w)
              (later (pendle_clock w) (List.length eth)) arbitrum)
    as [Hlen3 Hsrc3].
  fold eth in Hlen2, Hsrc2. fold arb in Hlen3, Hsrc3.
  assert (Hlenp : (List.length p <= 10)%nat)
    by (rewrite Hpe, length_app; lia).
  assert (Hsrcp : Forall (fun r => source r = "pendle") p)
    by (rewrite Hpe; apply Forall_app; split; assumption).
  assert (Hcount : totalOpportunities st
                   = (List.length l + List.length p + 3)%nat).
  { rewrite (stats_count _ _ _ Hst), !length_app.
    unfold getManualYieldData. cbn [List.length]. lia. }
  split; [exact Hlen1|]. split; [exact Hlenp|]. split; [exact Hcount|].
  split; [lia|].
  unfold stats in Hst.
  destruct (sum_tvl _ (JNum PosZero)) as [total|e]; cbn [bind] in Hst;
    [|discriminate].
  inversion Hst as [Hfields]. clear Hst. cbn [sources minAPY maxAPY].
  split; [now apply sources_of_adapters|].
  intros Hnan.
  assert (Hall : no_nan (map apy
                   (l ++ p ++ getManualYieldData (manual_clock w)))).
  { unfold no_nan in *. rewrite app_assoc, map_app. apply Forall_app.
    split; [exact Hnan|apply manual_no_nan]. }
  assert (Hne : map apy (l ++ p ++ getManualYieldData (manual_clock w)) <> []).
  { rewrite !map_app. intros H. apply app_eq_nil in H. destruct H as [_ H].
    apply app_eq_nil in H. destruct H as [_ H]. discriminate H. }
  destruct (Math_min_spec _ Hne Hall) as [_ Hmin].
  destruct (Math_max_spec _ Hne Hall) as [_ Hmax].
  rewrite Forall_forall in Hmin, Hmax.
  destruct (l ++ p ++ getManualYieldData (manual_clock w))%list eqn:Hdata;
    [now destruct Hne|].
  rewrite <- Hdata in *.
  split; [apply Hmin|apply Hmax]; rewrite !map_app; apply in_or_app; right;
    apply in_or_app; right; cbn; auto.
Qed.

(** ** The kind of the total *)

Lemma append_empty s : s ++ "" = s.
Proof. induction s as [|c s IH]; [reflexivity|]. cbn. now rewrite IH. Qed.

Lemma append_append a b c : (a ++ b) ++ c = a ++ b ++ c.
Proof. induction a as [|x a IH]; [reflexivity|]. cbn. now rewrite IH. Qed.

Lemma js_add_text s b v :
  js_add (JStr s) b = Ok v -> exists s', v = JStr (s ++ s').
Proof.
  unfold js_add. cbn [ToPrimitive bind].
  destruct (ToPrimitive b) as [pb|]; cbn [bind]; [|discriminate].
  cbn [ToString bind].
  destruct (ToString pb) as [sb|]; cbn [bind]; [|discriminate].
  intros H. inversion H. eauto.
Qed.

(** Adding to a Number: a text as soon as the other side is one. *)
Lemma js_add_number x b v :
  js_add (JNum x) b = Ok v ->
  (exists s, ToPrimitive b = Ok (JStr s) /\ v = JStr (NumberToString x ++ s)) \/
  (~ text_value b /\ exists y, v = JNum y).
Proof.
  unfold js_add, text_value. cbn [ToPrimitive bind].
  destruct (ToPrimitive b) as [pb|] eqn:Hb; cbn [bind]; [|discriminate].
  intros H.
  assert (Hnum : (forall s, pb <> JStr s) ->
                 ~ (exists s, Ok pb = Ok (JStr s)) /\ exists y, v = JNum y).
  { intros Hno. split.
    - intros [s Hs]. inversion Hs. now destruct (Hno s).
    - destruct pb; try (now destruct (Hno s));
        cbn [ToNumber ToPrimitive bind] in H;
        repeat match type of H with
               | context [bind ?r _] => destruct r; cbn [bind] in H
               end;
        try discriminate H; inversion H; eauto. }
  destruct pb as [| |flag|y|s|items|fields];
    try (right; apply Hnum; intros s0; discriminate).
  left. exists s. split; [reflexivity|].
  cbn [ToString bind] in H. now inversion H.
Qed.

Lemma sum_tvl_text allYields :
  forall s v, sum_tvl allYields (JStr s) = Ok v -> exists s', v = JStr (s ++ s').
Proof.
  induction allYields as [|y rest IH]; intros s v; cbn [sum_tvl].
  - intros H. inversion H. exists "". now rewrite append_empty.
  - destruct (js_add (JStr s) (tvl y)) as [sum'|] eqn:Hadd; cbn [bind];
      [|discriminate].
    apply js_add_text in Hadd. destruct Hadd as [s1 ->].
    intros H. apply IH in H. destruct H as [s2 ->].
    exists (s1 ++ s2). now rewrite append_append.
Qed.

Lemma sum_tvl_app before after sum :
  sum_tvl (before ++ after) sum =
    let* sum' := sum_tvl before sum in sum_tvl after sum'.
Proof.
  revert sum. induction before as [|y rest IH]; intros sum; cbn [app sum_tvl bind].
  - reflexivity.
  - destruct (js_add sum (tvl y)); cbn [bind]; [apply IH|reflexivity].
Qed.

Lemma sum_tvl_kind allYields :
  forall x v,
    sum_tvl allYields (JNum x) = Ok v ->
    (Exists text_tvl allYields /\ exists s, v = JStr s) \/
    (Forall (fun r => ~ text_tvl r) allYields /\ exists y, v = JNum y).
Proof.
  induction allYields as [|r rest IH]; intros x v; cbn [sum_tvl].
  - intros H. inversion H. right. split; [constructor|eauto].
  - destruct (js_add (JNum x) (tvl r)) as [sum'|] eqn:Hadd; cbn [bind];
      [|discriminate].
    intros H. apply js_add_number in Hadd.
    destruct Hadd as [[s [Hs ->]]|[Hno [y ->]]].
    + left. split; [left; now exists s|].
      apply sum_tvl_text in H. destruct H as [s' ->]. eauto.
    + destruct (IH y v H) as [[Hex Hv]|[Hall Hv]].
      * left. split; [now right|exact Hv].
      * right. split; [now constructor|exact Hv].
Qed.

(** X14.  [totalTVL] is a Number or a string, and which one is decided
    by the [tvl] of the records: a Number when no [tvl] is a string, an
    array or an object, and a string as soon as one is.  The string then
    starts with the text of the sum of the records before the first such
    [tvl], when these have Number [tvl], followed by the text of that
    [tvl]: from there on [+] concatenates. *)
Theorem stats_total_kind (allYields : list YieldRecord) (stamp : string) (st : Stats) :
  stats allYields stamp = Ok st ->
  ((exists x, totalTVL st = JNum x) \/ (exists s, totalTVL st = JStr s)) /\
  (Forall (fun r => ~ text_tvl r) allYields <-> exists x, totalTVL st = JNum x) /\
  (Exists text_tvl allYields <-> exists s, totalTVL st = JStr s) /\
  (forall before r after s,
     allYields = (before ++ r :: after)%list ->
     Forall (fun r => exists x, tvl r = JNum x) before ->
     ToPrimitive (tvl r) = Ok (JStr s) ->
     exists rest,
       totalTVL st =
         JStr (NumberToString
                 (fold_left (fun sum y => num_add sum (tvl_number y)) before PosZero)
               ++ s ++ rest)).
Proof.
  unfold stats.
  destruct (sum_tvl allYields (JNum PosZero)) as [total|e] eqn:Hsum;
    cbn [bind]; [|discriminate].
  intros H. inversion H as [Hst]. clear H. cbn [totalTVL].
  pose proof (sum_tvl_kind allYields PosZero total Hsum) as Hkind.
  assert (Hexcl : Forall (fun r => ~ text_tvl r) allYields ->
                  Exists text_tvl allYields -> False).
  { intros Hall Hex. apply Exists_exists in Hex. destruct Hex as [r [Hin Hr]].
    rewrite Forall_forall in Hall. now apply (Hall r). }
  split; [|split; [|split]].
  - destruct Hkind as [[_ Hv]|[_ Hv]]; auto.
  - split.
    + intros Hall. destruct Hkind as [[Hex _]|[_ Hv]]; [|exact Hv].
      now destruct (Hexcl Hall Hex).
    + intros [x ->]. destruct Hkind as [[_ [s Hs]]|[Hall _]];
        [discriminate Hs|exact Hall].
  - split.
    + intros Hex. destruct Hkind as [[_ Hv]|[Hall _]]; [exact Hv|].
      now destruct (Hexcl Hall Hex).
    + intros [s ->]. destruct Hkind as [[Hex _]|[_ [y Hy]]];
        [exact Hex|discriminate Hy].
  - intros before r after s -> Hnum Hs.
    rewrite sum_tvl_app, (sum_tvl_numbers before Hnum) in Hsum.
    cbn [bind sum_tvl] in Hsum.
    destruct (js_add (JNum _) (tvl r)) as [sum'|] eqn:Hadd; cbn [bind] in Hsum;
      [|discriminate].
    apply js_add_number in Hadd.
    destruct Hadd as [[s' [Hs' ->]]|[Hno _]].
    + assert (s' = s) by congruence. subst s'.
      apply sum_tvl_text in Hsum. destruct Hsum as [rest ->].
      exists rest. now rewrite append_append.
    + destruct Hno. now exists s.
Qed.

(** ** Where a NaN can come from *)

Lemma sign_is_not_nan s y : sign_is s y -> is_nan y = false.
Proof. destruct y; cbn; intros H; [reflexivity|reflexivity|contradiction|reflexivity]. Qed.

(** Writing with two decimals and reading back neither makes nor loses a
    NaN. *)
Lemma round_trip_nan x f : is_nan (parseFloat (toFixed x f)) = is_nan x.
Proof.
  destruct x as [s|s| |s m e]; try reflexivity.
  cbn [toFixed]. destruct (at_least_1e21 m e); [reflexivity|].
  cbn [parseFloat is_nan]. apply sign_is_not_nan with s, num_of_decimal_sign.
Qed.

Lemma num_mul_100_nan x : is_nan (num_mul x (num_of_Z 100)) = is_nan x.
Proof.
  assert (H : exists m e, num_of_Z 100 = S754_finite false m e)
    by (vm_compute; eauto).
  destruct H as [m [e ->]].
  destruct x as [s|s| |s mx ex]; try reflexivity.
  unfold num_mul, SFmul. cbn [is_nan].
  apply sign_is_not_nan with (xorb s false), binary_round_aux_sign. lia.
Qed.

Lemma is_nan_true x : is_nan x = true -> x = NaN.
Proof. destruct x; try discriminate. reflexivity. Qed.

Lemma num_lt_not_nan a b : num_lt a b = true -> is_nan a = false.
Proof. destruct a; [reflexivity|reflexivity|discriminate|reflexivity]. Qed.

Lemma Forall2_both {A B : Type} (P : A -> Prop) (R : A -> B -> Prop)
  (Q : B -> Prop) l l' :
  Forall P l -> Forall2 R l l' -> (forall a b, P a -> R a b -> Q b) ->
  Forall Q l'.
Proof.
  intros HP HR HQ. induction HR as [|a b l l' Hab Hl IH]; constructor.
  - inversion HP; subst. eauto.
  - apply IH. now inversion HP.
Qed.

Lemma llama_no_nan net now : no_nan (map apy (llama_yields net now)).
Proof.
  unfold llama_yields, no_nan. apply Forall_map.
  destruct (fetchDefiLlamaYields_cases net now) as [t [recs [Hrun Hcases]]].
  rewrite Hrun. cbn [snd].
  destruct Hcases as [->|[k [data [selected [_ [_ [Hsel Hmap]]]]]]];
    [constructor|].
  destruct (llama_selected_records now data selected recs Hsel Hmap)
    as [Hel Hfrom].
  apply (Forall2_both _ _ _ _ _ Hel Hfrom).
  intros pool r [_ [_ [a [Ha Hlt]]]] [_ [_ [_ [_ [[a' [Ha' Hr]] _]]]]].
  rewrite Ha in Ha'. inversion Ha'; subst a'.
  rewrite Hr, round_trip_nan. now apply num_lt_not_nan with (num_of_Z 200).
Qed.

Lemma from_market_nan name market r :
  from_market name market r ->
  (nan_apy r <->
   exists implied,
     get market "impliedApy" = Ok implied /\ ToNumber implied = Ok NaN).
Proof.
  intros [_ [_ [[implied [percent [Hi [Hmul Hr]]]] _]]].
  unfold nan_apy. rewrite Hr, round_trip_nan.
  unfold js_mul in Hmul.
  destruct (ToNumber implied) as [x|] eqn:Hx; cbn [bind] in Hmul; [|discriminate].
  inversion Hmul; subst percent. rewrite num_mul_100_nan. split.
  - intros H. apply is_nan_true in H. subst x. now exists implied.
  - intros [implied' [Hi' Hx']]. rewrite Hi in Hi'. inversion Hi'; subst implied'.
    rewrite Hx in Hx'. now inversion Hx'.
Qed.

Lemma chain_yields_nan net now c :
  Forall (fun r => nan_apy r -> no_implied_apy r) (chain_yields net now c).
Proof.
  destruct (chain_yields_bounded net now c) as [_ [_ Hfrom]].
  destruct Hfrom as [->|[k [data [results [markets [_ [_ [_ [_ [_ [_ H]]]]]]]]]]];
    [constructor|].
  apply (Forall2_right _ _ _ _ H). intros market r Hr Hnan.
  apply (from_market_nan _ _ _ Hr) in Hnan. destruct Hnan as [implied [Hi Hx]].
  now exists (snd c), market, implied.
Qed.

Lemma nan_or_not l : no_nan l \/ In NaN l.
Proof.
  induction l as [|x l [IH|IH]].
  - left. constructor.
  - destruct x; try (left; now constructor). right. now left.
  - right. now right.
Qed.

Lemma extrema_nan l :
  l <> [] ->
  (is_nan (Math_max l) = true <-> In NaN l) /\
  (is_nan (Math_min l) = true <-> In NaN l).
Proof.
  intros Hne.
  assert (Hclean : no_nan l ->
            is_nan (Math_max l) = false /\ is_nan (Math_min l) = false).
  { intros Hl. destruct (Math_max_spec l Hne Hl) as [Hmax _].
    destruct (Math_min_spec l Hne Hl) as [Hmin _].
    unfold no_nan in Hl. rewrite Forall_forall in Hl. auto. }
  split; (split; [|intros H; first [rewrite (Math_max_nan l H)
                                  |rewrite (Math_min_nan l H)]; reflexivity]);
    intros H; destruct (nan_or_not l) as [Hl|Hl]; try exact Hl;
    destruct (Hclean Hl) as [H1 H2]; congruence.
Qed.

Lemma in_nan_apy l : In NaN (map apy l) <-> Exists nan_apy l.
Proof.
  rewrite in_map_iff, Exists_exists. unfold nan_apy.
  split; intros [r [H1 H2]]; exists r.
  - split; [exact H2|]. now rewrite H1.
  - split; [now apply is_nan_true|exact H1].
Qed.

(** X15.  In the answer to a [GET], an APY of NaN can only come from
    Pendle.  No record of DeFiLlama has one, since NaN fails the test
    [apy < 200] and rounding to two decimals makes none, and no Manual
    record has one.  A Pendle record has one exactly when the
    [impliedApy] of its market converts to NaN.  So [maxAPY] and [minAPY]
    are NaN exactly when some Pendle record is built from such a
    market. *)
Theorem nan_apy_origin (w : World) :
  exists llama pendle st,
    handler "GET" w =
      mkResponse 200 cors_headers
        (Success (llama ++ pendle ++ getManualYieldData (manual_clock w)) st) /\
    no_nan (map apy llama) /\
    no_nan (map apy (getManualYieldData (manual_clock w))) /\
    Forall (fun r => nan_apy r -> no_implied_apy r) pendle /\
    (is_nan (maxAPY st) = true <-> Exists nan_apy pendle) /\
    (is_nan (minAPY st) = true <-> Exists nan_apy pendle) /\
    (forall name market r,
       from_market name market r ->
       (nan_apy r <->
        exists implied,
          get market "impliedApy" = Ok implied /\ ToNumber implied = Ok NaN)).
Proof.
  destruct (handler_get w) as [l [p [st [Hl [Hp [Hst Hrun]]]]]].
  exists l, p, st. split; [exact Hrun|].
  assert (Hln : no_nan (map apy l)).
  { pose proof (llama_no_nan (network w) (llama_clock w)) as H.
    unfold llama_yields in H. unfold settled_llama, settle in Hl.
    destruct (snd (fetchDefiLlamaYields (network w) (llama_clock w)));
      [|discriminate].
    now inversion Hl; subst. }
  destruct (fetchPendleYields_chains (network w) (pendle_clock w)) as [t2 Hp'].
  unfold settled_pendle, settle in Hp. rewrite Hp' in Hp. cbn [snd] in Hp.
  inversion Hp as [Hpe]. clear Hp.
  assert (Hpn : Forall (fun r => nan_apy r -> no_implied_apy r) p).
  { rewrite <- Hpe. apply Forall_app. split; apply chain_yields_nan. }
  rewrite Hpe in *.
  split; [exact Hln|]. split; [apply manual_no_nan|]. split; [exact Hpn|].
  assert (Hin : In NaN (map apy (l ++ p ++ getManualYieldData (manual_clock w)))
                <-> Exists nan_apy p).
  { rewrite in_nan_apy, !Exists_app, <- !in_nan_apy. split; [|auto].
    intros [H|[H|H]]; [|exact H|].
    - unfold no_nan in Hln. rewrite Forall_forall in Hln.
      apply Hln in H. discriminate H.
    - pose proof (manual_no_nan (manual_clock w)) as Hm.
      unfold no_nan in Hm. rewrite Forall_forall in Hm.
      apply Hm in H. discriminate H. }
  assert (Hne : map apy (l ++ p ++ getManualYieldData (manual_clock w)) <> []).
  { rewrite !map_app. intros H. apply app_eq_nil in H. destruct H as [_ H].
    apply app_eq_nil in H. destruct H as [_ H]. discriminate H. }
  destruct (extrema_nan _ Hne) as [Hmax Hmin].
  unfold stats in Hst.
  destruct (sum_tvl _ (JNum PosZero)) as [total|e]; cbn [bind] in Hst;
    [|discriminate].
  inversion Hst as [Hfields]. clear Hst. cbn [maxAPY minAPY].
  destruct (l ++ p ++ getManualYieldData (manual_clock w))%list eqn:Hdata;
    [now destruct Hne|].
  rewrite <- Hdata in *.
  split; [now rewrite Hmax|]. split; [now rewrite Hmin|].
  apply from_market_nan.
Qed.

(** ** The records of the Pendle adapter *)

Lemma pendle_record_fields name now j market r :
  pendle_record name now j market = Ok r ->
  source r = "pendle" /\ type r = "Fixed Yield" /\
  (exists text, protocol r = JStr ("Pendle " ++ text)) /\
  chain r = JStr name /\
  apyBase r = None /\ apyReward r = None /\ description r = None /\
  (exists expiry, maturity r = Some expiry) /\
  url r = "https://app.pendle.finance/" /\
  updatedAt r = now j.
Proof.
  unfold pendle_record.
  destruct (get market "pt") as [pt|]; cbn [bind]; [|discriminate].
  destruct (get pt "symbol") as [ps|]; cbn [bind]; [|discriminate].
  destruct (ToString ps) as [ptext|]; cbn [bind]; [|discriminate].
  destruct (get market "underlyingAsset") as [asset|]; cbn [bind]; [|discriminate].
  destruct (get asset "symbol") as [symbol|]; cbn [bind]; [|discriminate].
  destruct (get market "impliedApy") as [implied|]; cbn [bind]; [|discriminate].
  destruct (js_mul implied (num_of_Z 100)) as [percent|]; cbn [bind]; [|discriminate].
  destruct (get market "totalActiveLiquidity") as [liq|]; cbn [bind]; [|discriminate].
  destruct (get market "expiry") as [expiry|]; cbn [bind]; [|discriminate].
  intros H. inversion H. cbn. repeat split; eauto.
Qed.

(** Pushing extends the array, and the record pushed at a position was
    built for that position. *)
Lemma push_each_positions f selected :
  forall allYields ys r,
    push_each f selected allYields = (ys, r) ->
    exists pushed,
      ys = (allYields ++ pushed)%list /\
      forall j y, nth_error pushed j = Some y ->
        exists m, f (List.length allYields + j)%nat m = Ok y.
Proof.
  induction selected as [|m rest IH]; intros allYields ys r H; cbn [push_each] in H.
  - inversion H; subst. exists []. rewrite app_nil_r. split; [reflexivity|].
    intros [|j] y Hy; discriminate Hy.
  - destruct (f (List.length allYields) m) as [y|e] eqn:Hy.
    + apply IH in H. destruct H as [pushed [-> Hpos]].
      exists (y :: pushed). rewrite <- app_assoc. split; [reflexivity|].
      intros [|j] y' Hy'.
      * cbn in Hy'. inversion Hy'; subst y'. exists m. now rewrite Nat.add_0_r.
      * cbn [nth_error] in Hy'. destruct (Hpos j y' Hy') as [m' Hm'].
        exists m'. rewrite length_app in Hm'. cbn [List.length] in Hm'.
        now replace (List.length allYields + S j)%nat
          with (List.length allYields + 1 + j)%nat by lia.
    + inversion H; subst. exists []. rewrite app_nil_r. split; [reflexivity|].
      intros [|j] y Hy'; discriminate Hy'.
Qed.

Lemma pendle_chain_in_order net now c allYields :
  In c pendle_chains ->
  built_in_order now allYields ->
  built_in_order now (snd (pendle_chain net now c allYields)).
Proof.
  intros Hc Hacc. unfold pendle_chain. destruct c as [id name].
  destruct (fetchWithRetry net (pendle_url id) default_retries) as [t [data|e]];
    [|exact Hacc].
  destruct (pendle_select data) as [[selected|]|e]; try exact Hacc.
  destruct (push_each (pendle_record name now) selected allYields) as [ys r] eqn:Hpush.
  assert (Hys : built_in_order now ys).
  { apply push_each_positions in Hpush. destruct Hpush as [pushed [-> Hpos]].
    intros j y Hj.
    destruct (Nat.lt_ge_cases j (List.length allYields)) as [Hlt|Hge].
    - rewrite nth_error_app1 in Hj by exact Hlt. now apply Hacc.
    - rewrite nth_error_app2 in Hj by exact Hge.
      destruct (Hpos _ _ Hj) as [m Hm]. exists (id, name), m.
      split; [exact Hc|]. cbn [snd].
      now replace j with (List.length allYields + (j - List.length allYields))%nat
        at 1 by lia. }
  destruct r; exact Hys.
Qed.

Lemma pendle_loop_in_order net now cs :
  (forall c, In c cs -> In c pendle_chains) ->
  forall allYields,
    built_in_order now allYields ->
    built_in_order now (snd (pendle_loop net now cs allYields)).
Proof.
  induction cs as [|c rest IH]; intros Hcs allYields Hacc; cbn [pendle_loop].
  - exact Hacc.
  - pose proof (pendle_chain_in_order net now c allYields
                  (Hcs c (or_introl eq_refl)) Hacc) as Hstep.
    destruct (pendle_chain net now c allYields) as [t ys]. cbn [snd] in Hstep.
    specialize (IH (fun c' H => Hcs c' (or_intror H)) ys Hstep).
    destruct (pendle_loop net now rest ys) as [t' ys']. exact IH.
Qed.

Lemma pendle_yields_in_order net now :
  snd (fetchPendleYields net now) = Ok (pendle_yields net now) /\
  built_in_order now (pendle_yields net now).
Proof.
  unfold pendle_yields, fetchPendleYields, pendle_body.
  pose proof (pendle_loop_in_order net now pendle_chains (fun c H => H) []) as H.
  destruct (pendle_loop net now pendle_chains []) as [t ys].
  cbn [try_catch snd] in *. split; [reflexivity|].
  apply H. intros [|j] r Hj; discriminate Hj.
Qed.

(** X16.  Every record of the Pendle adapter, whatever the upstream
    sends, has source ["pendle"], type ["Fixed Yield"], a protocol that is
    ["Pendle "] followed by a text, the chain name Ethereum or Arbitrum,
    the fixed URL, a [maturity] property, and no [apyBase], [apyReward] or
    [description]; its time stamp is the clock reading of its position in
    the whole result, counted across both chains. *)
Theorem pendle_yields_fields net now :
  snd (fetchPendleYields net now) = Ok (pendle_yields net now) /\
  Forall pendle_fields (pendle_yields net now) /\
  (forall j r, nth_error (pendle_yields net now) j = Some r ->
               updatedAt r = now j).
Proof.
  destruct (pendle_yields_in_order net now) as [Hrun Horder].
  split; [exact Hrun|]. split.
  - apply Forall_forall. intros r Hin.
    destruct (In_nth_error _ _ Hin) as [j Hj].
    destruct (Horder j r Hj) as [c [market [Hc Hrec]]].
    apply pendle_record_fields in Hrec.
    destruct Hrec as [H1 [H2 [H3 [H4 [H5 [H6 [H7 [H8 [H9 _]]]]]]]]].
    repeat split; try assumption.
    destruct Hc as [<-|[<-|[]]]; [now left|now right].
  - intros j r Hj. destruct (Horder j r Hj) as [c [market [_ Hrec]]].
    apply pendle_record_fields in Hrec. apply Hrec.
Qed.

(** ** The filter converts, the mapping does not *)

Lemma firstn_In {A : Type} (n : nat) (l : list A) x : In x (firstn n l) -> In x l.
Proof.
  revert l. induction n as [|n IH]; intros [|y l] H; try contradiction.
  cbn [firstn] in H. destruct H as [->|H]; [now left|right; now apply IH].
Qed.

Lemma llama_record_needs_number now i pool v :
  get pool "apy" = Ok v -> (forall a, v <> JNum a) ->
  llama_record now i pool = Throw TypeError.
Proof.
  intros Hv Hno. unfold llama_record. rewrite Hv.
  destruct pool as [| | | | | |fields]; try discriminate Hv;
    cbn [get bind js_toFixed];
    try (destruct v; try reflexivity; now destruct (Hno x)).
  destruct (own "project" fields), (own "symbol" fields), (own "chain" fields);
    cbn [bind]; destruct v; try reflexivity; now destruct (Hno x).
Qed.

(** X17.  The test [apy < 200] of the filter converts its operand, the
    call [apy.toFixed(2)] of the mapping does not.  So a pool whose [apy]
    is not a Number but converts to one below 200 ([null], which counts
    as 0, or a numeric string) passes the filter, and if it is among the
    first 30 that pass, the mapping raises a [TypeError] on it and the
    adapter returns no record at all. *)
Theorem llama_apy_not_a_number net now k data pools pool v :
  0 <= k < default_retries ->
  all_fail net llama_url k ->
  attempt (net llama_url k) = Ok data ->
  get data "data" = Ok (JArr pools) ->
  In pool (firstn 30 (filter (holds llama_keep) pools)) ->
  get pool "apy" = Ok v ->
  (forall a, v <> JNum a) ->
  js_lt v (num_of_Z 200) = Ok true /\
  (forall i, llama_record now i pool = Throw TypeError) /\
  llama_yields net now = [].
Proof.
  intros Hk Hfail Hat Hdata Hin Hv Hno.
  assert (Hkeep : llama_keep pool = Ok true).
  { apply firstn_In, filter_In in Hin. destruct Hin as [_ Hin].
    unfold holds in Hin.
    destruct (llama_keep pool) as [[|]|]; try discriminate Hin. reflexivity. }
  assert (Hrec : forall i, llama_record now i pool = Throw TypeError)
    by (intros i; now apply llama_record_needs_number with v).
  split; [|split; [exact Hrec|]].
  - unfold llama_keep in Hkeep.
    destruct (get pool "stablecoin") as [flag|]; cbn [bind] in Hkeep;
      [|discriminate].
    destruct (is_true flag); [|discriminate].
    destruct (get pool "tvlUsd") as [tvlUsd|]; cbn [bind] in Hkeep;
      [|discriminate].
    destruct (js_gt tvlUsd (num_of_Z 1000000)) as [[|]|]; cbn [bind] in Hkeep;
      try discriminate.
    rewrite Hv in Hkeep. exact Hkeep.
  - destruct (llama_yields_run net now k data Hk Hfail Hat) as [Hrun _].
    rewrite Hrun. unfold llama_select. rewrite Hdata. cbn [bind js_filter].
    destruct (filterM llama_keep pools) as [kept|e] eqn:Hf; cbn [bind];
      [|reflexivity].
    apply filterM_Ok in Hf. subst kept.
    destruct (mapM_throws (llama_record now) _ pool Hin) with (i := O)
      as [e He]; [intros i; exists TypeError; apply Hrec|].
    now rewrite He.
Qed.

End Runtime.

(** * The properties on sample inputs

    The sample inputs are written with code units below [U+0080] only,
    which the runtime lower-cases as [toLowerCase_ascii] does. *)

Lemma categorizeProtocol_first_match_witness :
  categorizeProtocol toLowerCase_ascii (JStr "Aave V3") = Ok "Lending" /\
  categorizeProtocol toLowerCase_ascii (JStr "AAVE V3") =
    categorizeProtocol toLowerCase_ascii (JStr (toLowerCase_ascii "AAVE V3")).
Proof.
  pose proof (categorizeProtocol_first_match toLowerCase_ascii
                toLowerCase_ascii_idempotent (fun s _ => eq_refl) "AAVE V3")
    as [H1 [_ [_ [H2 _]]]].
  split; [exact H2|exact H1].
Defined.

Lemma categorizeProtocol_substring_witness :
  ascii_only "Curve on AAVE" = true /\
  categorizeProtocol toLowerCase_ascii (JStr "Curve on AAVE") = Ok "Lending".
Proof.
  split; [reflexivity|].
  apply (proj1 (proj2 (proj2 (proj2
           (categorizeProtocol_substring toLowerCase_ascii
              (fun s _ => eq_refl) ""))))
           "Curve on " "AAVE" "").
  - reflexivity.
  - cbn. auto.
Defined.

Lemma handler_dispatch_witness :
  "POST" <> "GET" /\ "POST" <> "OPTIONS" /\
  handler toLowerCase_ascii "POST" world_down =
    mkResponse 405 cors_headers (Failure "Method not allowed" None).
Proof.
  split; [discriminate|]. split; [discriminate|].
  apply (proj1 (proj2 (handler_dispatch toLowerCase_ascii world_down)));
    discriminate.
Defined.

Lemma adapters_never_reject_witness :
  snd (fetchDefiLlamaYields toLowerCase_ascii net_down clock_zero) = Ok [].
Proof.
  apply (proj1 (proj2 (proj2 (adapters_never_reject toLowerCase_ascii world_down)))
           net_down clock_zero
           (fst (llama_body toLowerCase_ascii net_down clock_zero)) TypeError).
  reflexivity.
Defined.

(** C9, as stated, fails in its parenthesis: on Ethereum the second
    market has no [pt], building its record raises a [TypeError], the
    exception is caught and logged, and the adapter returns the record of
    the first market, not an empty array. *)
Lemma pendle_error_keeps_records :
  exists t r,
    fetchPendleYields net_broken_market clock_zero = (t, Ok [r]) /\
    In (ELog "Pendle Ethereum fetch error:" TypeError) t /\
    protocol r = JStr "Pendle PT-sUSDe" /\
    chain r = JStr "Ethereum" /\
    apy r = num_of_Z 8 /\
    snd (fetchPendleYields net_broken_market clock_zero) <> Ok [].
Proof.
  eexists _, _. split; [vm_compute; reflexivity|].
  split; [cbn; auto|].
  split; [reflexivity|]. split; [reflexivity|].
  split; [vm_compute; reflexivity|].
  vm_compute. discriminate.
Qed.




(** An APY of -0.004 counts zero hundredths: it is written ["-0.00"] and
    read back as [-0], which is not below zero, where -0.005 gives
    -0.01. *)
Example small_negative_apy_run :
  parseFloat (toFixed (num_of_decimal true 4 (-3)) 2) = S754_zero true /\
  num_le PosZero (parseFloat (toFixed (num_of_decimal true 4 (-3)) 2)) = true /\
  parseFloat (toFixed (num_of_decimal true 5 (-3)) 2) = num_of_decimal true 1 (-2).
Proof. repeat split; vm_compute; reflexivity. Qed.


(** A first attempt answered 503 is retried after one second; of the
    three pools listed only the first passes the filter, and its APY of
    4.256 is kept as 4.26. *)
Example llama_retry_run :
  exists r,
    fetchDefiLlamaYields toLowerCase_ascii net_retry clock_zero =
      ([EFetch llama_url; ESleep 1000; EFetch llama_url], Ok [r]) /\
    protocol r = JStr "Curve" /\ type r = "Dex" /\
    apy r = num_of_decimal false 426 (-2) /\
    tvl r = JNum (num_of_Z 5000000) /\
    url r = "https://defillama.com/yields?token=USDC&chain=Ethereum".
Proof.
  eexists. split; [vm_compute; reflexivity|].
  repeat split; vm_compute; reflexivity.
Qed.

Lemma llama_yields_complete_witness :
  snd (fetchDefiLlamaYields toLowerCase_ascii net_retry clock_zero)
    = Ok (llama_yields toLowerCase_ascii net_retry clock_zero) /\
  List.length (llama_yields toLowerCase_ascii net_retry clock_zero) = 1%nat.
Proof.
  pose proof
    (llama_yields_complete toLowerCase_ascii net_retry clock_zero 1
       (JObj [("data",
          JArr [ pool_of "Curve" true (num_of_Z 5000000)
                   (num_of_decimal false 4256 (-3));
                 pool_of "Aave V3" true (num_of_Z 900000) (num_of_Z 3);
                 pool_of "Uniswap V3" false (num_of_Z 9000000) (num_of_Z 12) ])])
       [ pool_of "Curve" true (num_of_Z 5000000) (num_of_decimal false 4256 (-3));
         pool_of "Aave V3" true (num_of_Z 900000) (num_of_Z 3);
         pool_of "Uniswap V3" false (num_of_Z 9000000) (num_of_Z 12) ]
       ltac:(unfold default_retries; lia)
       net_retry_first_failure eq_refl eq_refl
       ltac:(repeat constructor; apply pool_of_plain)) as [H1 [H2 _]].
  split; [exact H1|]. rewrite H2. vm_compute. reflexivity.
Defined.

Lemma llama_yields_all_or_nothing_witness :
  (forall pools,
     get (JObj [("data", JStr "unavailable")]) "data" <> Ok (JArr pools)) /\
  llama_yields toLowerCase_ascii
    (fun url i => if i =? 0 then Rejects
                  else Responds 200 (Some (JObj [("data", JStr "unavailable")])))
    clock_zero = [].
Proof.
  split; [intros pools; discriminate|].
  apply (proj1 (llama_yields_all_or_nothing toLowerCase_ascii
                  (fun url i => if i =? 0 then Rejects
                     else Responds 200 (Some (JObj [("data", JStr "unavailable")])))
                  clock_zero 1 (JObj [("data", JStr "unavailable")])
                  ltac:(unfold default_retries; lia)
                  ltac:(intros i Hi; assert (i = 0) as -> by lia;
                        exists TypeError; reflexivity)
                  eq_refl)).
  intros pools. discriminate.
Defined.

Lemma llama_apy_at_most_200_witness :
  exists n, (n <= 20000)%N /\
    apy {| protocol := JStr "Curve"; stablecoin := JStr "USDC";
           chain := JStr "Ethereum";
           apy := parseFloat (toFixed (num_of_decimal false 4256 (-3)) 2);
           tvl := JNum (num_of_Z 5000000);
           apyBase := Some (JNum PosZero); apyReward := Some (JNum PosZero);
           type := "Dex"; source := "defillama"; maturity := None;
           description := None; url := ""; updatedAt := "" |}
    = num_of_decimal false n (-2).
Proof.
  refine (proj1 (llama_apy_at_most_200 toLowerCase_ascii
            (pool_of "Curve" true (num_of_Z 5000000) (num_of_decimal false 4256 (-3)))
            _ (num_of_decimal false 4256 (-3)) _ eq_refl _ _ _)).
  - repeat split. exists (num_of_decimal false 4256 (-3)). split; reflexivity.
  - vm_compute. reflexivity.
  - vm_compute. reflexivity.
  - vm_compute. reflexivity.
Defined.

Lemma stats_total_kind_witness :
  stats (merge toLowerCase_ascii (world_of net_text_tvl)) ""
    = Ok (stats_text_tvl toLowerCase_ascii) /\
  ((exists x, totalTVL (stats_text_tvl toLowerCase_ascii) = JNum x) \/
   (exists s, totalTVL (stats_text_tvl toLowerCase_ascii) = JStr s)).
Proof.
  assert (H : stats (merge toLowerCase_ascii (world_of net_text_tvl)) ""
              = Ok (stats_text_tvl toLowerCase_ascii))
    by (vm_compute; reflexivity).
  split; [exact H|].
  exact (proj1 (stats_total_kind (merge toLowerCase_ascii (world_of net_text_tvl)) ""
                  (stats_text_tvl toLowerCase_ascii) H)).
Defined.

(** The pool with the string [tvlUsd] passes the filter, and the total of
    the answer is the text of 0, of that string and of the three Manual
    amounts, one after the other. *)
Example text_tvl_run :
  List.length (llama_yields toLowerCase_ascii net_text_tvl clock_zero) = 1%nat /\
  totalTVL (stats_text_tvl toLowerCase_ascii)
    = JStr "0200000045000000250000000121000000".
Proof. split; vm_compute; reflexivity. Qed.

Lemma llama_apy_not_a_number_witness :
  js_lt JNull (num_of_Z 200) = Ok true /\
  llama_yields toLowerCase_ascii net_null_apy clock_zero = [].
Proof.
  pose proof
    (llama_apy_not_a_number toLowerCase_ascii net_null_apy clock_zero 0
       (JObj [("data",
          JArr [ pool_of "Curve" true (num_of_Z 5000000) (num_of_Z 3);
                 JObj [ ("project", JStr "aave-v3"); ("symbol", JStr "USDC");
                        ("chain", JStr "Ethereum"); ("stablecoin", JBool true);
                        ("tvlUsd", JNum (num_of_Z 2000000));
                        ("apy", JNull) ] ])])
       [ pool_of "Curve" true (num_of_Z 5000000) (num_of_Z 3);
         JObj [ ("project", JStr "aave-v3"); ("symbol", JStr "USDC");
                ("chain", JStr "Ethereum"); ("stablecoin", JBool true);
                ("tvlUsd", JNum (num_of_Z 2000000));
                ("apy", JNull) ] ]
       (JObj [ ("project", JStr "aave-v3"); ("symbol", JStr "USDC");
               ("chain", JStr "Ethereum"); ("stablecoin", JBool true);
               ("tvlUsd", JNum (num_of_Z 2000000));
               ("apy", JNull) ])
       JNull
       ltac:(unfold default_retries; lia)
       ltac:(intros i Hi; lia) eq_refl eq_refl
       ltac:(vm_compute; right; left; reflexivity)
       eq_refl
       ltac:(intros a; discriminate)) as [H1 [_ H3]].
  split; [exact H1|exact H3].
Defined.
